(** * Declaration checking and indexed import of go/types

    A shallow embedding of two files of the Go tool chain:

    - [src/go/types/decl.go]: the colour engine of [Checker.objDecl], the
      cycle classification of [Checker.cycle] and the declaration walker
      [Checker.walkDecl];
    - [src/go/internal/gcimporter/iimport.go]: the indexed importer.

    Pointers become handles into explicit stores, panics become a result
    constructor, and the mutable fields of an object live in maps of the
    checker state.  *)

From Stdlib Require Import ZArith List String Ascii Bool Lia QArith.
From Stdlib.Strings Require Import Byte.
From stdpp Require Import base option list gmap strings sorting.

Close Scope Q_scope.

(* ===================================================================== *)
(** ** The declaration checker, [go/types/decl.go] *)
(* ===================================================================== *)

Module Checker.

(** *** Colours

    [color] is a [uint32]; every value from [grey] on is grey and encodes
    an index into the object path.  The three constants are declared next
    to the [Object] interface, outside [decl.go]. *)

Definition color := Z.

(** Modelled from the spec: the colour constants [white], [black], [grey]
    (declared with the objects, not in [decl.go]); the spec gives
    [grey(i) = GREY + i] with white and black below grey. *)
Definition white : color := 0%Z.
Definition black : color := 1%Z.
Definition grey : color := 2%Z.

(** *** Types and objects *)

(** Only nil-ness and the [Typ[Invalid]] sentinel of a type are observed by
    the code embedded here; all other types are opaque handles. *)
Inductive Type_ : Set :=
| Invalid
| SomeType (id : nat).

Global Instance Type__eq_dec : EqDecision Type_.
Proof. solve_decision. Defined.

(** The dynamic type of an [Object] value. *)
Inductive ObjectKind : Set :=
| Const | Var | TypeName | Func | PkgName | Label | Builtin | Nil.

Global Instance ObjectKind_eq_dec : EqDecision ObjectKind.
Proof. solve_decision. Defined.

(** An object handle.  [obj_id] is the identity of the pointer; the fields
    that [decl.go] mutates ([color_] and [typ]) are kept in the checker
    state, keyed by [obj_id]. *)
Record Object : Set := {
  obj_id : nat;
  obj_kind : ObjectKind;
  obj_name : string;
  obj_pos : Z;                 (* token.Pos *)
  obj_parent : option nat      (* obj.Parent(), a scope *)
}.

(** *** Syntax consulted by the checker *)

Definition Pos := Z.

(** Modelled from the spec: [token.Pos.IsValid], which holds of every
    position but [NoPos = 0]. *)
Definition IsValid (p : Pos) : bool := negb (p =? 0)%Z.

Record TypeSpec : Set := {
  ts_Name : string;
  Assign : Pos                (* position of '=', if any *)
}.

Record FuncDecl : Set := {
  fd_Name : string;
  Recv : option nat           (* receiver field list, nil for functions *)
}.

Record declInfo : Set := {
  file : option nat;          (* scope of the file containing the object *)
  inherited : bool;
  tdecl : option TypeSpec;
  fdecl : option FuncDecl
}.

(** *** Error sink *)

Inductive errorCode : Set :=
| _DuplicateDecl | _InvalidDeclCycle | _InvalidConstType | _BadDecl.

Record report : Set := {
  r_at : Object;
  r_code : errorCode;
  r_msg : string
}.

(** *** Checker state *)

Record context : Set := {
  ctx_decl : option declInfo;   (* check.decl *)
  ctx_scope : option nat        (* check.scope *)
}.

Record Checker : Type := {
  pkg_scope : nat;                    (* check.pkg.scope *)
  objMap : gmap nat declInfo;         (* keyed by object identity *)
  objPath : list Object;
  color_ : gmap nat color;            (* obj.color_; white when absent *)
  typ : gmap nat Type_;               (* obj.typ; nil when absent *)
  ctxt : context;
  errors : list report
}.

Definition obj_color (check : Checker) (obj : Object) : color :=
  default white (color_ check !! obj_id obj).

Definition obj_Type (check : Checker) (obj : Object) : option Type_ :=
  typ check !! obj_id obj.

Definition setColor (check : Checker) (obj : Object) (c : color) : Checker :=
  {| pkg_scope := pkg_scope check; objMap := objMap check;
     objPath := objPath check;
     color_ := <[obj_id obj := c]> (color_ check);
     typ := typ check; ctxt := ctxt check; errors := errors check |}.

Definition setType (check : Checker) (obj : Object) (t : Type_) : Checker :=
  {| pkg_scope := pkg_scope check; objMap := objMap check;
     objPath := objPath check; color_ := color_ check;
     typ := <[obj_id obj := t]> (typ check);
     ctxt := ctxt check; errors := errors check |}.

Definition setObjPath (check : Checker) (p : list Object) : Checker :=
  {| pkg_scope := pkg_scope check; objMap := objMap check;
     objPath := p; color_ := color_ check; typ := typ check;
     ctxt := ctxt check; errors := errors check |}.

Definition setContext (check : Checker) (c : context) : Checker :=
  {| pkg_scope := pkg_scope check; objMap := objMap check;
     objPath := objPath check; color_ := color_ check; typ := typ check;
     ctxt := c; errors := errors check |}.

(** Modelled from the spec: [Checker.errorf], which hands the error to the
    error sink and lets checking continue. *)
Definition errorf (check : Checker) (at_ : Object) (code : errorCode)
    (msg : string) : Checker :=
  {| pkg_scope := pkg_scope check; objMap := objMap check;
     objPath := objPath check; color_ := color_ check; typ := typ check;
     ctxt := ctxt check;
     errors := errors check ++ [{| r_at := at_; r_code := code; r_msg := msg |}] |}.

(** *** Results: a call returns, or panics *)

Inductive result (A : Type) : Type :=
| Ok (a : A) (check : Checker)
| Panic (msg : string).
Arguments Ok {A} a check.
Arguments Panic {A} msg.

Definition bind {A B} (m : result A) (k : A → Checker → result B) : result B :=
  match m with
  | Ok a check => k a check
  | Panic msg => Panic msg
  end.

(** Modelled from the spec: [assert] and [unreachable], which panic. *)
Definition assert (p : bool) (check : Checker) : result unit :=
  if p then Ok tt check else Panic "assertion failed".

Definition unreachable {A} : result A := Panic "unreachable".

(** Modelled from the spec: [Checker.push] and [Checker.pop] on the object
    path; [push] returns the index of the pushed object. *)
Definition push (check : Checker) (obj : Object) : Z * Checker :=
  (Z.of_nat (length (objPath check)), setObjPath check (objPath check ++ [obj])).

Definition pop (check : Checker) : result Object :=
  match last (objPath check) with
  | Some obj => Ok obj (setObjPath check (removelast (objPath check)))
  | None => Panic "index out of range"
  end.

(** *** [firstInSrc] and [cycleError] *)

(** The loop of [firstInSrc] over [path[1:]]: [i] is the loop index. *)
Fixpoint firstInSrc_loop (rest : list Object) (i : nat) (fst : nat) (pos : Pos)
    : nat :=
  match rest with
  | [] => fst
  | t :: rest' =>
      if (obj_pos t <? pos)%Z
      then firstInSrc_loop rest' (S i) (i + 1) (obj_pos t)
      else firstInSrc_loop rest' (S i) fst pos
  end.

Definition firstInSrc (path : list Object) : option nat :=
  match path with
  | [] => None                       (* path[0] panics *)
  | p0 :: rest => Some (firstInSrc_loop rest 0 0 (obj_pos p0))
  end.

(** The [for range cycle] loop of [cycleError]; [n] counts the remaining
    iterations. *)
Fixpoint cycleError_loop (cycle : list Object) (n : nat) (i : nat) (obj : Object)
    (check : Checker) : result (nat * Object) :=
  match n with
  | O => Ok (i, obj) check
  | S n' =>
      let check := errorf check obj _InvalidDeclCycle
                     (String "009" (obj_name obj ++ " refers to")) in
      let i := i + 1 in
      let i := if length cycle <=? i then 0 else i in
      match cycle !! i with
      | Some obj' => cycleError_loop cycle n' i obj' check
      | None => Panic "index out of range"
      end
  end.

Definition cycleError (check : Checker) (cycle : list Object) : result unit :=
  match firstInSrc cycle with
  | None => Panic "index out of range"
  | Some i =>
      match cycle !! i with
      | None => Panic "index out of range"
      | Some obj =>
          let check := errorf check obj _InvalidDeclCycle
                         ("illegal cycle in declaration of " ++ obj_name obj) in
          bind (cycleError_loop cycle (length cycle) i obj check)
            (λ '(_, obj) check,
               Ok tt (errorf check obj _InvalidDeclCycle
                        (String "009" (obj_name obj))))
      end
  end.

Section WithEnvironment.

(** [debug] is a constant of the package, and [TypeName.IsAlias] a method
    of the object; neither is declared in [decl.go]. *)
Variable debug : bool.
Variable IsAlias : Checker → Object → bool.

(** *** [Checker.cycle] *)

(** The counting loop of [cycle]. *)
Fixpoint countCycle (check : Checker) (cycle : list Object) (nval ndef : nat)
    : result (nat * nat) :=
  match cycle with
  | [] => Ok (nval, ndef) check
  | obj :: rest =>
      match obj_kind obj with
      | Const | Var => countCycle check rest (nval + 1) ndef
      | TypeName =>
          match objMap check !! obj_id obj with
          | Some d =>                          (* package-level object *)
              match tdecl d with
              | Some td =>
                  let alias := IsValid (Assign td) in
                  countCycle check rest nval (if alias then ndef else ndef + 1)
              | None => Panic "nil pointer dereference"
              end
          | None =>                            (* function local object *)
              let alias := IsAlias check obj in
              countCycle check rest nval (if alias then ndef else ndef + 1)
          end
      | Func => countCycle check rest nval ndef   (* ignored for now *)
      | _ => unreachable
      end
  end.

(** The consistency check made under [debug]. *)
Definition inconsistentObjMap (check : Checker) (obj : Object) : bool :=
  let info := objMap check !! obj_id obj in
  let inObjMap :=
    match info with
    | Some info =>
        match fdecl info with
        | None => true
        | Some fd => bool_decide (Recv fd = None)
        end
    | None => false
    end in
  let isPkgObj := bool_decide (obj_parent obj = Some (pkg_scope check)) in
  negb (eqb isPkgObj inObjMap).

Definition cycle (check : Checker) (obj : Object) : result bool :=
  if debug && inconsistentObjMap check obj then unreachable else
  bind (assert (grey <=? obj_color check obj)%Z check) (λ _ check,
  let start := (obj_color check obj - grey)%Z in
  if (Z.of_nat (length (objPath check)) <? start)%Z
  then Panic "slice bounds out of range" else
  let cycle := drop (Z.to_nat start) (objPath check) in
  bind (countCycle check cycle 0 0) (λ '(nval, ndef) check,
  if nval =? length cycle then Ok false check
  else if (nval =? 0) && (0 <? ndef) then Ok false check
  else bind (cycleError check cycle) (λ _ check, Ok true check))).

(** *** [Checker.objDecl] *)

(** The declaration bodies reached from a white object.  They call into
    expression and type-expression checking, which [decl.go] treats as
    given. *)
Variable constDecl : Checker → Object → declInfo → result unit.
Variable varDecl : Checker → Object → declInfo → result unit.
Variable typeDecl : Checker → Object → option TypeSpec → option nat → result unit.
Variable collectMethods : Checker → Object → result unit.
Variable funcDecl : Checker → Object → declInfo → result unit.

(** [assert(obj.Type() != nil)] *)
Definition assertTyped (obj : Object) (check : Checker) : result unit :=
  assert (bool_decide (obj_Type check obj ≠ None)) check.

(** The [grey] case of the colour switch, up to and including its
    [return]. *)
Definition objDecl_grey (check : Checker) (obj : Object) : result unit :=
  bind
    match obj_kind obj with
    | Const | Var =>
        bind (cycle check obj) (λ isCycle check,
          if isCycle || bool_decide (obj_Type check obj = None)
          then Ok tt (setType check obj Invalid)
          else Ok tt check)
    | TypeName =>
        bind (cycle check obj) (λ isCycle check,
          if isCycle then Ok tt (setType check obj Invalid) else Ok tt check)
    | Func =>
        bind (cycle check obj) (λ _ check, Ok tt check)
    | _ => unreachable
    end
    (λ _ check, assertTyped obj check).

(** The part of [objDecl] after the colour switch, run for a white object
    between the push and the deferred pop. *)
Definition objDecl_body (check : Checker) (obj : Object) (def : option nat)
    : result unit :=
  match objMap check !! obj_id obj with
  | None => unreachable
  | Some d =>
      let saved := ctxt check in
      let check := setContext check {| ctx_decl := None; ctx_scope := file d |} in
      let withDecl check :=
        setContext check {| ctx_decl := Some d; ctx_scope := ctx_scope (ctxt check) |} in
      bind
        match obj_kind obj with
        | Const => constDecl (withDecl check) obj d
        | Var => varDecl (withDecl check) obj d
        | TypeName =>
            bind (typeDecl check obj (tdecl d) def) (λ _ check,
              collectMethods check obj)
        | Func => funcDecl check obj d
        | _ => unreachable
        end
        (λ _ check, Ok tt (setContext check saved))
  end.

Definition objDecl (check : Checker) (obj : Object) (def : option nat)
    : result unit :=
  if (obj_color check obj =? white)%Z && bool_decide (obj_Type check obj ≠ None)
  then Ok tt (setColor check obj black)
  else if (obj_color check obj =? white)%Z then
    bind (assert (bool_decide (obj_Type check obj = None)) check) (λ _ check,
    let '(i, check) := push check obj in
    let check := setColor check obj ((grey + i) mod 2 ^ 32)%Z in
    bind (objDecl_body check obj def) (λ _ check,
    bind (pop check) (λ top check,
    Ok tt (setColor check top black))))
  else if (obj_color check obj =? black)%Z then
    assertTyped obj check
  else
    objDecl_grey check obj.

End WithEnvironment.

(** *** [Checker.walkDecl] *)

Definition Expr := nat.          (* an ast.Expr, opaque here *)

Record ImportSpec : Set := { is_Path : string }.

Record ValueSpec : Set := {
  vs_Names : list string;
  vs_Type : option Expr;
  vs_Values : list Expr
}.

Inductive Spec : Set :=
| ImportSpec_ (s : ImportSpec)
| ValueSpec_ (s : ValueSpec)
| TypeSpec_ (s : TypeSpec)
| OtherSpec.

Inductive Token : Set := IMPORT | CONST | TYPE | VAR | ILLEGAL.

Inductive Decl : Set :=
| BadDecl
| GenDecl (Tok : Token) (Specs : list Spec)
| FuncDecl_ (d : FuncDecl)
| OtherDecl.

(** The declaration records handed to the callback. *)
Inductive decl : Set :=
| importDecl (spec : ImportSpec)
| constDecl_ (spec : ValueSpec) (iota : nat) (typ : option Expr)
    (init : list Expr) (inherited : bool)
| varDecl_ (spec : ValueSpec)
| typeDecl_ (spec : TypeSpec)
| funcDecl_ (d : FuncDecl).

(** What [walkDecl] does, in order: calls of the callback [f], of
    [check.arityMatch] and of [check.invalidAST]. *)
Inductive walkEvent : Set :=
| Emit (d : decl)
| ArityMatch (s : ValueSpec) (init : option ValueSpec)
| InvalidAST (msg : string).

(** [new(ast.ValueSpec)] *)
Definition emptyValueSpec : ValueSpec :=
  {| vs_Names := []; vs_Type := None; vs_Values := [] |}.

(** [s.Type != nil || len(s.Values) > 0] *)
Definition hasTypeOrValues (s : ValueSpec) : bool :=
  bool_decide (vs_Type s ≠ None) || (0 <? length (vs_Values s)).

(** The loop over [d.Specs]; [last] and [iota] are its variables. *)
Fixpoint walkSpecs (Tok : Token) (last : option ValueSpec) (iota : nat)
    (Specs : list Spec) : list walkEvent :=
  match Specs with
  | [] => []
  | s :: rest =>
      match s with
      | ImportSpec_ s => Emit (importDecl s) :: walkSpecs Tok last (S iota) rest
      | ValueSpec_ s =>
          match Tok with
          | CONST =>
              let '(last', inherited) :=
                if hasTypeOrValues s then (s, false)
                else match last with
                     | None => (emptyValueSpec, false)
                     | Some l => (l, true)
                     end in
              ArityMatch s (Some last')
                :: Emit (constDecl_ s iota (vs_Type last') (vs_Values last') inherited)
                :: walkSpecs Tok (Some last') (S iota) rest
          | VAR =>
              ArityMatch s None :: Emit (varDecl_ s)
                :: walkSpecs Tok last (S iota) rest
          | _ => InvalidAST "invalid token" :: walkSpecs Tok last (S iota) rest
          end
      | TypeSpec_ s => Emit (typeDecl_ s) :: walkSpecs Tok last (S iota) rest
      | OtherSpec =>
          InvalidAST "unknown ast.Spec node" :: walkSpecs Tok last (S iota) rest
      end
  end.

Definition walkDecl (d : Decl) : list walkEvent :=
  match d with
  | BadDecl => []
  | GenDecl Tok Specs => walkSpecs Tok None 0 Specs
  | FuncDecl_ d => [Emit (funcDecl_ d)]
  | OtherDecl => [InvalidAST "unknown ast.Decl node"]
  end.

Definition walkDecls (decls : list Decl) : list walkEvent :=
  flat_map walkDecl decls.

(** The records the callback received. *)
Definition emitted (evs : list walkEvent) : list decl :=
  omap (λ e, match e with Emit d => Some d | _ => None end) evs.

(** **** Const inheritance, as the specification words it *)

(** The nearest spec of [pre], from its end, that is a ValueSpec with a
    type or values. *)
Definition nearestSource (pre : list Spec) : option ValueSpec :=
  last (omap (λ sp, match sp with
                    | ValueSpec_ s => if hasTypeOrValues s then Some s else None
                    | _ => None
                    end) pre).

End Checker.

(* ===================================================================== *)
(** ** The indexed importer, [go/internal/gcimporter/iimport.go] *)
(* ===================================================================== *)

Module Importer.

Local Open Scope Z_scope.

(** *** Machine integers and bytes *)

Definition uint64 (z : Z) : Z := z mod 2 ^ 64.
Definition int64 (z : Z) : Z := (z + 2 ^ 63) mod 2 ^ 64 - 2 ^ 63.
Definition uint8 (z : Z) : Z := z mod 2 ^ 8.

Definition byteZ (b : byte) : Z := Z.of_N (Byte.to_N b).

(** The byte with value [z mod 256]. *)
Definition B (z : Z) : byte :=
  default x00 (Byte.of_N (Z.to_N (z mod 256))).

(** *** [encoding/binary] varints *)

Inductive ioError : Set := EOF | ErrUnexpectedEOF | errOverflow.

Definition MaxVarintLen64 : Z := 10.

(** Modelled from the spec: [binary.ReadUvarint] over a byte reader; the
    reader is the list of bytes not yet consumed.  [n] bounds the loop
    [for i := 0; i < MaxVarintLen64; i++]. *)
Fixpoint ReadUvarint_loop (n : nat) (i x s : Z) (r : list byte)
    : Z * option ioError * list byte :=
  match n with
  | O => (x, Some errOverflow, r)
  | S n' =>
      match r with
      | [] => (x, Some EOF, r)
      | b :: r' =>
          let b := byteZ b in
          if b <? 0x80 then
            if (i =? MaxVarintLen64 - 1) && (1 <? b)
            then (x, Some errOverflow, r')
            else (Z.lor x (uint64 (Z.shiftl b s)), None, r')
          else
            ReadUvarint_loop n' (i + 1)
              (Z.lor x (uint64 (Z.shiftl (Z.land b 0x7f) s))) (s + 7) r'
      end
  end.

Definition ReadUvarint (r : list byte) : Z * option ioError * list byte :=
  ReadUvarint_loop (Z.to_nat MaxVarintLen64) 0 0 0 r.

(** Modelled from the spec: [binary.ReadVarint], the zig-zag decoding of
    [ReadUvarint]. *)
Definition ReadVarint (r : list byte) : Z * option ioError * list byte :=
  let '(ux, err, r') := ReadUvarint r in
  let x := int64 (Z.shiftr ux 1) in
  let x := if Z.land ux 1 =? 0 then x else Z.lnot x in
  (x, err, r').

(** Modelled from the spec: [binary.Uvarint] on a byte slice; the second
    component is the number of bytes read, or is not positive on failure. *)
Fixpoint Uvarint_loop (buf : list byte) (i x s : Z) : Z * Z :=
  match buf with
  | [] => (0, 0)
  | b :: buf' =>
      let b := byteZ b in
      if i =? MaxVarintLen64 then (0, - (i + 1))
      else if b <? 0x80 then
        if (i =? MaxVarintLen64 - 1) && (1 <? b) then (0, - (i + 1))
        else (Z.lor x (uint64 (Z.shiftl b s)), i + 1)
      else Uvarint_loop buf' (i + 1)
             (Z.lor x (uint64 (Z.shiftl (Z.land b 0x7f) s))) (s + 7)
  end.

Definition Uvarint (buf : list byte) : Z * Z := Uvarint_loop buf 0 0 0.

(** *** Positions *)

(** Modelled from the spec: the synthetic file set, which gives an opaque
    position for each [(file, line, column)] seen. *)
Inductive Pos : Set :=
| NoPos
| FakePos (file : string) (line column : Z).

(** *** Types of [go/types]

    A [types.Type] is an interface value holding a pointer; [tref] is the
    pointer, an index into the store of type nodes, and [None] is the nil
    interface. *)

Definition tref := nat.
Definition pkgref := nat.
Definition Type_ : Set := option tref.

Inductive BasicKind : Set :=
| Invalid
| Bool | Int | Int8 | Int16 | Int32 | Int64
| Uint | Uint8 | Uint16 | Uint32 | Uint64 | Uintptr
| Float32 | Float64 | Complex64 | Complex128
| String_ | UnsafePointer
| UntypedBool | UntypedInt | UntypedRune | UntypedFloat | UntypedComplex
| UntypedString | UntypedNil.

Global Instance BasicKind_eq_dec : EqDecision BasicKind.
Proof. solve_decision. Defined.

(** Modelled from the spec: the [BasicInfo] flags, an info bitmask giving
    the constness class of a basic type. *)
Definition IsBoolean : Z := 1.
Definition IsInteger : Z := 2.
Definition IsUnsigned : Z := 4.
Definition IsFloat : Z := 8.
Definition IsComplex : Z := 16.
Definition IsString : Z := 32.
Definition IsUntyped : Z := 64.
Definition IsNumeric : Z := Z.lor IsInteger (Z.lor IsFloat IsComplex).
Definition IsConstType : Z := Z.lor IsBoolean (Z.lor IsNumeric IsString).

Record Basic : Set := {
  Kind : BasicKind;
  Info : Z;
  Name : string
}.

Inductive ChanDir : Set := SendRecv | SendOnly | RecvOnly.

Record Var : Set := {
  v_pos : Pos;
  v_pkg : option pkgref;
  v_name : string;
  v_typ : Type_;
  v_embedded : bool;
  v_isField : bool
}.

Record Func : Set := {
  f_pos : Pos;
  f_pkg : option pkgref;
  f_name : string;
  f_typ : Type_               (* the *Signature *)
}.

Record TypeName : Set := {
  tn_pos : Pos;
  tn_pkg : option pkgref;
  tn_name : string;
  tn_typ : Type_
}.

(** A node of the type store.  The mutable fields of a node are updated
    in place by replacing the node at its index. *)
Inductive tnode : Set :=
| BasicT (b : Basic)
| Pointer (elem : Type_)
| Slice (elem : Type_)
| Array (elem : Type_) (len : Z)
| Chan (dir : ChanDir) (elem : Type_)
| Map (key elem : Type_)
| Signature (recv : option Var) (params results : list Var) (variadic : bool)
    (tparams rparams : list Type_)
| Struct (fields : list Var) (tags : list string)
| Interface (methods : list Func) (embeddeds : list Type_) (complete : bool)
| Named (obj : TypeName) (underlying : Type_) (methods : list Func)
    (tparams : list Type_) (targs : list Type_)
| TypeParam (obj : TypeName) (constraint : Type_)
| Union (terms : list (bool * Type_))
| Opaque (id : nat).          (* any other implementation of types.Type *)

(** Constant values of [go/constant]. *)
Inductive constVal : Set :=
| unknownVal
| boolVal (b : bool)
| stringVal (s : string)
| intVal (x : Z)
| floatVal (x : Q)
| complexVal (re im : Q).

Inductive Object : Set :=
| ConstObj (pos : Pos) (pkg : option pkgref) (name : string) (typ : Type_)
    (val : constVal)
| VarObj (v : Var)
| FuncObj (f : Func)
| TypeNameObj (tn : TypeName).

Record Package : Type := {
  pkg_path : string;
  pkg_name : string;
  pkg_scope : gmap string Object;
  pkg_imports : list pkgref;
  pkg_complete : bool
}.

(** *** Importer state *)

Record iimporter : Type := {
  exportVersion : Z;
  ipath : string;
  version : Z;
  stringData : list byte;
  stringCache : gmap Z string;
  pkgCache : gmap Z pkgref;
  declData : list byte;
  pkgIndex : gmap pkgref (gmap string Z);
  typCache : gmap Z Type_;
  tparamIndex : gmap (string * string) Type_;
  interfaceList : list tref
}.

(** The importer together with the [go/types] objects it builds: the
    store of type nodes, the packages, and the caller's [imports] map. *)
Record state : Type := {
  p : iimporter;
  types : list tnode;
  packages : list Package;
  imports : gmap string pkgref
}.

Record importReader : Set := {
  currPkg : option pkgref;
  declReader : list byte;
  prevFile : string;
  prevLine : Z;
  prevColumn : Z
}.

(** [&importReader{p: p, currPkg: pkg}] with the reader reset to [data] *)
Definition newReader (pkg : option pkgref) (data : list byte) : importReader :=
  {| currPkg := pkg; declReader := data;
     prevFile := ""; prevLine := 0; prevColumn := 0 |}.

Definition set_declReader (r : importReader) (d : list byte) : importReader :=
  {| currPkg := currPkg r; declReader := d; prevFile := prevFile r;
     prevLine := prevLine r; prevColumn := prevColumn r |}.

Definition set_currPkg (r : importReader) (pkg : option pkgref) : importReader :=
  {| currPkg := pkg; declReader := declReader r; prevFile := prevFile r;
     prevLine := prevLine r; prevColumn := prevColumn r |}.

Definition set_prev (r : importReader) (f : string) (l c : Z) : importReader :=
  {| currPkg := currPkg r; declReader := declReader r; prevFile := f;
     prevLine := l; prevColumn := c |}.

Definition set_p (st : state) (q : iimporter) : state :=
  {| p := q; types := types st; packages := packages st; imports := imports st |}.

Definition set_types (st : state) (h : list tnode) : state :=
  {| p := p st; types := h; packages := packages st; imports := imports st |}.

Definition set_packages (st : state) (ps : list Package) : state :=
  {| p := p st; types := types st; packages := ps; imports := imports st |}.

Definition set_imports (st : state) (m : gmap string pkgref) : state :=
  {| p := p st; types := types st; packages := packages st; imports := m |}.

Definition set_stringCache (q : iimporter) (m : gmap Z string) : iimporter :=
  {| exportVersion := exportVersion q; ipath := ipath q; version := version q;
     stringData := stringData q; stringCache := m; pkgCache := pkgCache q;
     declData := declData q; pkgIndex := pkgIndex q; typCache := typCache q;
     tparamIndex := tparamIndex q; interfaceList := interfaceList q |}.

Definition set_pkgCache (q : iimporter) (m : gmap Z pkgref) : iimporter :=
  {| exportVersion := exportVersion q; ipath := ipath q; version := version q;
     stringData := stringData q; stringCache := stringCache q; pkgCache := m;
     declData := declData q; pkgIndex := pkgIndex q; typCache := typCache q;
     tparamIndex := tparamIndex q; interfaceList := interfaceList q |}.

Definition set_pkgIndex (q : iimporter) (m : gmap pkgref (gmap string Z))
    : iimporter :=
  {| exportVersion := exportVersion q; ipath := ipath q; version := version q;
     stringData := stringData q; stringCache := stringCache q;
     pkgCache := pkgCache q; declData := declData q; pkgIndex := m;
     typCache := typCache q; tparamIndex := tparamIndex q;
     interfaceList := interfaceList q |}.

Definition set_typCache (q : iimporter) (m : gmap Z Type_) : iimporter :=
  {| exportVersion := exportVersion q; ipath := ipath q; version := version q;
     stringData := stringData q; stringCache := stringCache q;
     pkgCache := pkgCache q; declData := declData q; pkgIndex := pkgIndex q;
     typCache := m; tparamIndex := tparamIndex q;
     interfaceList := interfaceList q |}.

Definition set_tparamIndex (q : iimporter) (m : gmap (string * string) Type_)
    : iimporter :=
  {| exportVersion := exportVersion q; ipath := ipath q; version := version q;
     stringData := stringData q; stringCache := stringCache q;
     pkgCache := pkgCache q; declData := declData q; pkgIndex := pkgIndex q;
     typCache := typCache q; tparamIndex := m;
     interfaceList := interfaceList q |}.

Definition set_interfaceList (q : iimporter) (l : list tref) : iimporter :=
  {| exportVersion := exportVersion q; ipath := ipath q; version := version q;
     stringData := stringData q; stringCache := stringCache q;
     pkgCache := pkgCache q; declData := declData q; pkgIndex := pkgIndex q;
     typCache := typCache q; tparamIndex := tparamIndex q;
     interfaceList := l |}.

(** *** Panics

    [errorf] panics with a formatted message; one constructor stands for
    each format string, with its arguments. *)

Inductive fault : Set :=
| ReadVarintError (path : string) (err : ioError)
    (* "import %q: read varint error: %v" *)
| UnstableVersion (v : Z)
    (* "unstable iexport format version %d, just rebuild compiler and std library" *)
| UnknownVersion (v : Z)         (* "unknown iexport format version %d" *)
| CannotRead (n : Z) (err : ioError)
    (* "cannot read %d bytes of stringData and declData: %s" *)
| ConflictingNames (a b path : string)
    (* "conflicting names %s and %s for package %q" *)
| NotInIndex (pkg : pkgref) (name : string)   (* "%v.%v not in index" *)
| VarintFailed                                 (* "varint failed" *)
| MissingPackage (path ipath : string)         (* "missing package %q in %q" *)
| PredeclaredMissing (off : Z)
    (* "predeclared type missing from cache: %v" *)
| UnexpectedTag (tag : Z)                      (* "unexpected tag: %v" *)
| UnexpectedType (typ : Type_)                 (* "unexpected type %v" *)
| UnexpectedTypeParamType                      (* "unexpected type param type" *)
| UnexpectedInstantiationType                  (* "unexpected instantiation type" *)
| MissingSubscript                             (* "missing subscript" *)
| WeirdDecoding (n : Z) (signed : bool) (v : Z)
    (* "weird decoding: %v, %v => %v" *)
| UnexpectedKind (ipath : string) (k : Z)
    (* "unexpected kind tag in %q: %v" *)
| UnexpectedChanDir (d : Z)                    (* "unexpected channel dir %d" *)
| ReadVarintFailed (err : ioError)             (* "readVarint: %v" *)
| ReadUvarintFailed (err : ioError)            (* "readUvarint: %v" *)
| ReadByteFailed (err : ioError)               (* "declReader.ReadByte: %v" *)
| RuntimeError (msg : string).                 (* a panic of the Go runtime *)

(** *** The reader monad of [importReader] methods

    A method of [*importReader] runs on a reader and the importer state; it
    returns a value, panics, or (in the model only) runs out of fuel. *)

Inductive result (A : Type) : Type :=
| Ok (a : A) (r : importReader) (st : state)
| Panic (e : fault)
| OutOfFuel.
Arguments Ok {A} a r st.
Arguments Panic {A} e.
Arguments OutOfFuel {A}.

Definition M (A : Type) : Type := importReader → state → result A.

Definition ret {A} (a : A) : M A := λ r st, Ok a r st.

Definition bind {A B} (m : M A) (k : A → M B) : M B :=
  λ r st, match m r st with
          | Ok a r' st' => k a r' st'
          | Panic e => Panic e
          | OutOfFuel => OutOfFuel
          end.

Global Instance M_ret : MRet M := @ret.
Global Instance M_bind : MBind M := λ A B k m, bind m k.

Definition errorf {A} (e : fault) : M A := λ _ _, Panic e.
Definition outOfFuel {A} : M A := λ _ _, OutOfFuel.

Definition getState : M state := λ r st, Ok st r st.
Definition getReader : M importReader := λ r st, Ok r r st.
Definition modifyState (f : state → state) : M unit := λ r st, Ok tt r (f st).
Definition modifyP (f : iimporter → iimporter) : M unit :=
  modifyState (λ st, set_p st (f (p st))).
Definition putReader (r' : importReader) : M unit := λ _ st, Ok tt r' st.

(** [body] run [n] times, for a loop whose count was read from the data. *)
Fixpoint repeatM {A} (fuel : nat) (n : Z) (body : M A) : M (list A) :=
  if n <=? 0 then mret []
  else match fuel with
       | O => outOfFuel
       | S fuel' =>
           x ← body;
           xs ← repeatM fuel' (n - 1) body;
           mret (x :: xs)
       end.

(** [make([]T, n)] for a [uint64] count [n]: the conversion to [int] makes
    a count of [2^63] or more negative, and [make] panics.  The limits of
    memory are not part of the model. *)
Definition makeSlice (n : Z) : M unit :=
  if 2 ^ 63 <=? n then errorf (RuntimeError "makeslice: len out of range")
  else mret tt.

(** *** Reading integers *)

Definition int64_ : M Z :=
  λ r st,
    let '(n, err, rest) := ReadVarint (declReader r) in
    match err with
    | Some e => Panic (ReadVarintFailed e)
    | None => Ok n (set_declReader r rest) st
    end.

Definition uint64_ : M Z :=
  λ r st,
    let '(n, err, rest) := ReadUvarint (declReader r) in
    match err with
    | Some e => Panic (ReadUvarintFailed e)
    | None => Ok n (set_declReader r rest) st
    end.

Definition byte_ : M Z :=
  λ r st,
    match declReader r with
    | [] => Panic (ReadByteFailed EOF)
    | x :: rest => Ok (byteZ x) (set_declReader r rest) st
    end.

Definition bool_ : M bool :=
  n ← uint64_; mret (negb (n =? 0)).

(** *** Strings and packages *)

(** [p.stringData] is [data[:sLen]], a slice whose capacity reaches to the
    end of [data]; so the string bytes [stringData[spos : spos+slen]] may
    extend into [declData], which follows it in [data]. *)
Definition stringAt (off : Z) : M string :=
  st ← getState;
  match stringCache (p st) !! off with
  | Some s => mret s
  | None =>
      let sd := stringData (p st) in
      if Z.of_nat (length sd) <? off
      then errorf (RuntimeError "slice bounds out of range") else
      let '(slen, n) := Uvarint (drop (Z.to_nat off) sd) in
      if n <=? 0 then errorf VarintFailed else
      let spos := uint64 (off + n) in
      let hi := uint64 (spos + slen) in
      let data := sd ++ declData (p st) in
      if (hi <? spos) || (Z.of_nat (length data) <? hi)
      then errorf (RuntimeError "slice bounds out of range") else
      let s := string_of_list_byte
                 (take (Z.to_nat slen) (drop (Z.to_nat spos) data)) in
      modifyP (λ q, set_stringCache q (<[off := s]> (stringCache q)));;
      mret s
  end.

Definition pkgAt (off : Z) : M pkgref :=
  st ← getState;
  match pkgCache (p st) !! off with
  | Some pkg => mret pkg
  | None =>
      path ← stringAt off;
      errorf (MissingPackage path (ipath (p st)))
  end.

Definition pkg_ : M pkgref := off ← uint64_; pkgAt off.
Definition string_ : M string := off ← uint64_; stringAt off.
Definition ident_ : M string := string_.

Definition qualifiedIdent : M (pkgref * string) :=
  name ← string_;
  pkg ← pkg_;
  mret (pkg, name).

(** *** Export format constants *)

Definition iexportVersionGo1_11 : Z := 0.
Definition iexportVersionPosCol : Z := 1.
Definition iexportVersionGenerics : Z := iexportVersionPosCol.
Definition iexportVersionCurrent : Z := iexportVersionGenerics.

Definition predeclReserved : Z := 32.

(** [itag] *)
Definition definedType : Z := 0.
Definition pointerType : Z := 1.
Definition sliceType : Z := 2.
Definition arrayType : Z := 3.
Definition chanType : Z := 4.
Definition mapType : Z := 5.
Definition signatureType : Z := 6.
Definition structType : Z := 7.
Definition interfaceType : Z := 8.
Definition typeParamType : Z := 9.
Definition instType : Z := 10.
Definition unionType : Z := 11.

(** *** The type store

    The constructors and setters of [go/types] are outside [iimport.go];
    here they allocate a node or update one in place, which is all the
    importer observes of them.  Their own checks (the arity check of
    [NewSignature], the duplicate test of [AddMethod]) are left out. *)

Definition alloc (n : tnode) : M tref :=
  λ r st, Ok (length (types st)) r (set_types st (types st ++ [n])).

(** A new node as a non-nil [types.Type]. *)
Definition allocT (n : tnode) : M Type_ :=
  t ← alloc n; mret (Some t).

Definition node (st : state) (t : Type_) : option tnode :=
  t ≫= λ ref, types st !! ref.

Definition isInterface (st : state) (t : Type_) : bool :=
  match node st t with
  | Some (Interface _ _ _) => true
  | _ => false
  end.

(** The comma-ok type assertion of [t] to a type parameter: nil unless [t] holds a
    type parameter. *)
Definition asTypeParam (st : state) (t : Type_) : Type_ :=
  match node st t with
  | Some (TypeParam _ _) => t
  | _ => None
  end.

(** Modelled from the spec: the setters of [go/types] ([SetTParams],
    [SetRParams], [SetUnderlying], [AddMethod], [SetConstraint],
    [Complete]), each writing the one field it names; the constructors
    [New...] allocate a node holding their arguments. *)
Definition Named_SetTParams (tparams : list Type_) (n : tnode) : tnode :=
  match n with
  | Named obj u ms _ targs => Named obj u ms tparams targs
  | _ => n
  end.

Definition Named_SetUnderlying (u : Type_) (n : tnode) : tnode :=
  match n with
  | Named obj _ ms tps targs => Named obj u ms tps targs
  | _ => n
  end.

Definition Named_AddMethod (m : Func) (n : tnode) : tnode :=
  match n with
  | Named obj u ms tps targs => Named obj u (ms ++ [m]) tps targs
  | _ => n
  end.

Definition Signature_SetTParams (tparams : list Type_) (n : tnode) : tnode :=
  match n with
  | Signature recv ps rs v _ rps => Signature recv ps rs v tparams rps
  | _ => n
  end.

Definition Signature_SetRParams (rparams : list Type_) (n : tnode) : tnode :=
  match n with
  | Signature recv ps rs v tps _ => Signature recv ps rs v tps rparams
  | _ => n
  end.

Definition TypeParam_SetConstraint (c : Type_) (n : tnode) : tnode :=
  match n with
  | TypeParam obj _ => TypeParam obj c
  | _ => n
  end.

Definition Interface_Complete (n : tnode) : tnode :=
  match n with
  | Interface ms es _ => Interface ms es true
  | _ => n
  end.

Definition update (t : tref) (f : tnode → tnode) : M unit :=
  modifyState (λ st, set_types st (alter f t (types st))).

(** [types.NewTypeName(pos, pkg, name, nil)] followed by
    [types.NewNamed(obj, nil, nil)], which makes the new Named the type of
    [obj]. *)
Definition NewNamedStub (pos : Pos) (pkg : option pkgref) (name : string)
    : M (TypeName * tref) :=
  st ← getState;
  let named := length (types st) in
  let obj := {| tn_pos := pos; tn_pkg := pkg; tn_name := name;
                tn_typ := Some named |} in
  alloc (Named obj None [] [] []);;
  mret (obj, named).

(** [types.NewTypeName(pos, pkg, name, nil)] followed by
    [types.NewTypeParam(tn, nil)]. *)
Definition NewTypeParamStub (pos : Pos) (pkg : option pkgref) (name : string)
    : M tref :=
  st ← getState;
  let t := length (types st) in
  alloc (TypeParam {| tn_pos := pos; tn_pkg := pkg; tn_name := name;
                      tn_typ := Some t |} None).

(** *** Scopes *)

Definition Object_name (o : Object) : string :=
  match o with
  | ConstObj _ _ name _ _ => name
  | VarObj v => v_name v
  | FuncObj f => f_name f
  | TypeNameObj tn => tn_name tn
  end.

Definition Object_pkg (o : Object) : option pkgref :=
  match o with
  | ConstObj _ pkg _ _ _ => pkg
  | VarObj v => v_pkg v
  | FuncObj f => f_pkg f
  | TypeNameObj tn => tn_pkg tn
  end.

(** [pkg.Scope().Lookup(name)] *)
Definition Lookup (st : state) (pkg : pkgref) (name : string) : option Object :=
  packages st !! pkg ≫= λ pk, pkg_scope pk !! name.

(** Modelled from the spec: [Scope.Insert], which leaves the scope as it
    is when the name is already declared in it. *)
Definition Scope_Insert (o : Object) (pk : Package) : Package :=
  match pkg_scope pk !! Object_name o with
  | Some _ => pk
  | None =>
      {| pkg_path := pkg_path pk; pkg_name := pkg_name pk;
         pkg_scope := <[Object_name o := o]> (pkg_scope pk);
         pkg_imports := pkg_imports pk; pkg_complete := pkg_complete pk |}
  end.

(** [r.declare(obj)]: [obj.Pkg().Scope().Insert(obj)] *)
Definition declare (o : Object) : M unit :=
  match Object_pkg o with
  | None => errorf (RuntimeError "nil pointer dereference")
  | Some pkg =>
      modifyState (λ st, set_packages st (alter (Scope_Insert o) pkg (packages st)))
  end.

(** [pkg.Name()] on a possibly nil package *)
Definition Package_Name (pkg : option pkgref) : M string :=
  st ← getState;
  match pkg ≫= λ i, packages st !! i with
  | Some pk => mret (pkg_name pk)
  | None => errorf (RuntimeError "nil pointer dereference")
  end.

(** *** [parseSubscript] *)

Definition RuneError : Z := 0xFFFD.

(** Modelled from the spec: the decoding of one UTF-8 sequence made by a
    [range] over a string; it yields the rune and its width in bytes, and
    [RuneError] with width 1 for a byte that starts no valid sequence. *)
Definition DecodeRune (s : list byte) : Z * Z :=
  let cont b := (0x80 <=? b) && (b <=? 0xBF) in
  match map byteZ s with
  | [] => (RuneError, 0)
  | s0 :: rest =>
      if s0 <? 0x80 then (s0, 1)
      else if (s0 <? 0xC2) || (0xF4 <? s0) then (RuneError, 1)
      else
        let sz := if s0 <? 0xE0 then 2 else if s0 <? 0xF0 then 3 else 4 in
        let lo := if s0 =? 0xE0 then 0xA0 else if s0 =? 0xF0 then 0x90 else 0x80 in
        let hi := if s0 =? 0xED then 0x9F else if s0 =? 0xF4 then 0x8F else 0xBF in
        if Z.of_nat (length s) <? sz then (RuneError, 1) else
        match rest with
        | [] => (RuneError, 1)
        | s1 :: rest =>
            if (s1 <? lo) || (hi <? s1) then (RuneError, 1)
            else if sz <=? 2
            then (Z.lor (Z.shiftl (Z.land s0 0x1F) 6) (Z.land s1 0x3F), 2)
            else match rest with
                 | [] => (RuneError, 1)
                 | s2 :: rest =>
                     if negb (cont s2) then (RuneError, 1)
                     else if sz <=? 3
                     then (Z.lor (Z.shiftl (Z.land s0 0x0F) 12)
                             (Z.lor (Z.shiftl (Z.land s1 0x3F) 6)
                                (Z.land s2 0x3F)), 3)
                     else match rest with
                          | [] => (RuneError, 1)
                          | s3 :: _ =>
                              if negb (cont s3) then (RuneError, 1)
                              else (Z.lor (Z.shiftl (Z.land s0 0x07) 18)
                                      (Z.lor (Z.shiftl (Z.land s1 0x3F) 12)
                                         (Z.lor (Z.shiftl (Z.land s2 0x3F) 6)
                                            (Z.land s3 0x3F))), 4)
                          end
                 end
        end
  end.

(** The runes of a string with the byte index each starts at, as
    [for i, r := range name] yields them.  [n] bounds the number of runes
    by the number of bytes. *)
Fixpoint runes_from (n : nat) (i : Z) (s : list byte) : list (Z * Z) :=
  match n, s with
  | S n', _ :: _ =>
      let '(r, w) := DecodeRune s in
      (i, r) :: runes_from n' (i + w) (drop (Z.to_nat w) s)
  | _, _ => []
  end.

Definition runes (name : string) : list (Z * Z) :=
  let s := list_byte_of_string name in
  runes_from (length s) 0 s.

(** The rune of the subscript digit zero, U+2080. *)
Definition sub0 : Z := 0x2080.

Definition isSubscriptDigit (r : Z) : bool := (sub0 <=? r) && (r <? sub0 + 10).

(** One iteration of the loop of [parseSubscript] on the pair
    [(sub, startsub)]. *)
Definition parseSubscript_step (acc : Z * Z) (ir : Z * Z) : Z * Z :=
  let '(sub, startsub) := acc in
  let '(i, r) := ir in
  if isSubscriptDigit r
  then (uint64 (sub * 10 + uint64 (r - sub0)),
        if startsub =? -1 then i else startsub)
  else (sub, startsub).

Definition parseSubscript (name : string) : string * Z :=
  let '(sub, startsub) := fold_left parseSubscript_step (runes name) (0, -1) in
  let name :=
    if 0 <=? startsub
    then string_of_list_byte (take (Z.to_nat startsub) (list_byte_of_string name))
    else name in
  (name, sub).

(** *** Constant values: [intSize], [mpint], [mpfloat] *)

Definition intSize (b : Basic) : bool * Z :=
  if negb (Z.land (Info b) IsUntyped =? 0) then (true, 64)
  else
    match Kind b with
    | Float32 | Complex64 => (true, 3)
    | Float64 | Complex128 => (true, 7)
    | k =>
        let signed := Z.land (Info b) IsUnsigned =? 0 in
        let maxBytes :=
          match k with
          | Int8 | Uint8 => 1
          | Int16 | Uint16 => 2
          | Int32 | Uint32 => 4
          | _ => 8
          end in
        (signed, maxBytes)
    end.

(** The threshold [maxSmall] computed at the head of [mpint]. *)
Definition maxSmall (signed : bool) (maxBytes : Z) : Z :=
  let maxSmall := 256 - maxBytes in
  let maxSmall := if signed then 256 - 2 * maxBytes else maxSmall in
  if maxBytes =? 1 then 256 else maxSmall.

(** The value of one-byte encodings, the branch [uint(n) < maxSmall]. *)
Definition mpint_small (signed : bool) (n : Z) : Z :=
  let v := int64 n in
  if signed then
    let v := Z.shiftr v 1 in
    if Z.land n 1 =? 0 then v else Z.lnot v
  else v.

(** [big.Int.SetBytes]: the big-endian unsigned value of a byte slice. *)
Definition SetBytes (b : list byte) : Z :=
  fold_left (λ acc x, acc * 256 + byteZ x) b 0.

(** [r.mpint(x, typ)], returning the value left in [x].  Both reads ignore
    their error: [ReadByte] yields 0 at the end of the data, and
    [io.ReadFull] leaves the bytes it could not read at 0. *)
Definition mpint (typ : Basic) : M Z :=
  let '(signed, maxBytes) := intSize typ in
  let maxSmall := maxSmall signed maxBytes in
  r ← getReader;
  let '(n, rest) :=
    match declReader r with
    | [] => (0, [])
    | x :: rest => (byteZ x, rest)
    end in
  putReader (set_declReader r rest);;
  if n <? maxSmall then mret (mpint_small signed n)
  else
    let v := uint8 (- n) in
    let v := if signed then Z.shiftr (uint8 (- Z.ldiff n 1)) 1 else v in
    if (v <? 1) || (maxBytes <? v) then errorf (WeirdDecoding n signed v)
    else
      let got := take (Z.to_nat v) rest in
      let b := got ++ replicate (Z.to_nat v - length got)%nat x00 in
      putReader (set_declReader r (drop (Z.to_nat v) rest));;
      let x := SetBytes b in
      mret (if signed && negb (Z.land n 1 =? 0) then - x else x).

(** Modelled from the spec: [big.Float.SetMantExp], whose value is
    [mant × 2^exp]; the exponent range of [big.Float] is not part of the
    model. *)
Definition SetMantExp (mant : Q) (exp : Z) : Q :=
  (mant * Qpower 2 exp)%Q.

Definition mpfloat (typ : Basic) : M constVal :=
  mant ← mpint typ;
  let f := inject_Z mant in
  if negb (mant =? 0) then
    exp ← int64_;
    mret (floatVal (SetMantExp f exp))
  else mret (floatVal f).

(** *** The recursive readers

    [doDecl] and [typAt] are reached from every reader and reach every
    reader.  The readers are written over a record of the two, and the knot
    is tied below, on a fuel that bounds the depth of calls. *)

Record Rec : Type := {
  rec_doDecl : pkgref → string → M unit;
  rec_typAt : Z → option tref → M Type_
}.

(** [m] run on a fresh reader, as a method of [*iimporter] does; the
    caller's reader is left as it was. *)
Definition withReader {A} (r' : importReader) (m : M A) : M A :=
  λ r st, match m r' st with
          | Ok a _ st' => Ok a r st'
          | Panic e => Panic e
          | OutOfFuel => OutOfFuel
          end.

(** Declared outside [iimport.go]: the constant [deltaNewFile], the
    helper [chanDir] and the table [predeclared] of the importer, and
    [Underlying] and [Instantiate] of [go/types].  [chanDir] yields nothing
    where it reports an unexpected direction, [Instantiate] where it
    panics. *)
Record Env : Type := {
  deltaNewFile : Z;
  chanDir : Z → option ChanDir;
  predeclared : list Type_;
  Underlying : list tnode → tref → Type_;
  Instantiate : list tnode → Type_ → list Type_ → option (list tnode * Type_)
}.

Section ImportData.

Variable env : Env.

Section Readers.

Variable fuel : nat.
Variable rec : Rec.

(** [t.Underlying()] on an interface value that may be nil *)
Definition Underlying_ (t : Type_) : M Type_ :=
  match t with
  | None => errorf (RuntimeError "nil pointer dereference")
  | Some ref => st ← getState; mret (Underlying env (types st) ref)
  end.

Definition posv0 : M unit :=
  delta ← int64_;
  if negb (delta =? deltaNewFile env) then
    r ← getReader;
    putReader (set_prev r (prevFile r) (int64 (prevLine r + delta)) (prevColumn r))
  else
    l ← int64_;
    if l =? -1 then
      r ← getReader;
      putReader (set_prev r (prevFile r) (int64 (prevLine r + deltaNewFile env))
                   (prevColumn r))
    else
      f ← string_;
      r ← getReader;
      putReader (set_prev r f l (prevColumn r)).

Definition posv1 : M unit :=
  delta ← int64_;
  r ← getReader;
  putReader (set_prev r (prevFile r) (prevLine r)
               (int64 (prevColumn r + Z.shiftr delta 1)));;
  if negb (Z.land delta 1 =? 0) then
    delta ← int64_;
    r ← getReader;
    putReader (set_prev r (prevFile r) (int64 (prevLine r + Z.shiftr delta 1))
                 (prevColumn r));;
    if negb (Z.land delta 1 =? 0) then
      f ← string_;
      r ← getReader;
      putReader (set_prev r f (prevLine r) (prevColumn r))
    else mret tt
  else mret tt.

Definition pos : M Pos :=
  st ← getState;
  (if 1 <=? version (p st) then posv1 else posv0);;
  r ← getReader;
  if String.eqb (prevFile r) "" && (prevLine r =? 0) && (prevColumn r =? 0)
  then mret NoPos
  else mret (FakePos (prevFile r) (prevLine r) (prevColumn r)).

Definition typ : M Type_ :=
  off ← uint64_;
  rec_typAt rec off None.

Definition param : M Var :=
  pos ← pos;
  name ← ident_;
  typ ← typ;
  r ← getReader;
  mret {| v_pos := pos; v_pkg := currPkg r; v_name := name; v_typ := typ;
          v_embedded := false; v_isField := false |}.

Definition paramList : M (list Var) :=
  n ← uint64_;
  makeSlice n;;
  repeatM fuel n param.

Definition signature (recv : option Var) : M tref :=
  params ← paramList;
  results ← paramList;
  variadic ← (if 0 <? Z.of_nat (length params) then bool_ else mret false);
  alloc (Signature recv params results variadic [] []).

Definition tparamList : M (list Type_) :=
  n ← uint64_;
  if n =? 0 then mret []
  else
    makeSlice n;;
    repeatM fuel n (t ← typ; st ← getState; mret (asTypeParam st t)).

(** [r.value()] *)
Definition value : M (Type_ * constVal) :=
  typ ← typ;
  u ← Underlying_ typ;
  st ← getState;
  match node st u with
  | Some (BasicT b) =>
      let k := Z.land (Info b) IsConstType in
      if k =? IsBoolean then
        x ← bool_; mret (typ, boolVal x)
      else if k =? IsString then
        x ← string_; mret (typ, stringVal x)
      else if k =? IsInteger then
        x ← mpint b; mret (typ, intVal x)
      else if k =? IsFloat then
        x ← mpfloat b; mret (typ, x)
      else if k =? IsComplex then
        re ← mpfloat b;
        im ← mpfloat b;
        match re, im with
        | floatVal re, floatVal im => mret (typ, complexVal re im)
        | _, _ => mret (typ, unknownVal)
        end
      else errorf (UnexpectedType typ)
  | _ => errorf (RuntimeError "interface conversion: not a *types.Basic")
  end.

(** [types.Instantiate(nil, baseType, targs, false)], whose error result
    the importer drops *)
Definition Instantiate_ (baseType : Type_) (targs : list Type_) : M Type_ :=
  λ r st,
    match Instantiate env (types st) baseType targs with
    | None => Panic (RuntimeError "types.Instantiate")
    | Some (h, t) => Ok t r (set_types st h)
    end.

(** [baseType]: the receiver base type, through one pointer *)
Definition baseType (st : state) (typ : Type_) : option tref :=
  let typ :=
    match node st typ with
    | Some (Pointer elem) => elem
    | _ => typ
    end in
  match typ, node st typ with
  | Some ref, Some (Named _ _ _ _ _) => Some ref
  | _, _ => None
  end.

(** One field of a struct type. *)
Definition field : M (Var * string) :=
  fpos ← pos;
  fname ← ident_;
  ftyp ← typ;
  emb ← bool_;
  tag ← string_;
  r ← getReader;
  mret ({| v_pos := fpos; v_pkg := currPkg r; v_name := fname; v_typ := ftyp;
           v_embedded := emb; v_isField := true |}, tag).

(** One method of an interface type. *)
Definition interfaceMethod (base : option tref) : M Func :=
  mpos ← pos;
  mname ← ident_;
  r ← getReader;
  let recv :=
    match base with
    | Some b =>
        Some {| v_pos := NoPos; v_pkg := currPkg r; v_name := "";
                v_typ := Some b; v_embedded := false; v_isField := false |}
    | None => None
    end in
  msig ← signature recv;
  r ← getReader;
  mret {| f_pos := mpos; f_pkg := currPkg r; f_name := mname;
          f_typ := Some msig |}.

Definition doType (base : option tref) : M Type_ :=
  k ← uint64_;                                    (* r.kind() *)
  if k =? definedType then
    '(pkg, name) ← qualifiedIdent;
    rec_doDecl rec pkg name;;
    st ← getState;
    match Lookup st pkg name with
    | Some (TypeNameObj tn) => mret (tn_typ tn)
    | _ => errorf (RuntimeError "interface conversion: not a *types.TypeName")
    end
  else if k =? pointerType then
    elem ← typ; allocT (Pointer elem)
  else if k =? sliceType then
    elem ← typ; allocT (Slice elem)
  else if k =? arrayType then
    n ← uint64_;
    elem ← typ;
    allocT (Array elem (int64 n))
  else if k =? chanType then
    d ← uint64_;
    match chanDir env (int64 d) with
    | None => errorf (UnexpectedChanDir (int64 d))
    | Some dir => elem ← typ; allocT (Chan dir elem)
    end
  else if k =? mapType then
    key ← typ;
    elem ← typ;
    allocT (Map key elem)
  else if k =? signatureType then
    pkg ← pkg_;
    r ← getReader;
    putReader (set_currPkg r (Some pkg));;
    sig ← signature None; mret (Some sig)
  else if k =? structType then
    pkg ← pkg_;
    r ← getReader;
    putReader (set_currPkg r (Some pkg));;
    n ← uint64_;
    makeSlice n;;
    fts ← repeatM fuel n field;
    allocT (Struct (fts.*1) (fts.*2))
  else if k =? interfaceType then
    pkg ← pkg_;
    r ← getReader;
    putReader (set_currPkg r (Some pkg));;
    ne ← uint64_;
    makeSlice ne;;
    embeddeds ← repeatM fuel ne (pos;; typ);
    nm ← uint64_;
    makeSlice nm;;
    methods ← repeatM fuel nm (interfaceMethod base);
    t ← alloc (Interface methods embeddeds false);
    modifyP (λ q, set_interfaceList q (interfaceList q ++ [t]));;
    mret (Some t)
  else if k =? typeParamType then
    st ← getState;
    if exportVersion (p st) <? iexportVersionGenerics
    then errorf UnexpectedTypeParamType else
    '(pkg, name) ← qualifiedIdent;
    pkgName ← Package_Name (Some pkg);
    let id := (pkgName, name) in
    st ← getState;
    match tparamIndex (p st) !! id with
    | Some t => mret t
    | None =>
        rec_doDecl rec pkg name;;
        st ← getState;
        mret (default None (tparamIndex (p st) !! id))
    end
  else if k =? instType then
    st ← getState;
    if exportVersion (p st) <? iexportVersionGenerics
    then errorf UnexpectedInstantiationType else
    pos;;
    len ← uint64_;
    makeSlice len;;
    targs ← repeatM fuel len typ;
    baseType ← typ;
    Instantiate_ baseType targs
  else if k =? unionType then
    st ← getState;
    if exportVersion (p st) <? iexportVersionGenerics
    then errorf UnexpectedInstantiationType else
    n ← uint64_;
    makeSlice n;;
    terms ← repeatM fuel n (tilde ← bool_; t ← typ; mret (tilde, t));
    allocT (Union terms)
  else
    st ← getState;
    errorf (UnexpectedKind (ipath (p st)) k).

(** The part of [typAt] after the cache lookup: decode at [off] on a new
    reader. *)
Definition typAt_decode (off : Z) (base : option tref) : M Type_ :=
  if off <? predeclReserved then errorf (PredeclaredMissing off) else
  st ← getState;
  let dd := declData (p st) in
  if Z.of_nat (length dd) <? off - predeclReserved
  then errorf (RuntimeError "slice bounds out of range") else
  withReader (newReader None (drop (Z.to_nat (off - predeclReserved)) dd))
    (doType base).

(** The path of [typAt] that decodes: the type is stored in the cache
    unless it is an interface read for a [base]. *)
Definition typAt_miss (off : Z) (base : option tref) : M Type_ :=
  t ← typAt_decode off base;
  st ← getState;
  (if bool_decide (base = None) || negb (isInterface st t)
   then modifyP (λ q, set_typCache q (<[off := t]> (typCache q)))
   else mret tt);;
  mret t.

Definition typAt_body (off : Z) (base : option tref) : M Type_ :=
  st ← getState;
  match typCache (p st) !! off with
  | Some t =>
      if bool_decide (base = None) || negb (isInterface st t) then mret t
      else typAt_miss off base
  | None => typAt_miss off base
  end.

(** One method of a declared type, read and attached to [named]. *)
Definition namedMethod (named : tref) : M unit :=
  mpos ← pos;
  mname ← ident_;
  recv ← param;
  msig ← signature (Some recv);
  st ← getState;
  match baseType st (v_typ recv) ≫= λ b, types st !! b with
  | Some (Named _ _ _ _ targs) =>
      (if 0 <? Z.of_nat (length targs)
       then update msig (Signature_SetRParams (asTypeParam st <$> targs))
       else mret tt);;
      r ← getReader;
      update named
        (Named_AddMethod {| f_pos := mpos; f_pkg := currPkg r; f_name := mname;
                            f_typ := Some msig |})
  | _ => errorf (RuntimeError "nil pointer dereference")
  end.

(** The type declaration of [obj], tags ['T'] and ['U'], in two parts:
    the stub, up to [r.declare(obj)], and the body read after it. *)
Definition declareStub (tparams : list Type_) (pos : Pos) (name : string)
    : M tref :=
  r ← getReader;
  '(obj, named) ← NewNamedStub pos (currPkg r) name;
  update named (Named_SetTParams tparams);;
  declare (TypeNameObj obj);;
  mret named.

Definition obj_typeStub (tag : Z) (pos : Pos) (name : string) : M tref :=
  tparams ← (if tag =? 85 then tparamList else mret []);
  declareStub tparams pos name.

Definition obj_typeBody (named : tref) : M unit :=
  off ← uint64_;
  t ← rec_typAt rec off (Some named);
  underlying ← Underlying_ t;
  update named (Named_SetUnderlying underlying);;
  st ← getState;
  if negb (isInterface st underlying) then
    n ← uint64_;
    repeatM fuel n (namedMethod named);;
    mret tt
  else mret tt.

(** The type-parameter declaration of [obj], tag ['P']. *)
Definition obj_typeParam (pos : Pos) (name : string) : M unit :=
  st ← getState;
  if exportVersion (p st) <? iexportVersionGenerics
  then errorf UnexpectedTypeParamType else
  let '(name0, sub) := parseSubscript name in
  r ← getReader;
  t ← NewTypeParamStub pos (currPkg r) name0;
  if sub =? 0 then errorf MissingSubscript else
  pkgName ← Package_Name (currPkg r);
  let id := (pkgName, name) in
  modifyP (λ q, set_tparamIndex q (<[id := Some t]> (tparamIndex q)));;
  c ← typ;
  update t (TypeParam_SetConstraint c).

Definition obj (name : string) : M unit :=
  tag ← byte_;
  pos ← pos;
  if tag =? 65 then                                         (* 'A' *)
    typ ← typ;
    r ← getReader;
    declare (TypeNameObj {| tn_pos := pos; tn_pkg := currPkg r;
                            tn_name := name; tn_typ := typ |})
  else if tag =? 67 then                                    (* 'C' *)
    '(typ, val) ← value;
    r ← getReader;
    declare (ConstObj pos (currPkg r) name typ val)
  else if (tag =? 70) || (tag =? 71) then                   (* 'F', 'G' *)
    tparams ← (if tag =? 71 then tparamList else mret []);
    sig ← signature None;
    update sig (Signature_SetTParams tparams);;
    r ← getReader;
    declare (FuncObj {| f_pos := pos; f_pkg := currPkg r; f_name := name;
                        f_typ := Some sig |})
  else if (tag =? 84) || (tag =? 85) then                   (* 'T', 'U' *)
    named ← obj_typeStub tag pos name;
    obj_typeBody named
  else if tag =? 80 then                                    (* 'P' *)
    obj_typeParam pos name
  else if tag =? 86 then                                    (* 'V' *)
    typ ← typ;
    r ← getReader;
    declare (VarObj {| v_pos := pos; v_pkg := currPkg r; v_name := name;
                       v_typ := typ; v_embedded := false; v_isField := false |})
  else errorf (UnexpectedTag tag).

Definition doDecl_body (pkg : pkgref) (name : string) : M unit :=
  st ← getState;
  match Lookup st pkg name with
  | Some _ => mret tt     (* already imported *)
  | None =>
      match pkgIndex (p st) !! pkg ≫= λ idx, idx !! name with
      | None => errorf (NotInIndex pkg name)
      | Some off =>
          let dd := declData (p st) in
          if Z.of_nat (length dd) <? off
          then errorf (RuntimeError "slice bounds out of range") else
          withReader (newReader (Some pkg) (drop (Z.to_nat off) dd)) (obj name)
      end
  end.

End Readers.

(** *** Tying the knot *)

Fixpoint run (fuel : nat) : Rec :=
  match fuel with
  | O => {| rec_doDecl := λ _ _, outOfFuel; rec_typAt := λ _ _, outOfFuel |}
  | S fuel' =>
      {| rec_doDecl := doDecl_body fuel' (run fuel');
         rec_typAt := typAt_body fuel' (run fuel') |}
  end.

Definition doDecl (fuel : nat) : pkgref → string → M unit :=
  rec_doDecl (run fuel).

Definition typAt (fuel : nat) : Z → option tref → M Type_ :=
  rec_typAt (run fuel).

(** *** [iImportData] *)

(** [intReader.uint64], on the stream of the export data; the stream is
    kept in the [declReader] field of the reader the monad threads. *)
Definition intReader_uint64 (path : string) : M Z :=
  λ r st,
    let '(i, err, rest) := ReadUvarint (declReader r) in
    match err with
    | Some e => Panic (ReadVarintError path e)
    | None => Ok i (set_declReader r rest) st
    end.

Definition sequenceM_ {A} (f : A → M unit) (l : list A) : M unit :=
  foldr (λ a k, f a;; k) (mret tt) l.

(** Modelled from the spec: [types.NewPackage], a package with an empty
    scope. *)
Definition NewPackage (path name : string) : M pkgref :=
  λ r st,
    Ok (length (packages st)) r
      (set_packages st
         (packages st ++ [{| pkg_path := path; pkg_name := name;
                             pkg_scope := ∅; pkg_imports := [];
                             pkg_complete := false |}])).

(** One iteration of the loop over [pkgList]. *)
Definition pkgEntry (fuel : nat) (path : string) : M pkgref :=
  pkgPathOff ← intReader_uint64 path;
  pkgPath ← stringAt pkgPathOff;
  nameOff ← intReader_uint64 path;
  pkgName ← stringAt nameOff;
  intReader_uint64 path;;                             (* package height *)
  let pkgPath := if String.eqb pkgPath "" then path else pkgPath in
  st ← getState;
  pkg ← match imports st !! pkgPath with
        | None =>
            pkg ← NewPackage pkgPath pkgName;
            modifyState (λ st, set_imports st (<[pkgPath := pkg]> (imports st)));;
            mret pkg
        | Some pkg =>
            name ← Package_Name (Some pkg);
            if negb (String.eqb name pkgName)
            then errorf (ConflictingNames name pkgName path)
            else mret pkg
        end;
  modifyP (λ q, set_pkgCache q (<[pkgPathOff := pkg]> (pkgCache q)));;
  nSyms ← intReader_uint64 path;
  syms ← repeatM fuel nSyms
           (nameOff ← intReader_uint64 path;
            name ← stringAt nameOff;
            off ← intReader_uint64 path;
            mret (name, off));
  let nameIndex := foldl (λ m '(name, off), <[name := off]> m) ∅ syms in
  modifyP (λ q, set_pkgIndex q (<[pkg := nameIndex]> (pkgIndex q)));;
  mret pkg.

(** [sort.Strings]: ascending byte-wise order. *)
Definition string_le (a b : string) : Prop := String.leb a b = true.

Global Instance string_le_dec a b : Decision (string_le a b).
Proof. unfold string_le. apply _. Defined.

Definition sortStrings (l : list string) : list string :=
  merge_sort string_le l.

(** [sort.Sort(byPath(list))].  Packages of equal path keep the order they
    had. *)
Definition sortByPath (st : state) (l : list pkgref) : list pkgref :=
  let path i := default ""%string (pkg_path <$> packages st !! i) in
  merge_sort (λ a b, string_le (path a) (path b)) l.

Definition Package_finish (list : list pkgref) (pk : Package) : Package :=
  {| pkg_path := pkg_path pk; pkg_name := pkg_name pk;
     pkg_scope := pkg_scope pk; pkg_imports := list; pkg_complete := true |}.

(** [iImportData] from the point where [version] is known to be
    supported. *)
Definition importBody (fuel : nat) (version : Z) (path : string) : M pkgref :=
  sLen ← intReader_uint64 path;
  dLen ← intReader_uint64 path;
  let sLen := int64 sLen in
  let dLen := int64 dLen in
  let n := int64 (sLen + dLen) in
  if n <? 0 then errorf (RuntimeError "makeslice: len out of range") else
  r ← getReader;
  let stream := declReader r in
  if Z.of_nat (length stream) <? n then
    errorf (CannotRead n (match stream with [] => EOF | _ => ErrUnexpectedEOF end))
  else
  let data := take (Z.to_nat n) stream in
  putReader (set_declReader r (drop (Z.to_nat n) stream));;
  if (sLen <? 0) || (n <? sLen)
  then errorf (RuntimeError "slice bounds out of range") else
  let typCache0 :=
    foldl (λ m '(i, pt), <[Z.of_nat i := pt]> m) ∅ (imap pair (predeclared env)) in
  modifyState (λ st, set_p st
    {| exportVersion := version; ipath := path; version := version;
       stringData := take (Z.to_nat sLen) data; stringCache := ∅;
       pkgCache := ∅;
       declData := drop (Z.to_nat sLen) data; pkgIndex := ∅;
       typCache := typCache0; tparamIndex := ∅; interfaceList := [] |});;
  nPkgs ← intReader_uint64 path;
  makeSlice nPkgs;;
  pkgList ← repeatM fuel nPkgs (pkgEntry fuel path);
  match pkgList with
  | [] => errorf (RuntimeError "index out of range")
  | localpkg :: others =>
      st ← getState;
      let names :=
        sortStrings (map_to_list (default ∅ (pkgIndex (p st) !! localpkg))).*1 in
      sequenceM_ (doDecl fuel localpkg) names;;
      st ← getState;
      sequenceM_ (λ typ, update typ Interface_Complete) (interfaceList (p st));;
      modifyState (λ st,
        set_packages st
          (alter (Package_finish (sortByPath st others)) localpkg (packages st)));;
      mret localpkg
  end.

Inductive importError : Set :=
| NewerVersion (path : string) (e : fault)
    (* "cannot import %q (%v), export data is newer version - update tool" *)
| VersionSkew (path : string) (e : fault).
    (* "cannot import %q (%v), possibly version skew - reinstall package" *)

Inductive imported : Type :=
| Imported (pkg : pkgref) (st : state)
| ImportFailed (err : importError)
| ImportOutOfFuel.

(** The deferred function of [iImportData]: what a recovered panic becomes,
    given the value [version] has at that moment. *)
Definition recovered (version : Z) (path : string) (e : fault) : importError :=
  if iexportVersionCurrent <? version
  then NewerVersion path e
  else VersionSkew path e.

Definition iImportData (fuel : nat) (types0 : list tnode)
    (packages0 : list Package) (imports0 : gmap string pkgref)
    (dataReader : list byte) (path : string) : imported :=
  let version := -1 in
  let '(v, err, rest) := ReadUvarint dataReader in
  match err with
  | Some e => ImportFailed (recovered version path (ReadVarintError path e))
  | None =>
      let version := int64 v in
      if (version =? iexportVersionPosCol) || (version =? iexportVersionGo1_11)
      then
        let st0 :=
          {| p := {| exportVersion := version; ipath := path; version := version;
                     stringData := []; stringCache := ∅; pkgCache := ∅;
                     declData := []; pkgIndex := ∅; typCache := ∅;
                     tparamIndex := ∅; interfaceList := [] |};
             types := types0; packages := packages0; imports := imports0 |} in
        match importBody fuel version path (newReader None rest) st0 with
        | Ok pkg _ st => Imported pkg st
        | Panic e => ImportFailed (recovered version path e)
        | OutOfFuel => ImportOutOfFuel
        end
      else if iexportVersionGenerics <? version
      then ImportFailed (recovered version path (UnstableVersion version))
      else ImportFailed (recovered version path (UnknownVersion version))
  end.

End ImportData.

End Importer.

(* ===================================================================== *)
(** ** Stating the properties of the declaration checker *)
(* ===================================================================== *)

Module CheckerSpec.
Import Checker.

(** The classification of a cycle, as the specification words it: the
    values of a cycle are its constants and variables, its definitions are
    its type names that are not aliases. *)
Definition isValue (obj : Object) : bool :=
  match obj_kind obj with
  | Const | Var => true
  | _ => false
  end.

(** Alias or not: by the assign token of the declaration for an object of
    the object map, by [IsAlias] for a local one. *)
Definition isAliasName (IsAlias : Checker → Object → bool) (check : Checker)
    (obj : Object) : bool :=
  match objMap check !! obj_id obj with
  | Some d =>
      match tdecl d with
      | Some td => IsValid (Assign td)
      | None => false
      end
  | None => IsAlias check obj
  end.

Definition isDefinition (IsAlias : Checker → Object → bool) (check : Checker)
    (obj : Object) : bool :=
  match obj_kind obj with
  | TypeName => negb (isAliasName IsAlias check obj)
  | _ => false
  end.

Definition nvalOf (cycle : list Object) : nat :=
  length (filter (λ o, isValue o = true) cycle).

Definition ndefOf (IsAlias : Checker → Object → bool) (check : Checker)
    (cycle : list Object) : nat :=
  length (filter (λ o, isDefinition IsAlias check o = true) cycle).

(** The objects a cycle can hold: constants, variables, type names and
    functions, a type name of the object map having its [tdecl]. *)
Definition cycleObject (check : Checker) (obj : Object) : Prop :=
  match obj_kind obj with
  | Const | Var | Func => True
  | TypeName =>
      ∀ d, objMap check !! obj_id obj = Some d → is_Some (tdecl d)
  | _ => False
  end.

(** [check'] is [check] with [reports] added to the error sink. *)
Definition reported (check check' : Checker) (reports : list report) : Prop :=
  pkg_scope check' = pkg_scope check ∧ objMap check' = objMap check ∧
  objPath check' = objPath check ∧ color_ check' = color_ check ∧
  typ check' = typ check ∧ ctxt check' = ctxt check ∧
  errors check' = errors check ++ reports.

(** The variable [last] of [walkDecl] after the loop has run over [pre]. *)
Definition lastAfter (Tok : Token) (last : option ValueSpec) (pre : list Spec)
    : option ValueSpec :=
  foldl (λ last sp,
           match sp, Tok with
           | ValueSpec_ s, CONST =>
               if hasTypeOrValues s then Some s
               else Some (default emptyValueSpec last)
           | _, _ => last
           end) last pre.

(** *** Inputs of the examples *)

(** The alias [type X = X]: its name, grey at index 0 of the object
    path. *)
Definition aliasX : Object :=
  {| obj_id := 0; obj_kind := TypeName; obj_name := "X"; obj_pos := 10%Z;
     obj_parent := Some 0 |}.

Definition aliasCheck : Checker :=
  {| pkg_scope := 0;
     objMap := {[ 0 := {| file := None; inherited := false;
                          tdecl := Some {| ts_Name := "X"; Assign := 12%Z |};
                          fdecl := None |} ]};
     objPath := [aliasX];
     color_ := {[ 0 := grey ]};
     typ := ∅;
     ctxt := {| ctx_decl := None; ctx_scope := None |};
     errors := [] |}.

(** The constant of [const c = c], grey at index 0, its type not yet
    known. *)
Definition constC : Object :=
  {| obj_id := 0; obj_kind := Const; obj_name := "c"; obj_pos := 7%Z;
     obj_parent := Some 0 |}.

Definition constCheck : Checker :=
  {| pkg_scope := 0;
     objMap := {[ 0 := {| file := None; inherited := false; tdecl := None;
                          fdecl := None |} ]};
     objPath := [constC];
     color_ := {[ 0 := grey ]};
     typ := ∅;
     ctxt := {| ctx_decl := None; ctx_scope := None |};
     errors := [] |}.

(** The block [const (a int = 1; b; c)]. *)
Definition specA : ValueSpec :=
  {| vs_Names := ["a"%string]; vs_Type := Some 0; vs_Values := [1] |}.
Definition specB : ValueSpec :=
  {| vs_Names := ["b"%string]; vs_Type := None; vs_Values := [] |}.
Definition specC : ValueSpec :=
  {| vs_Names := ["c"%string]; vs_Type := None; vs_Values := [] |}.

End CheckerSpec.

(* ===================================================================== *)
(** ** Stating the properties of the indexed importer *)
(* ===================================================================== *)

Module ImporterSpec.
Import Importer.

Local Open Scope Z_scope.

(** *** Inputs of the examples: empty importers and basic types *)

(** An importer of the given version over empty data. *)
Definition emptyImporter (version : Z) : iimporter :=
  {| exportVersion := version; ipath := "p"; version := version;
     stringData := []; stringCache := ∅; pkgCache := ∅; declData := [];
     pkgIndex := ∅; typCache := ∅; tparamIndex := ∅; interfaceList := [] |}.

Definition emptyState (version : Z) : state :=
  {| p := emptyImporter version; types := []; packages := []; imports := ∅ |}.

(** Three basic types of [go/types]. *)
Definition untypedInt : Basic :=
  {| Kind := UntypedInt; Info := Z.lor IsInteger IsUntyped; Name := "untyped int" |}.
Definition int64T : Basic :=
  {| Kind := Int64; Info := IsInteger; Name := "int64" |}.
Definition float64T : Basic :=
  {| Kind := Float64; Info := IsFloat; Name := "float64" |}.

(** The state a run ends in. *)
Definition stateOf {A} (res : result A) (st0 : state) : state :=
  match res with
  | Ok _ _ st => st
  | _ => st0
  end.

(** An [Underlying] for the examples: the underlying type stored in a
    Named, the type itself otherwise; nil where the store holds no proper
    underlying type. *)
Definition exampleUnderlying (h : list tnode) (t : tref) : Type_ :=
  match h !! t with
  | Some (Named _ (Some u) _ _ _) =>
      match h !! u with
      | Some (Named _ _ _ _ _) | None => None
      | Some _ => Some u
      end
  | Some (Named _ None _ _ _) | None => None
  | Some _ => Some t
  end.

(** The environment of the examples: no predeclared type, no
    instantiation. *)
Definition exampleEnv : Env :=
  {| deltaNewFile := -64;
     chanDir := λ d, if d =? 1 then Some RecvOnly
                     else if d =? 2 then Some SendOnly
                     else if d =? 3 then Some SendRecv else None;
     predeclared := [];
     Underlying := exampleUnderlying;
     Instantiate := λ _ _ _, None |}.

(** Every subscript digit of [name], if it has any, is the digit zero. *)
Definition subscriptsAreZero (name : string) : bool :=
  forallb (λ ir, negb (isSubscriptDigit ir.2) || (ir.2 =? sub0)) (runes name).

(** *** Invariants of the type store *)

Definition isNamed (n : tnode) : bool :=
  match n with
  | Named _ _ _ _ _ => true
  | _ => false
  end.

Definition underlyingOf (n : tnode) : Type_ :=
  match n with
  | Named _ u _ _ _ => u
  | _ => None
  end.

(** I2: the underlying type of a Named, once set, is an allocated type
    that is not itself a Named. *)
Definition I2 (h : list tnode) : Prop :=
  ∀ r n u,
    h !! r = Some n → underlyingOf n = Some u →
    ∃ nu, h !! u = Some nu ∧ isNamed nu = false.

(** What the importer expects of [go/types]: [Underlying] never yields a
    Named, and [Instantiate] keeps I2. *)
Definition UnderlyingOK (env : Env) : Prop :=
  ∀ h t u,
    Underlying env h t = Some u → ∃ nu, h !! u = Some nu ∧ isNamed nu = false.

Definition InstantiateOK (env : Env) : Prop :=
  ∀ h b targs h' t, Instantiate env h b targs = Some (h', t) → I2 h → I2 h'.

Definition isInterfaceNode (n : tnode) : bool :=
  match n with
  | Interface _ _ _ => true
  | _ => false
  end.

(** A setter that changes neither the kind of a node nor an underlying
    type. *)
Definition keepsShape (f : tnode → tnode) : Prop :=
  ∀ n, isNamed (f n) = isNamed n ∧ underlyingOf (f n) = underlyingOf n ∧
       isInterfaceNode (f n) = isInterfaceNode n.

(** A relation between the state before and the state after that every
    step of the importer respects: the steps are the changes of state the
    readers are built from. *)
Record Kept (env : Env) (R : state → state → Prop) : Prop := {
  R_refl : ∀ st, R st st;
  R_trans : ∀ st1 st2 st3, R st1 st2 → R st2 st3 → R st1 st3;
  R_p : ∀ st q, typCache q = typCache (p st) → R st (set_p st q);
  R_packages : ∀ st ps, R st (set_packages st ps);
  R_imports : ∀ st m, R st (set_imports st m);
  R_alloc : ∀ st nd,
    underlyingOf nd = None → R st (set_types st (types st ++ [nd]));
  R_update : ∀ st t f,
    keepsShape f → R st (set_types st (alter f t (types st)));
  R_SetUnderlying : ∀ st named ref,
    R st (set_types st
            (alter (Named_SetUnderlying (Underlying env (types st) ref))
               named (types st)));
  R_Instantiate : ∀ st b targs h t,
    Instantiate env (types st) b targs = Some (h, t) → R st (set_types st h);
  R_store : ∀ st st1 off (base : option tref) t,
    (typCache (p st) !! off = None ∨
     ∃ t0, typCache (p st) !! off = Some t0 ∧
           bool_decide (base = None) || negb (isInterface st t0) = false) →
    R st st1 →
    R st (set_p st1 (set_typCache (p st1) (<[off := t]> (typCache (p st1)))))
}.

(** I2 is kept. *)
Definition R_I2 (st st' : state) : Prop := I2 (types st) → I2 (types st').

(** The state a stub declaration leaves. *)
Definition stubName (pos : Pos) (pkg : pkgref) (name : string) (named : tref)
    : TypeName :=
  {| tn_pos := pos; tn_pkg := Some pkg; tn_name := name; tn_typ := Some named |}.

(** A type that stays what it is: nil, or an allocated type that is not an
    interface. *)
Definition settled (st : state) (t : Type_) : Prop :=
  t = None ∨
  ∃ r n, t = Some r ∧ types st !! r = Some n ∧ isInterfaceNode n = false.

Definition nodesKept (st st' : state) : Prop :=
  ∀ r n,
    types st !! r = Some n →
    ∃ n', types st' !! r = Some n' ∧ isInterfaceNode n' = isInterfaceNode n.

Definition entriesKept (st st' : state) : Prop :=
  ∀ off t,
    typCache (p st) !! off = Some t → settled st t →
    typCache (p st') !! off = Some t.

(** The allocated types keep their kind and the settled entries of the
    cache stay. *)
Definition R_cache (st st' : state) : Prop :=
  nodesKept st st' ∧ entriesKept st st'.

(** What this expects of [go/types]: [Instantiate] leaves the allocated
    types their kind. *)
Definition InstantiateExtends (env : Env) : Prop :=
  ∀ h b targs h' t,
    Instantiate env h b targs = Some (h', t) →
    ∀ r n, h !! r = Some n →
           ∃ n', h' !! r = Some n' ∧ isInterfaceNode n' = isInterfaceNode n.

(** *** Inputs of the examples: importer states

    A variable [AA] of type [*B] and the type [B] with underlying type
    [*B]: the declaration data holds [var AA] at 0, [type B] at 3, the
    pointer type at 7 (type offset 39) and the reference to [B] at 9 (type
    offset 41). *)
Definition pointerCycleState : state :=
  {| p := {| exportVersion := 1; ipath := "p"; version := 1;
             stringData := map B [0; 1; 112; 2; 65; 65; 1; 66];
             stringCache := ∅;
             pkgCache := {[ 0 := 0%nat ]};
             declData := map B [86; 0; 39;  84; 0; 39; 0;  1; 41;  0; 6; 0];
             pkgIndex := {[ 0%nat := {[ "AA"%string := 0; "B"%string := 3 ]} ]};
             typCache := ∅; tparamIndex := ∅; interfaceList := [] |};
     types := [];
     packages := [{| pkg_path := "p"; pkg_name := "p"; pkg_scope := ∅;
                     pkg_imports := []; pkg_complete := false |}];
     imports := {[ "p"%string := 0%nat ]} |}.

(** The type-parameter name [T₁]. *)
Definition T1 : string := string_of_list_byte ["T"%byte; xe2; x82; x81].

(** The importer state for [package p; func F[T₁ any]()] once the index is
    read.  The declaration data holds the declaration of [F] at offset 0,
    the reference to [T₁] at 6, the declaration of [T₁] at 9 and its
    constraint, an empty interface, at 12. *)
Definition genericState : state :=
  {| p := {| exportVersion := 1; ipath := "p"; version := 1;
             stringData := map B [0; 1; 112; 1; 70; 4; 84; 226; 130; 129];
             stringCache := ∅;
             pkgCache := {[ 0 := 0%nat ]};
             declData := map B [71; 0; 1; 38; 0; 0;  9; 5; 0;  80; 0; 44;
                                8; 0; 0; 0];
             pkgIndex := {[ 0%nat := {[ "F"%string := 0; T1 := 9 ]} ]};
             typCache := ∅; tparamIndex := ∅; interfaceList := [] |};
     types := [];
     packages := [{| pkg_path := "p"; pkg_name := "p"; pkg_scope := ∅;
                     pkg_imports := []; pkg_complete := false |}];
     imports := {[ "p"%string := 0%nat ]} |}.

(** The name [T₀]. *)
Definition T0 : string := string_of_list_byte ["T"%byte; xe2; x82; x80].

(** A state whose declaration data holds a pointer to the predeclared type
    at offset 0. *)
Definition pointerState : state :=
  {| p := {| exportVersion := 1; ipath := "p"; version := 1;
             stringData := []; stringCache := ∅; pkgCache := ∅;
             declData := map B [1; 0];
             pkgIndex := ∅; typCache := {[ 0 := Some 0%nat ]};
             tparamIndex := ∅; interfaceList := [] |};
     types := [BasicT int64T]; packages := []; imports := ∅ |}.

(** The export data of [package p; type A struct{}]. *)
Definition structData : list byte :=
  map B [1; 5; 7;  0; 1; 112; 1; 65;  84; 0; 36; 0;  7; 0; 0;
         1; 0; 1; 0; 1; 3; 0].

(** A reader whose every returning call is in the relation [R] between
    the state before and the state after. *)
Definition keeps {A} (R : state → state → Prop) (m : M A) : Prop :=
  ∀ r st a r' st', m r st = Ok a r' st' → R st st'.

End ImporterSpec.

Module Declarations.
Import Checker.

(** *** [pathString] *)

(** The loop of [pathString]; [i] is the loop index and [s] the string
    built so far. *)
Fixpoint pathString_loop (i : nat) (path : list Object) (s : string) : string :=
  match path with
  | [] => s
  | p :: rest =>
      let s := if 0 <? i then (s ++ "->")%string else s in
      pathString_loop (S i) rest (s ++ obj_name p)%string
  end.

Definition pathString (path : list Object) : string :=
  pathString_loop 0 path "".

(** *** The [node] method of the declaration records *)

Inductive Node : Set :=
| SpecNode (s : Spec)
| DeclNode (d : FuncDecl).

Definition node (d : decl) : Node :=
  match d with
  | importDecl spec => SpecNode (ImportSpec_ spec)
  | constDecl_ spec _ _ _ _ => SpecNode (ValueSpec_ spec)
  | varDecl_ spec => SpecNode (ValueSpec_ spec)
  | typeDecl_ spec => SpecNode (TypeSpec_ spec)
  | funcDecl_ d => DeclNode d
  end.

(** *** [validType] *)

Inductive typeInfo : Set := unknown | marked | valid | invalid.

Global Instance typeInfo_eq_dec : EqDecision typeInfo.
Proof. solve_decision. Defined.

(** The types as [validType] looks at them: an array with its element, a
    struct with the types of its fields, an interface with its embedded
    types and a [*Named] by its identity.  Every other type, and nil, is
    [OtherT]. *)
#[warnings="-register-all"]
Inductive Ty : Set :=
| ArrayT (elem : Ty)
| StructT (fields : list Ty)
| InterfaceT (embeddeds : list Ty)
| NamedT (t : nat)
| OtherT.

(** The fields of a [Named] that [validType] reads and writes. *)
Record Named : Set := {
  n_obj : Object;               (* t.obj *)
  n_pkg : option nat;           (* t.obj.pkg *)
  n_invalid : bool;             (* t.underlying == Typ[Invalid] *)
  n_info : typeInfo;            (* t.info *)
  n_fromRHS : Ty                (* t.fromRHS *)
}.

(** The checker and the named types, by identity. *)
Record vstate : Type := {
  v_check : Checker;
  v_named : nat → Named
}.

Inductive vresult : Type :=
| VOk (info : typeInfo) (st : vstate)
| VPanic (msg : string)
| VOutOfFuel.

(** [t.info = i] *)
Definition setInfo (st : vstate) (t : nat) (i : typeInfo) : vstate :=
  {| v_check := v_check st;
     v_named := λ m,
       if decide (m = t)
       then {| n_obj := n_obj (v_named st m); n_pkg := n_pkg (v_named st m);
               n_invalid := n_invalid (v_named st m); n_info := i;
               n_fromRHS := n_fromRHS (v_named st m) |}
       else v_named st m |}.

(** The loop over the fields of a struct and over the embedded types of
    an interface; [rec] is the call of [validType] on one of them. *)
Fixpoint validType_all (rec : Ty → vstate → vresult) (l : list Ty) (st : vstate)
    : vresult :=
  match l with
  | [] => VOk valid st
  | f :: l' =>
      match rec f st with
      | VOk i st' =>
          if decide (i = invalid) then VOk invalid st'
          else validType_all rec l' st'
      | r => r
      end
  end.

Section ValidType.

(** [check.pkg], and [Named.expand], which is declared outside
    [decl.go]. *)
Variable pkg : option nat.
Variable expand : (nat → Named) → nat → (nat → Named).

(** The loop of the [marked] case over [path]: [rest] is [path[i:]]. *)
Fixpoint validType_cycle (n : Named) (t : nat) (path rest : list Object)
    (i : nat) (st : vstate) : vresult :=
  match rest with
  | [] => VPanic "cycle start not found"
  | tn :: rest' =>
      if negb (bool_decide (n_pkg n = pkg))
      then VPanic "type cycle via package-external type"
      else if obj_id tn =? obj_id (n_obj n)
      then match cycleError (v_check st) (drop i path) with
           | Ok _ check =>
               VOk invalid
                 (setInfo {| v_check := check; v_named := v_named st |} t invalid)
           | Panic msg => VPanic msg
           end
      else validType_cycle n t path rest' (S i) st
  end.

Fixpoint validType (fuel : nat) (typ : Ty) (path : list Object) (st : vstate)
    : vresult :=
  match fuel with
  | O => VOutOfFuel
  | S fuel =>
      match typ with
      | ArrayT elem => validType fuel elem path st
      | StructT fields => validType_all (λ f, validType fuel f path) fields st
      | InterfaceT embeddeds =>
          validType_all (λ etyp, validType fuel etyp path) embeddeds st
      | NamedT t =>
          let st := {| v_check := v_check st;
                       v_named := expand (v_named st) t |} in
          let n := v_named st t in
          if negb (bool_decide (n_pkg n = pkg)) then VOk valid st
          else if n_invalid n then VOk invalid (setInfo st t invalid)
          else
            match n_info n with
            | unknown =>
                let st := setInfo st t marked in
                match validType fuel (n_fromRHS n) (path ++ [n_obj n]) st with
                | VOk i st => VOk i (setInfo st t i)
                | r => r
                end
            | marked => validType_cycle n t path path 0 st
            | _ => VOk (n_info n) st
            end
      | OtherT => VOk valid st
      end
  end.

End ValidType.

End Declarations.

Module CheckerProps.
Import Checker Declarations.

(** The specs of a declaration with token [Tok] that [walkDecl] hands to
    the callback: the import and type specs, and the value specs of a
    [const] or [var] declaration. *)
Definition accepted (Tok : Token) (sp : Spec) : bool :=
  match sp with
  | ImportSpec_ _ | TypeSpec_ _ => true
  | ValueSpec_ _ => match Tok with CONST | VAR => true | _ => false end
  | OtherSpec => false
  end.

Definition isInvalidAST (e : walkEvent) : bool :=
  match e with InvalidAST _ => true | _ => false end.

(** The reports of [cycleError] for a cycle entered at [start] and walked
    along [trail]. *)
Definition refersTo (o : Object) : report :=
  {| r_at := o; r_code := _InvalidDeclCycle;
     r_msg := String "009" (obj_name o ++ " refers to") |}.

Definition cycleReports (start : Object) (trail : list Object) : list report :=
  {| r_at := start; r_code := _InvalidDeclCycle;
     r_msg := "illegal cycle in declaration of " ++ obj_name start |}
  :: map refersTo trail
  ++ [{| r_at := start; r_code := _InvalidDeclCycle;
         r_msg := String "009" (obj_name start) |}].

Definition isValueSpec (sp : Spec) : bool :=
  match sp with ValueSpec_ _ => true | _ => false end.

(** The checker a result leaves. *)
Definition checkOf {A} (res : result A) (check0 : Checker) : Checker :=
  match res with
  | Ok _ check => check
  | Panic _ => check0
  end.

(** *** Inputs of the examples *)

(** Two type names, the second declared before the first in the source. *)
Definition typeA : Object :=
  {| obj_id := 1; obj_kind := TypeName; obj_name := "A"; obj_pos := 20%Z;
     obj_parent := Some 0 |}.

Definition typeB : Object :=
  {| obj_id := 2; obj_kind := TypeName; obj_name := "B"; obj_pos := 5%Z;
     obj_parent := Some 0 |}.

(** A checker that knows the constant [c] of the object map, white and
    without a type, and a body for constants that gives the constant a
    type. *)
Definition whiteCheck : Checker :=
  {| pkg_scope := 0;
     objMap := {[ 0 := {| file := Some 3; inherited := false; tdecl := None;
                          fdecl := None |} ]};
     objPath := [];
     color_ := ∅;
     typ := ∅;
     ctxt := {| ctx_decl := None; ctx_scope := Some 7 |};
     errors := [] |}.

(** The same checker inside the declaration of the type [A]: [A] is grey
    and on the object path. *)
Definition greyCheck : Checker :=
  {| pkg_scope := 0;
     objMap := {[ 0 := {| file := Some 3; inherited := false; tdecl := None;
                          fdecl := None |} ]};
     objPath := [typeA];
     color_ := {[ 1 := grey ]};
     typ := ∅;
     ctxt := {| ctx_decl := None; ctx_scope := Some 7 |};
     errors := [] |}.

Definition typedConstDecl (check : Checker) (obj : Object) (d : declInfo)
    : result unit :=
  Ok tt (setType check obj (SomeType 0)).

(** Every grey object is on the object path, at the index that its colour
    encodes. *)
Definition greyOnPath (check : Checker) : Prop :=
  ∀ id c,
    color_ check !! id = Some c → (grey ≤ c)%Z →
    ∃ o, objPath check !! Z.to_nat (c - grey) = Some o ∧ obj_id o = id.

(** **** [validType] *)

(** What the properties of [validType] expect of [Named.expand]: it
    changes neither the info of a named type nor its object. *)
Definition expandKeeps (expand : (nat → Named) → nat → (nat → Named)) : Prop :=
  ∀ h t m,
    n_info (expand h t m) = n_info (h m) ∧
    n_obj (expand h t m) = n_obj (h m) ∧
    n_pkg (expand h t m) = n_pkg (h m).

(** What a call may do to the named types: it marks none and withdraws
    no [invalid], and the objects stay. *)
Definition infoKept (st st' : vstate) : Prop :=
  ∀ m,
    (n_info (v_named st' m) = marked → n_info (v_named st m) = marked) ∧
    (n_info (v_named st m) = invalid → n_info (v_named st' m) = invalid) ∧
    n_obj (v_named st' m) = n_obj (v_named st m) ∧
    n_pkg (v_named st' m) = n_pkg (v_named st m).

(** Every marked type of the package has its object on the path. *)
Definition marksOnPath (pkg : option nat) (path : list Object) (st : vstate)
    : Prop :=
  ∀ m,
    n_info (v_named st m) = marked → n_pkg (v_named st m) = pkg →
    ∃ o, o ∈ path ∧ obj_id o = obj_id (n_obj (v_named st m)).

(** The state a result leaves. *)
Definition vstateOf (res : vresult) (st0 : vstate) : vstate :=
  match res with
  | VOk _ st => st
  | _ => st0
  end.

(** The named types of [type A struct { x int; y [2]A }] in the package 1,
    among types of other packages, and a checker without errors. *)
Definition selfNamed : nat → Named :=
  λ m,
    if decide (m = 0)
    then {| n_obj := typeA; n_pkg := Some 1; n_invalid := false;
            n_info := unknown;
            n_fromRHS := StructT [OtherT; ArrayT (NamedT 0)] |}
    else {| n_obj := typeB; n_pkg := None; n_invalid := false;
            n_info := unknown; n_fromRHS := OtherT |}.

Definition selfState : vstate :=
  {| v_check := whiteCheck; v_named := selfNamed |}.

(** An [expand] that has nothing to expand. *)
Definition noExpand (h : nat → Named) (t : nat) : nat → Named := h.

End CheckerProps.

(* ===================================================================== *)
(** ** Stating more properties of the indexed importer *)
(* ===================================================================== *)

Module ImporterProps.
Import Importer ImporterSpec.

Local Open Scope Z_scope.

(** *** The encodings the importer reads

    The exporter is not part of the sources; the encodings are those of
    [encoding/binary], which the importer undoes. *)

(** [binary.PutUvarint]: seven bits to a byte, the low ones first, with
    the high bit set on every byte but the last.  [n] bounds the number of
    bytes. *)
Fixpoint PutUvarint_loop (n : nat) (x : Z) : list byte :=
  match n with
  | O => []
  | S n' =>
      if x <? 0x80 then [B x]
      else B (Z.lor x 0x80) :: PutUvarint_loop n' (Z.shiftr x 7)
  end.

Definition PutUvarint (x : Z) : list byte :=
  PutUvarint_loop (Z.to_nat MaxVarintLen64) x.

(** [binary.PutVarint]: the zig-zag code of a signed value, as an unsigned
    varint. *)
Definition PutVarint (x : Z) : list byte :=
  let ux := uint64 (Z.shiftl (uint64 x) 1) in
  PutUvarint (if x <? 0 then uint64 (Z.lnot ux) else ux).

(** *** Names with a subscript *)

(** The UTF-8 bytes of the subscript digit [d], the rune U+2080 + [d]. *)
Definition subscriptDigit (d : Z) : list byte := [xe2; x82; B (0x80 + d)].

(** The number that a row of decimal digits writes. *)
Definition decimal (ds : list Z) : Z := fold_left (λ acc d, acc * 10 + d) ds 0.

(** *** The length byte of [mpint] *)

(** The number of bytes [mpint] reads after a first byte [n] that is not
    a value itself, in arithmetic. *)
Definition mpint_length (signed : bool) (n : Z) : Z :=
  if signed then 128 - n / 2 else 256 - n.

(** The test that [mpint] makes of the length, on the values as the code
    computes them: a first byte below [maxSmall], or a length from 1 to
    [maxBytes] that is [mpint_length]. *)
Definition mpint_length_ok (signed : bool) (maxBytes n : Z) : bool :=
  let v := uint8 (- n) in
  let v := if signed then Z.shiftr (uint8 (- Z.ldiff n 1)) 1 else v in
  (n <? maxSmall signed maxBytes)
  || (negb ((v <? 1) || (maxBytes <? v)) && (v =? mpint_length signed n)).

(** *** What the readers touch

    The readers change the state by a few steps only.  A relation between
    the state before and the state after that holds of each step holds of
    every call: [Footprint] lists the steps of the readers of declarations
    and types, the setters apart, which [UpdateStep] gives;
    [FootprintIndex] adds the steps of the reading of the index. *)

Record Footprint (env : Env) (R : state → state → Prop) : Prop := {
  F_refl : ∀ st, R st st;
  F_trans : ∀ st1 st2 st3, R st1 st2 → R st2 st3 → R st1 st3;
  (* the constructors of [go/types], interfaces apart *)
  F_alloc : ∀ st nd,
    isInterfaceNode nd = false → R st (set_types st (types st ++ [nd]));
  (* [NewInterfaceType], and the entry in [interfaceList] that follows it *)
  F_interface : ∀ st ms es,
    R st (set_p (set_types st (types st ++ [Interface ms es false]))
            (set_interfaceList (p st)
               (interfaceList (p st) ++ [length (types st)])));
  F_Instantiate : ∀ st b targs h t,
    Instantiate env (types st) b targs = Some (h, t) → R st (set_types st h);
  (* [Scope.Insert] *)
  F_declare : ∀ st o pkg,
    R st (set_packages st (alter (Scope_Insert o) pkg (packages st)));
  (* the three caches *)
  F_string : ∀ st off s,
    stringCache (p st) !! off = None →
    R st (set_p st (set_stringCache (p st) (<[off := s]> (stringCache (p st)))));
  F_typCache : ∀ st off t,
    R st (set_p st (set_typCache (p st) (<[off := t]> (typCache (p st)))));
  F_tparamIndex : ∀ st id t,
    R st (set_p st (set_tparamIndex (p st) (<[id := t]> (tparamIndex (p st)))))
}.

(** The setters of [go/types], on any type. *)
Definition UpdateStep (R : state → state → Prop) : Prop :=
  ∀ st t f,
    (∀ n, isInterfaceNode (f n) = isInterfaceNode n) →
    R st (set_types st (alter f t (types st))).

Record FootprintIndex (env : Env) (R : state → state → Prop) : Prop := {
  FI_readers : Footprint env R;
  FI_NewPackage : ∀ st path name,
    R st (set_packages st
            (packages st ++ [{| pkg_path := path; pkg_name := name;
                                pkg_scope := ∅; pkg_imports := [];
                                pkg_complete := false |}]));
  FI_import : ∀ st path pkg,
    imports st !! path = None →
    R st (set_imports st (<[path := pkg]> (imports st)));
  FI_pkgCache : ∀ st off pkg,
    R st (set_p st (set_pkgCache (p st) (<[off := pkg]> (pkgCache (p st)))));
  FI_pkgIndex : ∀ st pkg idx,
    R st (set_p st (set_pkgIndex (p st) (<[pkg := idx]> (pkgIndex (p st)))))
}.

(** The state after the loop of [iImportData] that completes the
    interfaces of [interfaceList]. *)
Definition completeAll (st : state) : state :=
  foldl (λ s t, set_types s (alter Interface_Complete t (types s))) st
    (interfaceList (p st)).

(** The path of a package, as [byPath] reads it. *)
Definition pathOf (st : state) (i : pkgref) : string :=
  default ""%string (pkg_path <$> packages st !! i).

(** A package that exists and that the [imports] map holds. *)
Definition registered (st : state) (pkg : pkgref) : Prop :=
  is_Some (packages st !! pkg) ∧ ∃ path, imports st !! path = Some pkg.

(** Modelled from the spec: the order of [byPath], which compares two
    packages by their paths; a sorted list has each package before the
    packages of a greater or equal path. *)
Definition byPath (st : state) (a b : pkgref) : Prop :=
  string_le (pathOf st a) (pathOf st b).

(** A reader that leaves the current package of its reader as it is. *)
Definition keepsPkg {A} (m : M A) : Prop :=
  ∀ r st a r' st', m r st = Ok a r' st' → currPkg r' = currPkg r.

(** The packages stay, with their paths and names, and lose no
    declaration; the [imports] map loses no entry. *)
Definition R_names (st st' : state) : Prop :=
  imports st ⊆ imports st' ∧
  ∀ i pk,
    packages st !! i = Some pk →
    ∃ pk', packages st' !! i = Some pk' ∧
           pkg_path pk' = pkg_path pk ∧ pkg_name pk' = pkg_name pk ∧
           pkg_scope pk ⊆ pkg_scope pk'.

(** The data and the index of the importer stay, and the string cache
    loses no entry. *)
Definition R_tables (st st' : state) : Prop :=
  stringData (p st') = stringData (p st) ∧
  declData (p st') = declData (p st) ∧
  exportVersion (p st') = exportVersion (p st) ∧
  version (p st') = version (p st) ∧
  ipath (p st') = ipath (p st) ∧
  pkgCache (p st') = pkgCache (p st) ∧
  pkgIndex (p st') = pkgIndex (p st) ∧
  stringCache (p st) ⊆ stringCache (p st').

(** The types stay what they are, the list of interfaces loses no entry,
    and every interface among the types that were added is in the list. *)
Definition R_interfaces (st st' : state) : Prop :=
  nodesKept st st' ∧
  (∀ t, t ∈ interfaceList (p st) → t ∈ interfaceList (p st')) ∧
  (∀ t n, (length (types st) ≤ t)%nat → types st' !! t = Some n →
          isInterfaceNode n = true → t ∈ interfaceList (p st')).

(** What this expects of [go/types]: the types that [Instantiate] adds
    are no interfaces. *)
Definition InstantiateNoInterface (env : Env) : Prop :=
  ∀ h b targs h' t,
    Instantiate env h b targs = Some (h', t) →
    ∀ r n, (length h ≤ r)%nat → h' !! r = Some n → isInterfaceNode n = false.

(** What this expects of [go/types]: [Instantiate] adds types and leaves
    the types there are as they are. *)
Definition InstantiateAppends (env : Env) : Prop :=
  ∀ h b targs h' t,
    Instantiate env h b targs = Some (h', t) → h `prefix_of` h'.

(** The first [n0] types stay as they are. *)
Definition R_old (n0 : nat) (st st' : state) : Prop :=
  (n0 ≤ length (types st))%nat →
  (n0 ≤ length (types st'))%nat ∧ take n0 (types st') = take n0 (types st).

(** The list of interfaces holds none of the first [n0] types. *)
Definition R_fresh (n0 : nat) (st st' : state) : Prop :=
  (n0 ≤ length (types st))%nat →
  Forall (λ t, (n0 ≤ t)%nat) (interfaceList (p st)) →
  (n0 ≤ length (types st'))%nat ∧
  Forall (λ t, (n0 ≤ t)%nat) (interfaceList (p st')).

(** A reader that leaves the first [n0] types as they are, and whose
    result is in [Q]. *)
Definition keepsOld {A} (n0 : nat) (m : M A) (Q : A → Prop) : Prop :=
  ∀ r st a r' st',
    (n0 ≤ length (types st))%nat → m r st = Ok a r' st' →
    ((n0 ≤ length (types st'))%nat ∧ take n0 (types st') = take n0 (types st)) ∧
    Q a.

(** *** Inputs of the examples *)

(** An importer whose string section ends in the middle of the string
    [AB], written at offset 1. *)
Definition crossState : state :=
  {| p := {| exportVersion := 1; ipath := "p"; version := 1;
             stringData := map B [0; 2; 65]; stringCache := ∅; pkgCache := ∅;
             declData := map B [66; 7];
             pkgIndex := ∅; typCache := ∅; tparamIndex := ∅;
             interfaceList := [] |};
     types := []; packages := []; imports := ∅ |}.

(** The export data of [package p; type A interface{}]. *)
Definition interfaceData : list byte :=
  map B [1; 5; 7;  0; 1; 112; 1; 65;  84; 0; 35; 8; 0; 0; 0;
         1; 0; 1; 0; 1; 3; 0].

(** The export data of [package p; type A struct{}] with the packages
    [b] and [a] after it in the list of packages, and an [imports] map
    that holds the package [a] before the import. *)
Definition importsData : list byte :=
  map B [1; 9; 7;  0; 1; 112; 1; 65; 1; 98; 1; 97;  84; 0; 36; 0; 7; 0; 0;
         3;  0; 1; 0; 1; 3; 0;  5; 5; 0; 0;  7; 7; 0; 0].

Definition packagesBefore : list Package :=
  [{| pkg_path := "a"; pkg_name := "a"; pkg_scope := ∅; pkg_imports := [];
      pkg_complete := false |}].

Definition importsBefore : gmap string pkgref := {[ "a"%string := 0%nat ]}.

(** A type that exists before the import. *)
Definition typesBefore : list tnode := [Struct [] []].

(** The importer state [genericState] with that type in its store. *)
Definition genericBefore : state := set_types genericState typesBefore.

(** The state of an import that returned a package. *)
Definition importedState (out : imported) (st0 : state) : state :=
  match out with
  | Imported _ st => st
  | _ => st0
  end.

End ImporterProps.

(* ===================================================================== *)
(** ** Properties of the declaration checker *)
(* ===================================================================== *)

Module CheckerFacts.
Import Checker CheckerSpec.

(** *** Cycle classification *)

Lemma reported_refl check : reported check check [].
Proof. unfold reported. by rewrite app_nil_r. Qed.

Lemma reported_errorf check check' reports obj code msg :
  reported check check' reports →
  reported check (errorf check' obj code msg)
    (reports ++ [{| r_at := obj; r_code := code; r_msg := msg |}]).
Proof.
  unfold reported. intros (? & ? & ? & ? & ? & ? & He). simpl.
  rewrite He, app_assoc. done.
Qed.

Lemma nvalOf_cons obj cycle :
  nvalOf (obj :: cycle) = (if isValue obj then 1 else 0) + nvalOf cycle.
Proof.
  unfold nvalOf. rewrite filter_cons.
  destruct (decide (isValue obj = true)) as [->|Hn]; [done|].
  by destruct (isValue obj).
Qed.

Lemma ndefOf_cons IsAlias check obj cycle :
  ndefOf IsAlias check (obj :: cycle)
  = (if isDefinition IsAlias check obj then 1 else 0) + ndefOf IsAlias check cycle.
Proof.
  unfold ndefOf. rewrite filter_cons.
  destruct (decide (isDefinition IsAlias check obj = true)) as [->|Hn]; [done|].
  by destruct (isDefinition IsAlias check obj).
Qed.

Lemma countCycle_counts IsAlias check cycle nval ndef :
  Forall (cycleObject check) cycle →
  countCycle IsAlias check cycle nval ndef
  = Ok (nval + nvalOf cycle, ndef + ndefOf IsAlias check cycle) check.
Proof.
  intros Hwf. revert nval ndef.
  induction Hwf as [|obj cycle Hobj _ IH]; intros nval ndef.
  - simpl. unfold nvalOf, ndefOf. simpl. by rewrite !Nat.add_0_r.
  - rewrite nvalOf_cons, ndefOf_cons. simpl countCycle.
    unfold cycleObject in Hobj. unfold isValue, isDefinition, isAliasName.
    destruct (obj_kind obj) eqn:Hk; try done.
    + rewrite IH. do 2 f_equal; lia.
    + rewrite IH. do 2 f_equal; lia.
    + destruct (objMap check !! obj_id obj) as [d|] eqn:Hd.
      * destruct (Hobj d eq_refl) as [td Htd]. rewrite Htd.
        destruct (IsValid (Assign td)); simpl; rewrite IH; do 2 f_equal; lia.
      * destruct (IsAlias check obj); simpl; rewrite IH; do 2 f_equal; lia.
Qed.

Lemma firstInSrc_loop_le rest i fst pos :
  fst ≤ i → firstInSrc_loop rest i fst pos ≤ i + length rest.
Proof.
  revert i fst pos. induction rest as [|t rest IH]; intros i fst pos Hle; simpl.
  - lia.
  - destruct (obj_pos t <? pos)%Z.
    + etrans; [apply IH|]; lia.
    + etrans; [apply IH|]; lia.
Qed.

Lemma cycleError_loop_reports cycle n i obj check0 check :
  ∀ reports,
  length cycle ≠ 0 →
  reported check0 check reports →
  Forall (λ r, r_code r = _InvalidDeclCycle) reports →
  ∃ i' obj' check' reports',
    cycleError_loop cycle n i obj check = Ok (i', obj') check' ∧
    reported check0 check' reports' ∧
    Forall (λ r, r_code r = _InvalidDeclCycle) reports'.
Proof.
  revert i obj check. induction n as [|n IH]; intros i obj check reports Hne Hrep Hall.
  - simpl. eauto 10.
  - simpl.
    set (i1 := if length cycle <=? i + 1 then 0 else i + 1).
    assert (i1 < length cycle) as Hlt.
    { unfold i1. destruct (length cycle <=? i + 1) eqn:E.
      - lia.
      - apply Nat.leb_gt in E. lia. }
    destruct (lookup_lt_is_Some_2 cycle i1 Hlt) as [obj' Hobj'].
    rewrite Hobj'.
    eapply IH; [done| by apply reported_errorf |].
    apply Forall_app. split; [done|]. by repeat constructor.
Qed.

Lemma cycleError_reports check cycle :
  cycle ≠ [] →
  ∃ check' reports,
    cycleError check cycle = Ok tt check' ∧
    reported check check' reports ∧ reports ≠ [] ∧
    Forall (λ r, r_code r = _InvalidDeclCycle) reports.
Proof.
  intros Hne. unfold cycleError.
  destruct cycle as [|p0 rest]; [done|]. simpl firstInSrc.
  pose proof (firstInSrc_loop_le rest 0 0 (obj_pos p0) (le_n 0)) as Hle.
  set (i := firstInSrc_loop rest 0 0 (obj_pos p0)) in *.
  assert (i < length (p0 :: rest)) as Hlt by (simpl in *; lia).
  destruct (lookup_lt_is_Some_2 _ i Hlt) as [obj Hobj]. rewrite Hobj.
  edestruct (cycleError_loop_reports (p0 :: rest) (length (p0 :: rest)) i obj
               check) as (i' & obj' & check' & reports' & Hloop & Hrep & Hall).
  - done.
  - apply reported_errorf, reported_refl.
  - by repeat constructor.
  - rewrite Hloop. simpl. eexists _, _. split; [done|]. split; [|split].
    + by apply reported_errorf.
    + by destruct reports'.
    + apply Forall_app. split; [done|]. by repeat constructor.
Qed.

Section Cycle.

Variable debug : bool.
Variable IsAlias : Checker → Object → bool.

(** C1 (Checker.cycle).  On grey re-entry, with [cycle = objPath[start:]]
    for the grey index [start]: when every object of the cycle is a
    constant or a variable the check returns false and reports nothing;
    when the cycle holds no value and at least one type definition that is
    not an alias, it returns false as well; in every other case it reports
    errors, all of code InvalidDeclCycle, and returns true. *)
Theorem cycle_classification (check : Checker) (obj : Object) :
  let start := (obj_color check obj - grey)%Z in
  let cyc := drop (Z.to_nat start) (objPath check) in
  let nval := nvalOf cyc in
  let ndef := ndefOf IsAlias check cyc in
  debug && inconsistentObjMap check obj = false →
  (grey ≤ obj_color check obj)%Z →
  (start ≤ Z.of_nat (length (objPath check)))%Z →
  Forall (cycleObject check) cyc →
  (nval = length cyc → cycle debug IsAlias check obj = Ok false check) ∧
  (nval = 0 → 0 < ndef → cycle debug IsAlias check obj = Ok false check) ∧
  (nval ≠ length cyc → ¬ (nval = 0 ∧ 0 < ndef) →
     ∃ check' reports,
       cycle debug IsAlias check obj = Ok true check' ∧
       reported check check' reports ∧ reports ≠ [] ∧
       Forall (λ r, r_code r = _InvalidDeclCycle) reports).
Proof.
  intros start cyc nval ndef Hdebug Hgrey Hstart Hwf.
  assert (cycle debug IsAlias check obj
          = if nval =? length cyc then Ok false check
            else if (nval =? 0) && (0 <? ndef) then Ok false check
            else bind (cycleError check cyc) (λ _ check, Ok true check))
    as Hcycle.
  { unfold cycle. rewrite Hdebug.
    apply Z.leb_le in Hgrey. rewrite Hgrey. simpl assert. cbn [bind].
    fold start. apply Z.ltb_ge in Hstart. rewrite Hstart. fold cyc.
    rewrite (countCycle_counts IsAlias check cyc 0 0 Hwf). done. }
  split; [|split].
  - intros Hall. rewrite Hcycle. apply Nat.eqb_eq in Hall. by rewrite Hall.
  - intros Hz Hd. rewrite Hcycle.
    destruct (nval =? length cyc); [done|].
    apply Nat.eqb_eq in Hz. apply Nat.ltb_lt in Hd. by rewrite Hz, Hd.
  - intros Hne Hnot. rewrite Hcycle.
    apply Nat.eqb_neq in Hne. rewrite Hne.
    destruct ((nval =? 0) && (0 <? ndef)) eqn:E.
    { apply andb_true_iff in E as [E1 E2].
      apply Nat.eqb_eq in E1. apply Nat.ltb_lt in E2. by destruct Hnot. }
    destruct (cycleError_reports check cyc) as (check' & reports & He & Hr & Hn & Ha).
    { intros ->. apply Nat.eqb_neq in Hne. by apply Hne. }
    rewrite He. simpl. eauto 10.
Qed.

End Cycle.

(** *** The grey branch of [objDecl] *)

Lemma countCycle_same IsAlias check cycle nval ndef x check' :
  countCycle IsAlias check cycle nval ndef = Ok x check' → check' = check.
Proof.
  revert nval ndef. induction cycle as [|obj cycle IH]; intros nval ndef; simpl.
  - by intros [= _ ->].
  - destruct (obj_kind obj); try done; try apply IH.
    destruct (objMap check !! obj_id obj) as [d|]; [|apply IH].
    destruct (tdecl d); [apply IH|done].
Qed.

(** [cycle] changes nothing of the checker but its error sink. *)
Lemma cycle_reported debug IsAlias check obj b check' :
  cycle debug IsAlias check obj = Ok b check' →
  ∃ reports, reported check check' reports.
Proof.
  unfold cycle.
  destruct (debug && inconsistentObjMap check obj); [done|].
  destruct (grey <=? obj_color check obj)%Z; [|done]. simpl.
  destruct (_ <? _)%Z; [done|].
  set (cyc := drop _ _).
  destruct (countCycle IsAlias check cyc 0 0) as [[nval ndef] check1|] eqn:Hc;
    [|done].
  apply countCycle_same in Hc as ->. simpl.
  destruct (nval =? length cyc).
  { intros [= _ <-]. eexists. apply reported_refl. }
  destruct ((nval =? 0) && (0 <? ndef)).
  { intros [= _ <-]. eexists. apply reported_refl. }
  destruct cyc as [|p0 rest] eqn:Hcyc; [done|].
  destruct (cycleError_reports check (p0 :: rest)) as (c & reports & He & Hr & _);
    [done|].
  rewrite He. simpl. intros [= _ <-]. eauto.
Qed.

Section ObjDecl.

Variable debug : bool.
Variable IsAlias : Checker → Object → bool.
Variable constDecl varDecl : Checker → Object → declInfo → result unit.
Variable typeDecl : Checker → Object → option TypeSpec → option nat → result unit.
Variable collectMethods : Checker → Object → result unit.
Variable funcDecl : Checker → Object → declInfo → result unit.

Local Abbreviation objDecl :=
  (objDecl debug IsAlias constDecl varDecl typeDecl collectMethods funcDecl).

Lemma objDecl_grey_eq check obj def :
  obj_color check obj ≠ white → obj_color check obj ≠ black →
  objDecl check obj def = objDecl_grey debug IsAlias check obj.
Proof.
  intros Hw Hb. unfold Checker.objDecl.
  apply Z.eqb_neq in Hw, Hb. by rewrite Hw, Hb.
Qed.

(** C9 (Checker.objDecl).  Re-entering a grey constant or variable whose
    type is still nil sets its type to the Invalid sentinel, whatever the
    cycle check answers, also when it answers false; and [objDecl] never
    returns from the grey branch with the type of the object nil. *)
Theorem objDecl_grey_typed (check : Checker) (obj : Object) (def : option nat) :
  obj_color check obj ≠ white → obj_color check obj ≠ black →
  (obj_kind obj = Const ∨ obj_kind obj = Var →
   obj_Type check obj = None →
   ∀ isCycle check1,
     cycle debug IsAlias check obj = Ok isCycle check1 →
     ∃ check2,
       objDecl check obj def = Ok tt check2 ∧
       obj_Type check2 obj = Some Invalid) ∧
  (∀ check2,
     objDecl check obj def = Ok tt check2 → obj_Type check2 obj ≠ None).
Proof.
  intros Hw Hb. rewrite objDecl_grey_eq by done. split.
  - intros Hkind Hnil isCycle check1 Hcycle.
    destruct (cycle_reported _ _ _ _ _ _ Hcycle) as (reports & Hrep).
    assert (obj_Type check1 obj = None) as Hnil1.
    { unfold obj_Type in *. destruct Hrep as (_ & _ & _ & _ & -> & _). done. }
    exists (setType check1 obj Invalid).
    unfold objDecl_grey.
    assert (obj_Type (setType check1 obj Invalid) obj = Some Invalid) as Hset.
    { unfold obj_Type, setType. simpl. apply lookup_insert_eq. }
    split; [|done].
    destruct Hkind as [-> | ->]; rewrite Hcycle; simpl;
      rewrite Hnil1, orb_true_r; simpl;
      unfold assertTyped; by rewrite Hset.
  - intros check2. unfold objDecl_grey.
    match goal with
    | |- bind ?m _ = _ → _ => destruct m as [[] check1|]; [|done]
    end.
    simpl. unfold assertTyped, assert.
    destruct (bool_decide (obj_Type check1 obj ≠ None)) eqn:E; [|done].
    intros [= <-]. by apply bool_decide_eq_true in E.
Qed.

End ObjDecl.

(** *** The declaration walker *)

Lemma walkSpecs_app Tok last iota pre rest :
  walkSpecs Tok last iota (pre ++ rest)
  = walkSpecs Tok last iota pre
    ++ walkSpecs Tok (lastAfter Tok last pre) (iota + length pre) rest.
Proof.
  revert last iota. induction pre as [|sp pre IH]; intros last iota.
  - simpl. by rewrite Nat.add_0_r.
  - simpl. replace (iota + S (length pre)) with (S iota + length pre) by lia.
    destruct sp as [s|s|s|]; simpl; try by rewrite IH.
    destruct Tok; simpl; try by rewrite IH.
    destruct (hasTypeOrValues s); [by rewrite IH|].
    destruct last; by rewrite IH.
Qed.

Lemma emitted_app evs1 evs2 :
  emitted (evs1 ++ evs2) = emitted evs1 ++ emitted evs2.
Proof. apply omap_app. Qed.

Lemma nearestSource_snoc pre sp :
  nearestSource (pre ++ [sp])
  = match sp with
    | ValueSpec_ s => if hasTypeOrValues s then Some s else nearestSource pre
    | _ => nearestSource pre
    end.
Proof.
  unfold nearestSource. rewrite omap_app. simpl.
  destruct sp as [s|s|s|]; simpl; try by rewrite app_nil_r.
  destruct (hasTypeOrValues s); simpl.
  - apply last_snoc.
  - by rewrite app_nil_r.
Qed.

Lemma lastAfter_nearestSource last pre src :
  nearestSource pre = Some src → lastAfter CONST last pre = Some src.
Proof.
  revert src. induction pre as [|sp pre IH] using rev_ind; intros src.
  - done.
  - rewrite nearestSource_snoc. unfold lastAfter. rewrite foldl_app. simpl.
    fold (lastAfter CONST last pre).
    destruct sp as [s|s|s|]; try apply IH.
    destruct (hasTypeOrValues s); [done|].
    intros H. by rewrite (IH _ H).
Qed.

(** Every constant record carries the index of its own spec. *)
Lemma walkSpecs_iota Tok last iota Specs s i t v inh :
  constDecl_ s i t v inh ∈ emitted (walkSpecs Tok last iota Specs) →
  iota ≤ i ∧ Specs !! (i - iota) = Some (ValueSpec_ s).
Proof.
  revert last iota. induction Specs as [|sp Specs IH]; intros last iota.
  - simpl. by intros ?%elem_of_nil.
  - assert (∀ last',
              constDecl_ s i t v inh ∈ emitted (walkSpecs Tok last' (S iota) Specs) →
              iota ≤ i ∧ (sp :: Specs) !! (i - iota) = Some (ValueSpec_ s))
      as Hrest.
    { intros last' [Hle Hl]%IH. split; [lia|].
      replace (i - iota) with (S (i - S iota)) by lia. done. }
    simpl. destruct sp as [s0|s0|s0|]; simpl.
    + intros [?|?]%elem_of_cons; [done|eauto].
    + destruct Tok; simpl; eauto.
      * destruct (hasTypeOrValues s0).
        -- intros [[= -> -> _ _ _]|?]%elem_of_cons; [|eauto].
           split; [done|]. by rewrite Nat.sub_diag.
        -- destruct last; simpl.
           ++ intros [[= -> -> _ _ _]|?]%elem_of_cons; [|eauto].
              split; [done|]. by rewrite Nat.sub_diag.
           ++ intros [[= -> -> _ _ _]|?]%elem_of_cons; [|eauto].
              split; [done|]. by rewrite Nat.sub_diag.
      * intros [?|?]%elem_of_cons; [done|eauto].
    + intros [?|?]%elem_of_cons; [done|eauto].
    + eauto.
Qed.

(** C8 (Checker.walkDecl).  In a const block, the record of a ValueSpec
    with a type or values carries its own type and values and is not
    marked inherited; the record of a ValueSpec with neither carries the
    type and the values of the nearest preceding spec that had them and is
    marked inherited; and the [iota] of every constant record is the index
    of its spec in the block. *)
Theorem walkDecl_const_inheritance (Specs : list Spec) :
  let out := emitted (walkDecl (GenDecl CONST Specs)) in
  (∀ pre s post,
     Specs = pre ++ ValueSpec_ s :: post →
     let k := length (emitted (walkDecl (GenDecl CONST pre))) in
     (hasTypeOrValues s = true →
      out !! k
      = Some (constDecl_ s (length pre) (vs_Type s) (vs_Values s) false)) ∧
     (hasTypeOrValues s = false →
      ∀ src, nearestSource pre = Some src →
      out !! k
      = Some (constDecl_ s (length pre) (vs_Type src) (vs_Values src) true))) ∧
  (∀ s i t v inh,
     constDecl_ s i t v inh ∈ out → Specs !! i = Some (ValueSpec_ s)).
Proof.
  intros out. split.
  - intros pre s post -> k. subst out k. simpl walkDecl.
    rewrite walkSpecs_app, emitted_app. simpl.
    split.
    + intros Hs. rewrite Hs. simpl.
      by rewrite lookup_app_r, Nat.sub_diag by done.
    + intros Hs src Hsrc. rewrite Hs.
      rewrite (lastAfter_nearestSource None pre src Hsrc). simpl.
      by rewrite lookup_app_r, Nat.sub_diag by done.
  - intros s i t v inh Hin. subst out. simpl in Hin.
    apply walkSpecs_iota in Hin as [_ Hl]. by rewrite Nat.sub_0_r in Hl.
Qed.

End CheckerFacts.

(* ===================================================================== *)
(** ** Properties of the indexed importer *)
(* ===================================================================== *)

Module ImporterFacts.
Import Importer ImporterSpec.

Local Open Scope Z_scope.

(** Unfolds the monad of the readers down to functions on the reader and
    the state. *)
Ltac munfold :=
  unfold mbind, M_bind, bind, mret, M_ret, ret, getReader, getState,
    putReader, modifyP, modifyState, errorf.

(** *** Bytes and bit operations *)

Lemma byteZ_range (b : byte) : 0 ≤ byteZ b < 256.
Proof.
  unfold byteZ. pose proof (Byte.to_N_bounded b) as H. lia.
Qed.

Lemma land_1_even (n : Z) : (Z.land n 1 =? 0) = Z.even n.
Proof.
  change 1 with (Z.ones 1). rewrite Z.land_ones by lia.
  rewrite Zeven_mod. change (2 ^ 1) with 2. done.
Qed.

Lemma int64_small (n : Z) : - 2 ^ 63 ≤ n < 2 ^ 63 → int64 n = n.
Proof. intros H. unfold int64. rewrite Z.mod_small; lia. Qed.

(** The value of a one-byte signed encoding, in arithmetic. *)
Lemma mpint_small_signed (n : Z) :
  0 ≤ n < 256 →
  mpint_small true n = if Z.even n then n / 2 else - (n / 2) - 1.
Proof.
  intros Hn. unfold mpint_small. rewrite int64_small by lia.
  rewrite land_1_even, Z.shiftr_div_pow2 by lia. change (2 ^ 1) with 2.
  destruct (Z.even n); [done|]. unfold Z.lnot. lia.
Qed.

Lemma mpint_small_unsigned (n : Z) :
  0 ≤ n < 256 → mpint_small false n = n.
Proof. intros Hn. unfold mpint_small. apply int64_small. lia. Qed.

(** *** C4: [intSize] and the one-byte path of [mpint] *)

(** The claim gives 8 bytes to the untyped constants and negates the
    shifted value; for an untyped integer [intSize] yields 64 bytes, so
    that [maxSmall] is 128, and the signed value of the byte 3 is the
    complement [-2] of [3 >> 1], not its negation. *)
Lemma mpint_claim_counterexample :
  snd (intSize untypedInt) = 64 ∧ snd (intSize untypedInt) ≠ 8 ∧
  maxSmall true (snd (intSize untypedInt)) = 128 ∧
  maxSmall true (snd (intSize untypedInt)) ≠ 256 - 2 * 8 ∧
  mpint_small true 3 = -2 ∧ mpint_small true 3 ≠ - Z.shiftr 3 1.
Proof. vm_compute. repeat split; discriminate. Qed.

(** C4 (intSize, importReader.mpint), amended.  [maxBytes] is 64 for an
    untyped type, else 3 for float32 and complex64, 7 for float64 and
    complex128, 1 for int8 and uint8, 2 and 4 for the 16- and 32-bit
    integers and 8 for every other kind; [maxSmall] is 256 when
    [maxBytes] is 1, else [256 − 2·maxBytes] for a signed type and
    [256 − maxBytes] for an unsigned one; and when the first byte [n] is
    below [maxSmall], [mpint] returns [n] for an unsigned type and, for a
    signed one, [n >> 1] if [n] is even and the complement
    [−(n >> 1) − 1] if [n] is odd. *)
Theorem mpint_small_path (b : Basic) (n : byte) (rest : list byte)
    (r : importReader) (st : state) :
  let signed := fst (intSize b) in
  let maxBytes := snd (intSize b) in
  let small :=
    if maxBytes =? 1 then 256
    else if signed then 256 - 2 * maxBytes else 256 - maxBytes in
  declReader r = n :: rest →
  (Z.land (Info b) IsUntyped ≠ 0 → signed = true ∧ maxBytes = 64) ∧
  (Z.land (Info b) IsUntyped = 0 →
   (Kind b = Float32 ∨ Kind b = Complex64 → signed = true ∧ maxBytes = 3) ∧
   (Kind b = Float64 ∨ Kind b = Complex128 → signed = true ∧ maxBytes = 7) ∧
   (Kind b = Int8 ∨ Kind b = Uint8 → maxBytes = 1) ∧
   (Kind b = Int16 ∨ Kind b = Uint16 → maxBytes = 2) ∧
   (Kind b = Int32 ∨ Kind b = Uint32 → maxBytes = 4) ∧
   (Kind b ∉ [Float32; Complex64; Float64; Complex128; Int8; Uint8; Int16;
              Uint16; Int32; Uint32] → maxBytes = 8) ∧
   (Kind b ∉ [Float32; Complex64; Float64; Complex128] →
    signed = (Z.land (Info b) IsUnsigned =? 0))) ∧
  (byteZ n < small →
   mpint b r st
   = Ok (if signed
         then if Z.even (byteZ n) then byteZ n / 2 else - (byteZ n / 2) - 1
         else byteZ n)
       (set_declReader r rest) st).
Proof.
  intros signed maxBytes small Hr. split; [|split].
  - intros Hu. subst signed maxBytes. unfold intSize.
    apply Z.eqb_neq in Hu. by rewrite Hu.
  - intros Hu. subst signed maxBytes. unfold intSize.
    apply Z.eqb_eq in Hu. rewrite Hu. simpl negb. cbv iota.
    split_and!; try (intros [Hk | Hk]; rewrite Hk; done).
    + intros Hk. destruct (Kind b); try done; exfalso; apply Hk; set_solver.
    + intros Hk. destruct (Kind b); try done; exfalso; apply Hk; set_solver.
  - intros Hsmall. unfold mpint.
    destruct (intSize b) as [sg mb] eqn:Hsz. subst signed maxBytes. simpl in *.
    munfold. rewrite Hr.
    assert (Importer.maxSmall sg mb = small) as ->.
    { unfold Importer.maxSmall, small. by destruct (mb =? 1), sg. }
    apply Z.ltb_lt in Hsmall. rewrite Hsmall.
    pose proof (byteZ_range n).
    destruct sg.
    + by rewrite mpint_small_signed.
    + by rewrite mpint_small_unsigned.
Qed.

(** *** C5: [mpfloat] *)

(** The claim has [mpfloat] read a varint exponent after every mantissa.
    On the bytes [0x00 0x05] for a float64, the mantissa is 0 and the byte
    [0x05], a well-formed varint, is left unread. *)
Lemma mpfloat_zero_counterexample :
  let r := newReader None [x00; x05] in
  let st := emptyState 1 in
  ¬ (∃ mant r1 st1 exp rest,
       mpint float64T r st = Ok mant r1 st1 ∧
       ReadVarint (declReader r1) = (exp, None, rest) ∧
       mpfloat float64T r st
       = Ok (floatVal (SetMantExp (inject_Z mant) exp))
           (set_declReader r1 rest) st1).
Proof.
  intros r st (mant & r1 & st1 & exp & rest & Hm & Hv & Hf).
  vm_compute in Hm. injection Hm as <- <- <-.
  vm_compute in Hv. injection Hv as <- <-.
  vm_compute in Hf. discriminate Hf.
Qed.

(** C5 (importReader.mpfloat), amended.  [mpfloat] reads an [mpint]
    mantissa; when the mantissa is not zero it then reads a varint
    exponent and yields mantissa × 2^exponent; when the mantissa is zero it
    reads no exponent and yields zero. *)
Theorem mpfloat_value (typ : Basic) (r : importReader) (st : state)
    (mant : Z) (r1 : importReader) (st1 : state) :
  mpint typ r st = Ok mant r1 st1 →
  (mant = 0 → mpfloat typ r st = Ok (floatVal (inject_Z 0)) r1 st1) ∧
  (mant ≠ 0 →
   ∀ exp rest,
     ReadVarint (declReader r1) = (exp, None, rest) →
     mpfloat typ r st
     = Ok (floatVal (inject_Z mant * Qpower 2 exp)%Q) (set_declReader r1 rest) st1).
Proof.
  intros Hm. unfold mpfloat. munfold. rewrite Hm. split.
  - intros ->. done.
  - intros Hne exp rest Hexp. apply Z.eqb_neq in Hne. rewrite Hne.
    unfold int64_. cbn [negb]. cbv beta iota. rewrite Hexp. done.
Qed.

(** *** C6: the version check of [iImportData] *)

Lemma lor_uint64_range (a b : Z) :
  0 ≤ a < 2 ^ 64 → 0 ≤ b < 2 ^ 64 → 0 ≤ Z.lor a b < 2 ^ 64.
Proof.
  intros Ha Hb.
  assert (0 ≤ Z.lor a b) as Hnn by (apply Z.lor_nonneg; lia).
  split; [done|].
  destruct (decide (Z.lor a b = 0)) as [->|Hz]; [done|].
  apply Z.log2_lt_pow2; [lia|]. rewrite Z.log2_lor by lia.
  assert (∀ c, 0 ≤ c < 2 ^ 64 → Z.log2 c < 64) as Hlog.
  { intros c Hc. destruct (decide (c = 0)) as [->|?]; [done|].
    apply Z.log2_lt_pow2; lia. }
  pose proof (Hlog a Ha). pose proof (Hlog b Hb). lia.
Qed.

Lemma uint64_range (z : Z) : 0 ≤ uint64 z < 2 ^ 64.
Proof. unfold uint64. apply Z.mod_pos_bound. done. Qed.

Lemma ReadUvarint_loop_range n i x s r v err rest :
  0 ≤ x < 2 ^ 64 →
  ReadUvarint_loop n i x s r = (v, err, rest) → 0 ≤ v < 2 ^ 64.
Proof.
  revert i x s r. induction n as [|n IH]; intros i x s r Hx; simpl.
  - by intros [= <- _ _].
  - destruct r as [|b r]; [by intros [= <- _ _]|].
    destruct (byteZ b <? 128).
    + destruct ((i =? MaxVarintLen64 - 1) && (1 <? byteZ b)).
      * by intros [= <- _ _].
      * intros [= <- _ _]. apply lor_uint64_range; [done|apply uint64_range].
    + apply IH. apply lor_uint64_range; [done|apply uint64_range].
Qed.

Lemma ReadUvarint_range r v err rest :
  ReadUvarint r = (v, err, rest) → 0 ≤ v < 2 ^ 64.
Proof. apply ReadUvarint_loop_range. done. Qed.

(** The claim reads "the version read" as the uvarint.  The ten bytes
    below encode the uvarint [2^63], which exceeds the current version 1;
    stored in the [int64] variable [version] it is negative, and the
    error is the version-skew one. *)
Lemma iImportData_version_counterexample :
  let data := [x80; x80; x80; x80; x80; x80; x80; x80; x80; x01] in
  ReadUvarint data = (2 ^ 63, None, []) ∧
  iexportVersionCurrent < 2 ^ 63 ∧
  iImportData exampleEnv 0 [] [] ∅ data "p"
  = ImportFailed (VersionSkew "p" (UnknownVersion (- 2 ^ 63))).
Proof. vm_compute. done. Qed.

(** C6 (iImportData), amended.  For every input whose leading version
    uvarint is not 0 or 1, the import returns an error and no package;
    the error is the "newer version - update tool" one when the version,
    as the signed 64-bit value the importer keeps, exceeds the current
    version, and it is the "possibly version skew - reinstall package" one
    otherwise; and every other fault of the import gives the version-skew
    error. *)
Theorem iImportData_version_error (env : Env) (fuel : nat)
    (types0 : list tnode) (packages0 : list Package)
    (imports0 : gmap string pkgref) (dataReader : list byte) (path : string) :
  let out := iImportData env fuel types0 packages0 imports0 dataReader path in
  (∀ v rest,
     ReadUvarint dataReader = (v, None, rest) → v ≠ 0 → v ≠ 1 →
     out = ImportFailed
             (if iexportVersionCurrent <? int64 v
              then NewerVersion path (UnstableVersion (int64 v))
              else VersionSkew path (UnknownVersion (int64 v)))) ∧
  (∀ e, out = ImportFailed (NewerVersion path e) →
     ∃ v rest, ReadUvarint dataReader = (v, None, rest) ∧ v ≠ 0 ∧ v ≠ 1 ∧
               iexportVersionCurrent < int64 v).
Proof.
  intros out. subst out. unfold iImportData.
  destruct (ReadUvarint dataReader) as [[v err] rest] eqn:Hread.
  pose proof (ReadUvarint_range _ _ _ _ Hread) as Hv.
  assert (int64 v = if decide (v < 2 ^ 63) then v else v - 2 ^ 64) as Hint.
  { unfold int64. destruct (decide (v < 2 ^ 63)).
    - rewrite Z.mod_small; lia.
    - replace (v + 2 ^ 63) with (v - 2 ^ 63 + 1 * 2 ^ 64) by lia.
      rewrite Z.mod_add by done. rewrite Z.mod_small; lia. }
  split.
  - intros v' rest' [= <- -> <-] H0 H1.
    assert ((int64 v =? iexportVersionPosCol) = false) as ->.
    { apply Z.eqb_neq. rewrite Hint. unfold iexportVersionPosCol.
      destruct (decide _); lia. }
    assert ((int64 v =? iexportVersionGo1_11) = false) as ->.
    { apply Z.eqb_neq. rewrite Hint. unfold iexportVersionGo1_11.
      destruct (decide _); lia. }
    simpl orb. cbv iota. unfold recovered.
    change iexportVersionGenerics with iexportVersionCurrent.
    by destruct (iexportVersionCurrent <? int64 v).
  - intros e. destruct err as [err|].
    { unfold recovered. simpl. discriminate. }
    destruct ((int64 v =? iexportVersionPosCol) || (int64 v =? iexportVersionGo1_11))
      eqn:Hknown.
    + apply orb_true_iff in Hknown as [Hk|Hk]; apply Z.eqb_eq in Hk;
        rewrite Hk; destruct (importBody _ _ _ _ _ _); unfold recovered; simpl;
        discriminate.
    + apply orb_false_iff in Hknown as [Hk1 Hk2].
      apply Z.eqb_neq in Hk1, Hk2.
      unfold iexportVersionPosCol, iexportVersionGo1_11 in *.
      change iexportVersionGenerics with iexportVersionCurrent.
      unfold recovered.
      destruct (iexportVersionCurrent <? int64 v) eqn:Hgt; [|discriminate].
      intros _. exists v, rest. apply Z.ltb_lt in Hgt.
      split; [done|]. rewrite Hint in Hk1, Hk2. rewrite Hint.
      destruct (decide (v < 2 ^ 63)); repeat split; try lia.
      all: rewrite Hint in Hgt; destruct (decide (v < 2 ^ 63)); try lia.
      all: unfold iexportVersionCurrent, iexportVersionGenerics,
             iexportVersionPosCol in Hgt; lia.
Qed.

(** *** C10: the subscript of a type parameter *)

(** Case analysis on every [match] and [if] of a hypothesis that states
    the result of a reader. *)
Ltac minv H :=
  repeat match type of H with
         | context [match ?x with _ => _ end] =>
             lazymatch x with
             | context [match _ with _ => _ end] => fail
             | _ => destruct x eqn:?
             end
         end;
  try discriminate H.

Lemma parseSubscript_fold_zero (l : list (Z * Z)) (startsub : Z) :
  (∀ ir, ir ∈ l → isSubscriptDigit ir.2 = true → ir.2 = sub0) →
  (fold_left parseSubscript_step l (0, startsub)).1 = 0.
Proof.
  revert startsub. induction l as [|[i r] l IH]; intros startsub Hl; [done|].
  simpl. destruct (isSubscriptDigit r) eqn:Hr.
  - assert (r = sub0) as ->.
    { exact (Hl (i, r) ltac:(by left) Hr). }
    rewrite Z.sub_diag.
    change (uint64 (0 * 10 + uint64 0)) with 0.
    apply IH. intros ir Hin. apply Hl. by right.
  - apply IH. intros ir Hin. apply Hl. by right.
Qed.

Lemma parseSubscript_zero (name : string) :
  (∀ ir, ir ∈ runes name → isSubscriptDigit ir.2 = true → ir.2 = sub0) →
  (parseSubscript name).2 = 0.
Proof.
  intros Hl. unfold parseSubscript.
  pose proof (parseSubscript_fold_zero (runes name) (-1) Hl) as H.
  destruct (fold_left _ _ _) as [sub startsub]. simpl in *. by subst.
Qed.

Lemma subscriptsAreZero_runes name :
  subscriptsAreZero name = true →
  ∀ ir, ir ∈ runes name → isSubscriptDigit ir.2 = true → ir.2 = sub0.
Proof.
  unfold subscriptsAreZero. rewrite forallb_forall.
  intros H ir Hin%list_elem_of_In Hd. specialize (H ir Hin).
  rewrite Hd in H. simpl in H. by apply Z.eqb_eq.
Qed.

Lemma stringAt_exportVersion off r st s r' st' :
  stringAt off r st = Ok s r' st' →
  exportVersion (p st') = exportVersion (p st).
Proof.
  unfold stringAt. munfold. intros H. minv H; by simplify_eq.
Qed.

Lemma string_exportVersion r st s r' st' :
  string_ r st = Ok s r' st' →
  exportVersion (p st') = exportVersion (p st).
Proof.
  unfold string_, uint64_. munfold. intros H. minv H.
  simplify_eq. by eapply stringAt_exportVersion.
Qed.

Lemma pos_exportVersion env r st ps r' st' :
  pos env r st = Ok ps r' st' →
  exportVersion (p st') = exportVersion (p st).
Proof.
  unfold pos, posv0, posv1, int64_. munfold. intros H.
  minv H; simplify_eq; try done;
    match goal with
    | Hs : string_ _ _ = Ok _ _ _ |- _ => by apply string_exportVersion in Hs
    end.
Qed.

(** With a version that does not know type parameters, the declaration of
    a type parameter without a subscript raises the "unexpected type param
    type" error, not the "missing subscript" one. *)
Lemma typeParam_subscript_counterexample :
  (parseSubscript "T").2 = 0 ∧
  obj exampleEnv 0 (run exampleEnv 0) "T"
    (newReader None ["P"%byte; x00]) (emptyState 0)
  = Panic UnexpectedTypeParamType.
Proof. vm_compute. done. Qed.

(** C10 (parseSubscript, importReader.obj), amended.  [parseSubscript]
    returns the subscript 0 for a name whose subscript digits, if it has
    any, are all the digit zero: so both for a name without subscript and
    for a name that ends in the digit zero.  For such a name a declaration
    of tag ['P'] is never imported: once its position is read, the importer
    raises the "missing subscript" error when the export version is at
    least [iexportVersionGenerics], and the "unexpected type param type"
    error when it is older. *)
Theorem typeParam_subscript_zero (env : Env) (fuel : nat) (rec : Rec)
    (name : string) (r : importReader) (st : state) (data : list byte) :
  subscriptsAreZero name = true →
  declReader r = "P"%byte :: data →
  (parseSubscript name).2 = 0 ∧
  (∀ a r' st', obj env fuel rec name r st ≠ Ok a r' st') ∧
  (∀ ps r1 st1,
     pos env (set_declReader r data) st = Ok ps r1 st1 →
     obj env fuel rec name r st
     = Panic (if exportVersion (p st) <? iexportVersionGenerics
              then UnexpectedTypeParamType else MissingSubscript)).
Proof.
  intros Hname Hr.
  pose proof (parseSubscript_zero name (subscriptsAreZero_runes name Hname))
    as Hsub.
  assert (∀ ps r1 st1,
            pos env (set_declReader r data) st = Ok ps r1 st1 →
            obj env fuel rec name r st
            = Panic (if exportVersion (p st) <? iexportVersionGenerics
                     then UnexpectedTypeParamType else MissingSubscript))
    as Hobj.
  { intros ps r1 st1 Hpos.
    pose proof (pos_exportVersion _ _ _ _ _ _ Hpos) as Hver.
    unfold obj, byte_. munfold. rewrite Hr.
    change (byteZ "P") with 80. rewrite Hpos. simpl.
    unfold obj_typeParam. munfold. rewrite Hver.
    destruct (exportVersion (p st) <? iexportVersionGenerics); [done|].
    destruct (parseSubscript name) as [name0 sub]. simpl in Hsub. subst sub.
    done. }
  split; [done|]. split; [|done].
  intros a r' st' Hok.
  destruct (pos env (set_declReader r data) st) as [ps r1 st1| |] eqn:Hpos.
  - rewrite (Hobj _ _ _ eq_refl) in Hok. discriminate.
  - revert Hok. unfold obj, byte_. munfold. rewrite Hr, Hpos. discriminate.
  - revert Hok. unfold obj, byte_. munfold. rewrite Hr, Hpos. discriminate.
Qed.

(** *** C2: type declarations and the invariant on underlying types *)

Lemma I2_alloc h nd : I2 h → underlyingOf nd = None → I2 (h ++ [nd]).
Proof.
  intros HI Hnd r n u Hr Hu.
  apply lookup_app_Some in Hr as [Hr | [Hlen Hr]].
  - destruct (HI r n u Hr Hu) as (nu & Hnu & Hk).
    exists nu. split; [|done]. by apply lookup_app_l_Some.
  - apply list_lookup_singleton_Some in Hr as [_ <-]. congruence.
Qed.

Lemma lookup_alter_Some (f : tnode → tnode) t (h : list tnode) i x :
  alter f t h !! i = Some x →
  ∃ x0, h !! i = Some x0 ∧ (x = x0 ∨ (i = t ∧ x = f x0)).
Proof.
  destruct (decide (t = i)) as [->|Hne].
  - rewrite list_lookup_alter_eq. destruct (h !! i) as [x0|]; [|done].
    intros [= <-]. eauto.
  - rewrite list_lookup_alter_ne by done. eauto.
Qed.

Lemma lookup_alter_Some_2 (f : tnode → tnode) t (h : list tnode) i x0 :
  h !! i = Some x0 →
  ∃ x, alter f t h !! i = Some x ∧ (x = x0 ∨ (i = t ∧ x = f x0)).
Proof.
  intros Hi. destruct (decide (t = i)) as [->|Hne].
  - rewrite list_lookup_alter_eq, Hi. simpl. eauto.
  - rewrite list_lookup_alter_ne by done. eauto.
Qed.

Lemma I2_alter_shape h t f : I2 h → keepsShape f → I2 (alter f t h).
Proof.
  intros HI Hf r n u Hr Hu.
  apply lookup_alter_Some in Hr as (n0 & Hn0 & Hn).
  assert (underlyingOf n0 = Some u) as Hu0.
  { destruct Hn as [-> | [_ ->]]; [done|]. by rewrite <- (proj1 (proj2 (Hf n0))). }
  destruct (HI r n0 u Hn0 Hu0) as (nu & Hnu & Hk).
  destruct (lookup_alter_Some_2 f t h u nu Hnu) as (nu' & Hnu' & Hx).
  exists nu'. split; [done|].
  destruct Hx as [-> | [_ ->]]; [done|]. by rewrite (proj1 (Hf nu)).
Qed.

Lemma Named_SetUnderlying_isNamed u n :
  isNamed (Named_SetUnderlying u n) = isNamed n.
Proof. by destruct n. Qed.

Lemma I2_SetUnderlying h t u :
  I2 h →
  (∀ u0, u = Some u0 → ∃ nu, h !! u0 = Some nu ∧ isNamed nu = false) →
  I2 (alter (Named_SetUnderlying u) t h).
Proof.
  intros HI Hu r n u' Hr Hu'.
  apply lookup_alter_Some in Hr as (n0 & Hn0 & Hn).
  assert (∃ nu, h !! u' = Some nu ∧ isNamed nu = false) as (nu & Hnu & Hk).
  { destruct Hn as [-> | [_ ->]]; [by eapply HI|].
    destruct n0; simpl in Hu'; try done. by apply Hu. }
  destruct (lookup_alter_Some_2 (Named_SetUnderlying u) t h u' nu Hnu)
    as (nu' & Hnu' & Hx).
  exists nu'. split; [done|].
  destruct Hx as [-> | [_ ->]]; [done|]. by rewrite Named_SetUnderlying_isNamed.
Qed.

(** **** Relations that every reader keeps

    [R] relates the state before a call to the state after it.  The
    readers are built from a few steps on the state; when each step is in
    [R], so is every call. *)

Lemma keepsShape_Named_SetTParams tps : keepsShape (Named_SetTParams tps).
Proof. by intros []. Qed.
Lemma keepsShape_Named_AddMethod m : keepsShape (Named_AddMethod m).
Proof. by intros []. Qed.
Lemma keepsShape_Signature_SetTParams tps : keepsShape (Signature_SetTParams tps).
Proof. by intros []. Qed.
Lemma keepsShape_Signature_SetRParams tps : keepsShape (Signature_SetRParams tps).
Proof. by intros []. Qed.
Lemma keepsShape_TypeParam_SetConstraint c : keepsShape (TypeParam_SetConstraint c).
Proof. by intros []. Qed.
Lemma keepsShape_Interface_Complete : keepsShape Interface_Complete.
Proof. by intros []. Qed.

Create HintDb keeps.

#[local] Hint Resolve keepsShape_Named_SetTParams keepsShape_Named_AddMethod
  keepsShape_Signature_SetTParams keepsShape_Signature_SetRParams
  keepsShape_TypeParam_SetConstraint keepsShape_Interface_Complete : keeps.

Section Keeps.

Variable env : Env.
Variable R : state → state → Prop.
Hypothesis HR : Kept env R.

Lemma keeps_ret {A} (a : A) : keeps R (mret a).
Proof. intros r st a' r' st'. munfold. intros [= _ _ <-]. apply (R_refl _ _ HR). Qed.

Lemma keeps_bind {A B} (m : M A) (k : A → M B) :
  keeps R m → (∀ a, keeps R (k a)) → keeps R (m ≫= k).
Proof.
  intros Hm Hk r st b r' st'. munfold.
  destruct (m r st) as [a r1 st1| |] eqn:Hrun; [|done..].
  intros Hrun'. eapply (R_trans _ _ HR); [by eapply Hm|by eapply Hk].
Qed.

Lemma keeps_errorf {A} e : keeps R (@errorf A e).
Proof. by intros r st a r' st'. Qed.

Lemma keeps_outOfFuel {A} : keeps R (@outOfFuel A).
Proof. by intros r st a r' st'. Qed.

(** A reader that leaves the state as it is. *)
Lemma keeps_frame {A} (m : M A) :
  (∀ r st a r' st', m r st = Ok a r' st' → st' = st) → keeps R m.
Proof.
  intros Hm r st a r' st' Hrun. rewrite (Hm _ _ _ _ _ Hrun).
  apply (R_refl _ _ HR).
Qed.

Lemma keeps_getState : keeps R getState.
Proof. apply keeps_frame. munfold. by intros ????? [= _ _ <-]. Qed.

Lemma keeps_getReader : keeps R getReader.
Proof. apply keeps_frame. munfold. by intros ????? [= _ _ <-]. Qed.

Lemma keeps_putReader r0 : keeps R (putReader r0).
Proof. apply keeps_frame. munfold. by intros ????? [= _ _ <-]. Qed.

Lemma keeps_modifyState f : (∀ st, R st (f st)) → keeps R (modifyState f).
Proof. intros Hf r st a r' st'. munfold. intros [= _ _ <-]. apply Hf. Qed.

Lemma keeps_modifyP f :
  (∀ q, typCache (f q) = typCache q) → keeps R (modifyP f).
Proof. intros Hf. apply keeps_modifyState. intros st. apply (R_p _ _ HR), Hf. Qed.

Lemma keeps_set_packages f :
  keeps R (modifyState (λ st, set_packages st (f st))).
Proof. apply keeps_modifyState. intros st. apply (R_packages _ _ HR). Qed.

Lemma keeps_set_imports f :
  keeps R (modifyState (λ st, set_imports st (f st))).
Proof. apply keeps_modifyState. intros st. apply (R_imports _ _ HR). Qed.

Lemma keeps_int64 : keeps R int64_.
Proof.
  apply keeps_frame. unfold int64_. intros r st a r' st' H. minv H. by simplify_eq.
Qed.

Lemma keeps_uint64 : keeps R uint64_.
Proof.
  apply keeps_frame. unfold uint64_. intros r st a r' st' H. minv H. by simplify_eq.
Qed.

Lemma keeps_byte : keeps R byte_.
Proof.
  apply keeps_frame. unfold byte_. intros r st a r' st' H. minv H. by simplify_eq.
Qed.

Lemma keeps_intReader_uint64 path : keeps R (intReader_uint64 path).
Proof.
  apply keeps_frame. unfold intReader_uint64. intros r st a r' st' H. minv H.
  by simplify_eq.
Qed.

Lemma keeps_makeSlice n : keeps R (makeSlice n).
Proof. unfold makeSlice. destruct (_ <=? _); [apply keeps_errorf|apply keeps_ret]. Qed.

Lemma keeps_alloc nd : underlyingOf nd = None → keeps R (alloc nd).
Proof.
  intros Hnd r st a r' st'. unfold alloc. intros [= _ _ <-].
  by apply (R_alloc _ _ HR).
Qed.

Lemma keeps_update t f : keepsShape f → keeps R (update t f).
Proof.
  intros Hf r st a r' st'. unfold update. munfold. intros [= _ _ <-].
  by apply (R_update _ _ HR).
Qed.

Lemma keeps_withReader {A} r0 (m : M A) : keeps R m → keeps R (withReader r0 m).
Proof.
  intros Hm r st a r' st'. unfold withReader.
  destruct (m r0 st) as [a1 r1 st1| |] eqn:Hrun; [|done..].
  intros [= _ _ <-]. by eapply Hm.
Qed.

Lemma keeps_repeatM {A} fuel n (body : M A) :
  keeps R body → keeps R (repeatM fuel n body).
Proof.
  intros Hbody. revert n. induction fuel as [|fuel IH]; intros n; simpl.
  - destruct (n <=? 0); [apply keeps_ret|apply keeps_outOfFuel].
  - destruct (n <=? 0); [apply keeps_ret|].
    apply keeps_bind; [done|]. intros x.
    apply keeps_bind; [apply IH|]. intros xs. apply keeps_ret.
Qed.

Lemma keeps_sequenceM_ {A} (f : A → M unit) l :
  (∀ a, keeps R (f a)) → keeps R (sequenceM_ f l).
Proof.
  intros Hf. induction l as [|a l IH]; simpl.
  - apply keeps_ret.
  - apply keeps_bind; [apply Hf|]. by intros _.
Qed.

Lemma keeps_Instantiate b targs : keeps R (Instantiate_ env b targs).
Proof.
  intros r st a r' st'. unfold Instantiate_.
  destruct (Instantiate env (types st) b targs) as [[h t]|] eqn:E; [|done].
  intros [= _ _ <-]. by eapply (R_Instantiate _ _ HR).
Qed.

#[local] Hint Resolve keeps_ret keeps_errorf keeps_outOfFuel keeps_getState
  keeps_getReader keeps_putReader keeps_int64 keeps_uint64
  keeps_byte keeps_intReader_uint64 keeps_makeSlice keeps_update
  keeps_Instantiate keeps_set_packages keeps_set_imports : keeps.

#[local] Hint Extern 1 (keeps _ (alloc _)) =>
  apply keeps_alloc; reflexivity : keeps.
#[local] Hint Extern 1 (keeps _ (modifyP _)) =>
  apply keeps_modifyP; intros; reflexivity : keeps.

(** Follows the structure of a reader: binds, loops, conditionals and
    matches. *)
Ltac keeps_step :=
  match goal with
  | |- keeps _ (mbind _ _) => apply keeps_bind; [|intros ?]
  | |- keeps _ (repeatM _ _ _) => apply keeps_repeatM
  | |- keeps _ (withReader _ _) => apply keeps_withReader
  | |- keeps _ (sequenceM_ _ _) => apply keeps_sequenceM_; intros ?
  | |- keeps _ (if ?b then _ else _) => destruct b
  | |- keeps _ (match ?x with _ => _ end) => destruct x
  | |- keeps _ _ => solve [eauto with keeps]
  end.

Ltac keeps_tac := repeat keeps_step.

Lemma keeps_bool : keeps R bool_.
Proof. unfold bool_. keeps_tac. Qed.

Lemma keeps_stringAt off : keeps R (stringAt off).
Proof. unfold stringAt. keeps_tac. Qed.

#[local] Hint Resolve keeps_bool keeps_stringAt : keeps.

Lemma keeps_pkgAt off : keeps R (pkgAt off).
Proof. unfold pkgAt. keeps_tac. Qed.

#[local] Hint Resolve keeps_pkgAt : keeps.

Lemma keeps_pkg : keeps R pkg_.
Proof. unfold pkg_. keeps_tac. Qed.

Lemma keeps_string : keeps R string_.
Proof. unfold string_. keeps_tac. Qed.

#[local] Hint Resolve keeps_pkg keeps_string : keeps.

Lemma keeps_ident : keeps R ident_.
Proof. apply keeps_string. Qed.

Lemma keeps_qualifiedIdent : keeps R qualifiedIdent.
Proof. unfold qualifiedIdent. keeps_tac. Qed.

Lemma keeps_Package_Name pkg : keeps R (Package_Name pkg).
Proof. unfold Package_Name. keeps_tac. Qed.

Lemma keeps_declare o : keeps R (declare o).
Proof. unfold declare. keeps_tac. Qed.

Lemma keeps_NewPackage path name : keeps R (NewPackage path name).
Proof.
  intros r st a r' st'. unfold NewPackage. intros [= _ _ <-].
  apply (R_packages _ _ HR).
Qed.

#[local] Hint Resolve keeps_ident keeps_qualifiedIdent keeps_Package_Name
  keeps_declare keeps_NewPackage : keeps.

Lemma keeps_pos : keeps R (pos env).
Proof. unfold pos, posv0, posv1. keeps_tac. Qed.

Lemma keeps_mpint typ : keeps R (mpint typ).
Proof. unfold mpint. keeps_tac. Qed.

#[local] Hint Resolve keeps_pos keeps_mpint : keeps.

Lemma keeps_mpfloat typ : keeps R (mpfloat typ).
Proof. unfold mpfloat. keeps_tac. Qed.

Lemma keeps_Underlying_ t : keeps R (Underlying_ env t).
Proof. unfold Underlying_. keeps_tac. Qed.

Lemma keeps_NewNamedStub pos pkg name : keeps R (NewNamedStub pos pkg name).
Proof. unfold NewNamedStub. keeps_tac. Qed.

Lemma keeps_NewTypeParamStub pos pkg name : keeps R (NewTypeParamStub pos pkg name).
Proof. unfold NewTypeParamStub. keeps_tac. Qed.

Lemma keeps_allocT nd : underlyingOf nd = None → keeps R (allocT nd).
Proof.
  intros Hnd. unfold allocT. apply keeps_bind; [by apply keeps_alloc|].
  eauto with keeps.
Qed.

#[local] Hint Resolve keeps_mpfloat keeps_Underlying_ keeps_NewNamedStub
  keeps_NewTypeParamStub : keeps.
#[local] Hint Extern 1 (keeps _ (allocT _)) =>
  apply keeps_allocT; reflexivity : keeps.

Section KeepsReaders.

Variable fuel : nat.
Variable rec : Rec.
Hypothesis Hrec_doDecl : ∀ pkg name, keeps R (rec_doDecl rec pkg name).
Hypothesis Hrec_typAt : ∀ off base, keeps R (rec_typAt rec off base).

Lemma keeps_typ : keeps R (typ rec).
Proof. unfold typ. keeps_tac. Qed.

#[local] Hint Resolve keeps_typ : keeps.

Lemma keeps_param : keeps R (param env rec).
Proof. unfold param. keeps_tac. Qed.

#[local] Hint Resolve keeps_param : keeps.

Lemma keeps_paramList : keeps R (paramList env fuel rec).
Proof. unfold paramList. keeps_tac. Qed.

#[local] Hint Resolve keeps_paramList : keeps.

Lemma keeps_signature recv : keeps R (signature env fuel rec recv).
Proof. unfold signature. keeps_tac. Qed.

Lemma keeps_tparamList : keeps R (tparamList fuel rec).
Proof. unfold tparamList. keeps_tac. Qed.

#[local] Hint Resolve keeps_signature keeps_tparamList : keeps.

Lemma keeps_value : keeps R (value env rec).
Proof. unfold value. keeps_tac. Qed.

Lemma keeps_field : keeps R (field env rec).
Proof. unfold field. keeps_tac. Qed.

Lemma keeps_interfaceMethod base : keeps R (interfaceMethod env fuel rec base).
Proof. unfold interfaceMethod. keeps_tac. Qed.

#[local] Hint Resolve keeps_value keeps_field keeps_interfaceMethod : keeps.

Lemma keeps_doType base : keeps R (doType env fuel rec base).
Proof. unfold doType. keeps_tac. Qed.

#[local] Hint Resolve keeps_doType : keeps.

Lemma keeps_typAt_decode off base : keeps R (typAt_decode env fuel rec off base).
Proof. unfold typAt_decode. keeps_tac. Qed.

(** The store of [typAt] is made for an offset that was not in the cache
    when [typAt] was called, or that held an interface asked for a
    [base]. *)
Lemma keeps_typAt_body off base : keeps R (typAt_body env fuel rec off base).
Proof.
  assert (∀ r st (t : Type_) r' st',
            (typCache (p st) !! off = None ∨
             ∃ t0, typCache (p st) !! off = Some t0 ∧
                   bool_decide (base = None) || negb (isInterface st t0) = false) →
            typAt_miss env fuel rec off base r st = Ok t r' st' → R st st')
    as Hmiss.
  { intros r st t r' st' Hpre. unfold typAt_miss. munfold.
    destruct (typAt_decode env fuel rec off base r st) as [t0 r0 st0| |] eqn:Hdec;
      [|done..].
    pose proof (keeps_typAt_decode _ _ _ _ _ _ _ Hdec) as H0.
    destruct (bool_decide (base = None) || negb (isInterface st0 t0)).
    - intros [= _ _ <-]. by eapply (R_store _ _ HR).
    - by intros [= _ _ <-]. }
  intros r st t r' st'. unfold typAt_body. munfold.
  destruct (typCache (p st) !! off) as [t0|] eqn:Hc.
  - destruct (bool_decide (base = None) || negb (isInterface st t0)) eqn:Hcond.
    + intros [= _ _ <-]. apply (R_refl _ _ HR).
    + apply Hmiss. right. eauto.
  - apply Hmiss. by left.
Qed.

Lemma keeps_namedMethod named : keeps R (namedMethod env fuel rec named).
Proof. unfold namedMethod. keeps_tac. Qed.

#[local] Hint Resolve keeps_namedMethod : keeps.

Lemma keeps_obj_typeStub tag pos name : keeps R (obj_typeStub fuel rec tag pos name).
Proof. unfold obj_typeStub, declareStub. keeps_tac. Qed.

(** [named.SetUnderlying(underlying)] with the result of [Underlying()] *)
Lemma keeps_SetUnderlying {A} named t (k : Type_ → M A) :
  (∀ u, keeps R (k u)) →
  keeps R (underlying ← Underlying_ env t;
         update named (Named_SetUnderlying underlying);;
         k underlying).
Proof.
  intros Hk r st a r' st'. unfold Underlying_, update. munfold.
  destruct t as [ref|]; [|done].
  intros Hrun. eapply (R_trans _ _ HR); [|eapply Hk; exact Hrun].
  apply (R_SetUnderlying _ _ HR).
Qed.

Lemma keeps_obj_typeBody named : keeps R (obj_typeBody env fuel rec named).
Proof.
  unfold obj_typeBody.
  apply keeps_bind; [eauto with keeps|]. intros off.
  apply keeps_bind; [eauto with keeps|]. intros t.
  apply keeps_SetUnderlying. intros u. keeps_tac.
Qed.

Lemma keeps_obj_typeParam pos name : keeps R (obj_typeParam rec pos name).
Proof. unfold obj_typeParam. keeps_tac. Qed.

#[local] Hint Resolve keeps_obj_typeStub keeps_obj_typeBody
  keeps_obj_typeParam : keeps.

Lemma keeps_obj name : keeps R (obj env fuel rec name).
Proof. unfold obj. keeps_tac. Qed.

#[local] Hint Resolve keeps_obj : keeps.

Lemma keeps_doDecl_body pkg name : keeps R (doDecl_body env fuel rec pkg name).
Proof. unfold doDecl_body. keeps_tac. Qed.

End KeepsReaders.

(** Every call of [doDecl] and of [typAt] is in [R]. *)
Lemma keeps_run fuel :
  (∀ pkg name, keeps R (rec_doDecl (run env fuel) pkg name)) ∧
  (∀ off base, keeps R (rec_typAt (run env fuel) off base)).
Proof.
  induction fuel as [|fuel [IH1 IH2]]; simpl.
  - split; intros; apply keeps_outOfFuel.
  - split; intros.
    + by apply keeps_doDecl_body.
    + by apply keeps_typAt_body.
Qed.

Lemma keeps_doDecl fuel pkg name : keeps R (doDecl env fuel pkg name).
Proof. apply keeps_run. Qed.

Lemma keeps_typAt fuel off base : keeps R (typAt env fuel off base).
Proof. apply keeps_run. Qed.

Lemma keeps_pkgEntry fuel path : keeps R (pkgEntry fuel path).
Proof. unfold pkgEntry. keeps_tac. Qed.

#[local] Hint Resolve keeps_doDecl keeps_pkgEntry : keeps.

(** [iImportData] builds its importer from nothing: for [importBody], [R]
    has to allow any change of the importer. *)
Hypothesis HR_init : ∀ st q, R st (set_p st q).

Lemma keeps_importBody fuel version path :
  keeps R (importBody env fuel version path).
Proof.
  unfold importBody. keeps_tac.
  apply keeps_modifyState. intros st. apply HR_init.
Qed.

End Keeps.

(** **** I2 is kept *)

Lemma R_I2_Kept env : UnderlyingOK env → InstantiateOK env → Kept env R_I2.
Proof.
  intros HU HI. split; unfold R_I2; simpl; try done.
  - intros st1 st2 st3 H12 H23 H. by apply H23, H12.
  - intros st nd Hnd H. by apply I2_alloc.
  - intros st t f Hf H. by apply I2_alter_shape.
  - intros st named ref H. apply I2_SetUnderlying; [done|].
    intros u0 Hu0. by eapply HU.
  - intros st b targs h t Hinst H. by eapply HI.
Qed.

Lemma importBody_I2 env fuel version path r st pkg r' st' :
  UnderlyingOK env → InstantiateOK env →
  importBody env fuel version path r st = Ok pkg r' st' →
  I2 (types st) → I2 (types st').
Proof.
  intros HU HI.
  apply (keeps_importBody env R_I2 (R_I2_Kept env HU HI)). by intros ?? H.
Qed.

Lemma declareStub_Ok tparams ps name r st named r' st' :
  declareStub tparams ps name r st = Ok named r' st' →
  ∃ pkg,
    currPkg r = Some pkg ∧ r' = r ∧ named = length (types st) ∧
    types st' = types st ++ [Named (stubName ps pkg name named) None [] tparams []] ∧
    (is_Some (packages st !! pkg) → Lookup st pkg name = None →
     Lookup st' pkg name = Some (TypeNameObj (stubName ps pkg name named))).
Proof.
  unfold declareStub, NewNamedStub, alloc, update, declare. munfold. simpl.
  destruct (currPkg r) as [pkg|] eqn:Hpkg; [|done]. simpl.
  intros [= <- <- <-]. exists pkg. split_and!; try done.
  - simpl. rewrite alter_app_r_alt, Nat.sub_diag by done. done.
  - intros [pk Hpk] Hnew. unfold Lookup in *. simpl.
    unfold pkgref in *. rewrite Hpk in Hnew. simpl in Hnew.
    rewrite list_lookup_alter_eq, Hpk. simpl.
    unfold Scope_Insert. simpl. rewrite Hnew. simpl. apply lookup_insert_eq.
Qed.

Lemma obj_typeBody_Ok env fuel rec named r st r' st' :
  obj_typeBody env fuel rec named r st = Ok tt r' st' →
  ∃ off r1 t r2 st2,
    uint64_ r st = Ok off r1 st ∧
    rec_typAt rec off (Some named) r1 st = Ok (Some t) r2 st2 ∧
    let u := Underlying env (types st2) t in
    let st3 := set_types st2 (alter (Named_SetUnderlying u) named (types st2)) in
    if isInterface st3 u then r' = r2 ∧ st' = st3
    else ∃ n r3 ms,
        uint64_ r2 st3 = Ok n r3 st3 ∧
        repeatM fuel n (namedMethod env fuel rec named) r3 st3 = Ok ms r' st'.
Proof.
  unfold obj_typeBody, Underlying_, update. munfold.
  destruct (uint64_ r st) as [off r1 st1| |] eqn:Hoff; [|done..].
  assert (st1 = st) as ->.
  { revert Hoff. unfold uint64_. intros H. minv H. by simplify_eq. }
  destruct (rec_typAt rec off (Some named) r1 st) as [[t|] r2 st2| |] eqn:Ht;
    [|done..].
  simpl. set (u := Underlying env (types st2) t).
  set (st3 := set_types st2 _).
  intros Hrun. exists off, r1, t, r2, st2. split; [done|]. split; [done|].
  simpl. fold u. fold st3.
  destruct (isInterface st3 u) eqn:Hi; simpl in Hrun.
  - by injection Hrun as <- <-.
  - destruct (uint64_ r2 st3) as [n r3 st4| |] eqn:Hn; [|done..].
    assert (st4 = st3) as ->.
    { revert Hn. unfold uint64_. intros H. minv H. by simplify_eq. }
    destruct (repeatM fuel n _ r3 st3) as [ms r4 st5| |] eqn:Hms; [|done..].
    injection Hrun as <- <-. eauto.
Qed.

Lemma obj_type_tag env fuel rec name (tag : byte) data r st :
  declReader r = tag :: data → tag = "T"%byte ∨ tag = "U"%byte →
  obj env fuel rec name r st
  = (ps ← pos env;
     named ← obj_typeStub fuel rec (byteZ tag) ps name;
     obj_typeBody env fuel rec named) (set_declReader r data) st.
Proof.
  intros Hr Htag. unfold obj, byte_. munfold. rewrite Hr.
  destruct (pos env (set_declReader r data) st) as [ps r1 st1| |]; [|done..].
  by destruct Htag as [-> | ->].
Qed.


(** *** C3: the type cache of [typAt] *)

Lemma isInterface_node st r n :
  types st !! r = Some n → isInterface st (Some r) = isInterfaceNode n.
Proof. unfold isInterface, node. simpl. intros ->. by destruct n. Qed.

Lemma settled_not_interface st t : settled st t → isInterface st t = false.
Proof.
  intros [-> | (r & n & -> & Hr & Hn)]; [done|].
  by rewrite (isInterface_node _ _ _ Hr).
Qed.

Lemma settled_kept st st' t : nodesKept st st' → settled st t → settled st' t.
Proof.
  intros HN [-> | (r & n & -> & Hr & Hn)]; [by left|].
  destruct (HN r n Hr) as (n' & Hr' & Hn'). right.
  exists r, n'. by rewrite Hn'.
Qed.

Lemma nodesKept_alter st t f :
  (∀ n, isInterfaceNode (f n) = isInterfaceNode n) →
  nodesKept st (set_types st (alter f t (types st))).
Proof.
  intros Hf r n Hr. simpl.
  destruct (lookup_alter_Some_2 f t (types st) r n Hr) as (n' & Hn' & Hx).
  exists n'. split; [done|]. destruct Hx as [-> | [_ ->]]; [done|apply Hf].
Qed.

Lemma R_cache_Kept env : InstantiateExtends env → Kept env R_cache.
Proof.
  intros HI. split.
  - intros st. split; [intros r n Hr; eauto|by intros off t Hc _].
  - intros st1 st2 st3 [N12 E12] [N23 E23]. split.
    + intros r n Hr. destruct (N12 r n Hr) as (n' & Hr' & Hn').
      destruct (N23 r n' Hr') as (n'' & Hr'' & Hn''). exists n''.
      split; [done|congruence].
    + intros off t Hc Hs. apply E23; [by apply E12|by eapply settled_kept].
  - intros st q Hq. split; [intros r n Hr; eauto|].
    intros off t Hc _. simpl. by rewrite Hq.
  - intros st ps. split; [intros r n Hr; eauto|by intros off t Hc _].
  - intros st m. split; [intros r n Hr; eauto|by intros off t Hc _].
  - intros st nd _. split; [|by intros off t Hc _].
    intros r n Hr. exists n. split; [|done]. simpl. by apply lookup_app_l_Some.
  - intros st t f Hf. split; [|by intros off t' Hc _].
    apply nodesKept_alter. intros n. apply Hf.
  - intros st named ref. split; [|by intros off t' Hc _].
    apply nodesKept_alter. by intros [].
  - intros st b targs h t Hinst. split; [|by intros off t' Hc _].
    intros r n Hr. simpl. by eapply HI.
  - intros st st1 off base t Hpre [N E]. split; [done|].
    intros off' t' Hc Hs. simpl.
    destruct (decide (off = off')) as [<-|Hne].
    + exfalso. destruct Hpre as [Hnone | (t0 & Ht0 & Hcond)]; [congruence|].
      assert (t0 = t') as -> by congruence.
      rewrite (settled_not_interface _ _ Hs), orb_true_r in Hcond. done.
    + rewrite lookup_insert_ne by done. by apply E.
Qed.



(** *** C7: [doDecl] on a name that is declared, and on a type parameter *)

(** The guard of [doDecl]: for a name that is in the scope of the package
    the call returns at once; it reads nothing and changes nothing. *)
Lemma doDecl_declared_noop env fuel pkg name o r st :
  Lookup st pkg name = Some o →
  doDecl env (S fuel) pkg name r st = Ok tt r st.
Proof.
  intros Ho. unfold doDecl. simpl. unfold doDecl_body. munfold. by rewrite Ho.
Qed.

(** C7 (iimporter.doDecl), at the failing input.  The first [doDecl] of the
    type parameter [T₁] succeeds and leaves [T₁] out of the scope of the
    package, so a second call is not stopped by the guard: it reads the
    declaration again, allocates a second type parameter and replaces the
    entry of the type-parameter index. *)
Theorem doDecl_typeparam_twice :
  let r := newReader None [] in
  let run1 := doDecl exampleEnv 10 0%nat T1 r genericState in
  let st1 := stateOf run1 genericState in
  let run2 := doDecl exampleEnv 10 0%nat T1 r st1 in
  let st2 := stateOf run2 st1 in
  run1 = Ok tt r st1 ∧ run2 = Ok tt r st2 ∧
  Lookup st1 0%nat T1 = None ∧
  tparamIndex (p st1) !! ("p"%string, T1) = Some (Some 0%nat) ∧
  tparamIndex (p st2) !! ("p"%string, T1) = Some (Some 2%nat) ∧
  length (types st1) = 2%nat ∧ length (types st2) = 3%nat ∧
  st2 ≠ st1.
Proof.
  intros r run1 st1 run2 st2.
  split_and!; by vm_compute.
Qed.

(** The same input through [iImportData]: the loop over the names of the
    index declares [T₁] a second time, after it was declared for [F]. *)
Example iImportData_typeparam_twice :
  let data := map B [1; 10; 16;
                     0; 1; 112; 1; 70; 4; 84; 226; 130; 129;
                     71; 0; 1; 38; 0; 0;  9; 5; 0;  80; 0; 44;  8; 0; 0; 0;
                     1; 0; 1; 0; 2; 3; 0; 5; 9] in
  match iImportData exampleEnv 20 [] [] ∅ data "p" with
  | Imported _ st =>
      typCache (p st) !! 38 = Some (Some 0%nat) ∧
      tparamIndex (p st) !! ("p"%string, T1) = Some (Some 3%nat) ∧
      length (types st) = 4%nat
  | _ => False
  end.
Proof. by vm_compute. Qed.

(** *** Instances of the theorems on concrete inputs *)

Lemma exampleEnv_UnderlyingOK : UnderlyingOK exampleEnv.
Proof.
  intros h t u. simpl. unfold exampleUnderlying.
  destruct (h !! t) as [n|] eqn:Ht; [|done].
  destruct n; try (intros [= <-]; by eauto).
  destruct underlying as [u0|]; [|done].
  destruct (h !! u0) as [nu|] eqn:Hu0; [|done].
  destruct nu; try done; intros [= <-]; by eauto.
Qed.

Lemma exampleEnv_InstantiateOK : InstantiateOK exampleEnv.
Proof. intros h b targs h' t. simpl. discriminate. Qed.

Lemma mpint_small_path_witness :
  mpint int64T (newReader None [x03]) (emptyState 1)
  = Ok (-2) (newReader None []) (emptyState 1).
Proof.
  destruct (mpint_small_path int64T x03 [] (newReader None [x03])
              (emptyState 1) eq_refl) as (_ & _ & H).
  apply H. by vm_compute.
Defined.

Lemma mpfloat_value_witness :
  mpfloat float64T (newReader None [x02; x06]) (emptyState 1)
  = Ok (floatVal (inject_Z 1 * Qpower 2 3)%Q) (newReader None []) (emptyState 1).
Proof.
  destruct (mpfloat_value float64T (newReader None [x02; x06]) (emptyState 1)
              1 (newReader None [x06]) (emptyState 1) eq_refl) as [_ H].
  apply (H ltac:(lia) 3 []). reflexivity.
Defined.

Lemma iImportData_version_error_witness :
  iImportData exampleEnv 0 [] [] ∅ [x02] "p"
  = ImportFailed (NewerVersion "p" (UnstableVersion 2)).
Proof.
  apply (proj1 (iImportData_version_error exampleEnv 0 [] [] ∅ [x02] "p") 2 []).
  - reflexivity.
  - lia.
  - lia.
Defined.

Lemma typeParam_subscript_zero_witness :
  (parseSubscript T0).2 = 0 ∧
  obj exampleEnv 0 (run exampleEnv 0) T0
    (newReader None ["P"%byte; x00]) (emptyState 1)
  = Panic MissingSubscript.
Proof.
  destruct (typeParam_subscript_zero exampleEnv 0 (run exampleEnv 0) T0
              (newReader None ["P"%byte; x00]) (emptyState 1) [x00])
    as (Hsub & _ & Hobj).
  - reflexivity.
  - reflexivity.
  - split; [exact Hsub|].
    apply (Hobj NoPos (newReader None []) (emptyState 1)). reflexivity.
Defined.

Lemma exampleEnv_InstantiateExtends : InstantiateExtends exampleEnv.
Proof. intros h b targs h' t. simpl. discriminate. Qed.



End ImporterFacts.

Module CheckerWitnesses.
Import Checker CheckerSpec CheckerFacts.

Lemma cycle_classification_witness :
  ∃ check' reports,
    cycle false (λ _ _, false) aliasCheck aliasX = Ok true check' ∧
    reported aliasCheck check' reports ∧ reports ≠ [] ∧
    Forall (λ r, r_code r = _InvalidDeclCycle) reports.
Proof.
  refine (proj2 (proj2 (cycle_classification false (λ _ _, false)
                          aliasCheck aliasX _ _ _ _)) _ _).
  - reflexivity.
  - by vm_compute.
  - by vm_compute.
  - repeat constructor. intros d. vm_compute. intros [= <-]. eauto.
  - by vm_compute.
  - vm_compute. lia.
Defined.

Lemma objDecl_grey_typed_witness :
  cycle false (λ _ _, false) constCheck constC = Ok false constCheck ∧
  ∃ check2,
    objDecl false (λ _ _, false)
      (λ c _ _, Ok tt c) (λ c _ _, Ok tt c) (λ c _ _ _, Ok tt c)
      (λ c _, Ok tt c) (λ c _ _, Ok tt c) constCheck constC None
    = Ok tt check2 ∧
    obj_Type check2 constC = Some Invalid.
Proof.
  split; [reflexivity|].
  refine (proj1 (objDecl_grey_typed false (λ _ _, false)
                   (λ c _ _, Ok tt c) (λ c _ _, Ok tt c) (λ c _ _ _, Ok tt c)
                   (λ c _, Ok tt c) (λ c _ _, Ok tt c) constCheck constC None
                   _ _) _ _ false constCheck _).
  - by vm_compute.
  - by vm_compute.
  - by left.
  - reflexivity.
  - reflexivity.
Defined.

Lemma walkDecl_const_inheritance_witness :
  emitted (walkDecl (GenDecl CONST [ValueSpec_ specA; ValueSpec_ specB;
                                    ValueSpec_ specC]))
  !! 2 = Some (constDecl_ specC 2 (Some 0) [1] true).
Proof.
  destruct (proj1 (walkDecl_const_inheritance
                     [ValueSpec_ specA; ValueSpec_ specB; ValueSpec_ specC])
              [ValueSpec_ specA; ValueSpec_ specB] specC [] eq_refl)
    as [_ H].
  apply (H eq_refl specA). reflexivity.
Defined.

(** S5: the three records of [const (a int = 1; b; c)]. *)
Example walkDecl_S5 :
  emitted (walkDecl (GenDecl CONST [ValueSpec_ specA; ValueSpec_ specB;
                                    ValueSpec_ specC]))
  = [constDecl_ specA 0 (Some 0) [1] false;
     constDecl_ specB 1 (Some 0) [1] true;
     constDecl_ specC 2 (Some 0) [1] true].
Proof. reflexivity. Qed.

End CheckerWitnesses.

Module CheckerMore.
Import Checker Declarations CheckerSpec CheckerProps CheckerFacts.

Lemma firstInSrc_loop_spec rest : ∀ pre i fst pos o,
  length pre = S i →
  pre !! fst = Some o → obj_pos o = pos →
  (∀ j x, pre !! j = Some x → (pos ≤ obj_pos x)%Z) →
  (∀ j x, pre !! j = Some x → j < fst → (pos < obj_pos x)%Z) →
  let f := firstInSrc_loop rest i fst pos in
  ∃ obj, (pre ++ rest) !! f = Some obj ∧
    (∀ j x, (pre ++ rest) !! j = Some x → (obj_pos obj ≤ obj_pos x)%Z) ∧
    (∀ j x, (pre ++ rest) !! j = Some x → j < f → (obj_pos obj < obj_pos x)%Z).
Proof.
  induction rest as [|t rest IH]; intros pre i fst pos o Hlen Hfst Hpos Hmin Hlt; simpl.
  - rewrite app_nil_r. exists o. subst pos. eauto.
  - replace (pre ++ t :: rest) with ((pre ++ [t]) ++ rest) by by rewrite <- app_assoc.
    destruct (obj_pos t <? pos)%Z eqn:E.
    + apply Z.ltb_lt in E.
      apply (IH (pre ++ [t]) (S i) (i + 1) (obj_pos t) t).
      * rewrite length_app. simpl. lia.
      * rewrite lookup_app_r by lia. by replace (i + 1 - length pre) with 0 by lia.
      * done.
      * intros j x Hj. apply lookup_app_Some in Hj as [Hj|[_ Hj]].
        -- specialize (Hmin _ _ Hj). lia.
        -- apply list_lookup_singleton_Some in Hj as [_ <-]. lia.
      * intros j x Hj Hlt'. apply lookup_app_Some in Hj as [Hj|[Hge _]]; [|lia].
        specialize (Hmin _ _ Hj). lia.
    + apply Z.ltb_ge in E.
      apply (IH (pre ++ [t]) (S i) fst pos o).
      * rewrite length_app. simpl. lia.
      * apply lookup_app_l_Some. done.
      * done.
      * intros j x Hj. apply lookup_app_Some in Hj as [Hj|[_ Hj]]; [by eapply Hmin|].
        apply list_lookup_singleton_Some in Hj as [_ <-]. lia.
      * intros j x Hj Hlt'. apply lookup_app_Some in Hj as [Hj|[Hge _]]; [by eapply Hlt|].
        apply lookup_lt_Some in Hfst. lia.
Qed.

(** [firstInSrc]: for a path that is not empty, the index returned holds
    an object whose position no object of the path precedes, and it is the
    first such index: the objects before it come strictly later in the
    source. *)
Theorem firstInSrc_first_minimum (path : list Object) :
  path ≠ [] →
  ∃ i obj,
    firstInSrc path = Some i ∧ path !! i = Some obj ∧
    (∀ j x, path !! j = Some x → (obj_pos obj ≤ obj_pos x)%Z) ∧
    (∀ j x, path !! j = Some x → j < i → (obj_pos obj < obj_pos x)%Z).
Proof.
  destruct path as [|p0 rest]; [done|]. intros _. simpl firstInSrc.
  destruct (firstInSrc_loop_spec rest [p0] 0 0 (obj_pos p0) p0) as (obj & H1 & H2 & H3);
    try done.
  - intros j x Hj. apply list_lookup_singleton_Some in Hj as [_ <-]. lia.
  - intros j x _ Hj. lia.
  - exists (firstInSrc_loop rest 0 0 (obj_pos p0)), obj. eauto.
Qed.

Lemma firstInSrc_lookup (path : list Object) :
  path ≠ [] → ∃ i obj, firstInSrc path = Some i ∧ path !! i = Some obj.
Proof.
  destruct path as [|p0 rest]; [done|]. intros _. simpl firstInSrc.
  pose proof (firstInSrc_loop_le rest 0 0 (obj_pos p0) (le_n 0)) as Hle.
  destruct (lookup_lt_is_Some_2 (p0 :: rest) (firstInSrc_loop rest 0 0 (obj_pos p0)))
    as [obj Hobj]; [simpl; lia|].
  eauto.
Qed.

Lemma cycleError_loop_walk cycle check0 : ∀ n i obj check rs,
  cycle !! i = Some obj → i + n < length cycle → reported check0 check rs →
  ∀ m, ∃ obj' check',
    cycle !! (i + n) = Some obj' ∧
    reported check0 check' (rs ++ map refersTo (take n (drop i cycle))) ∧
    cycleError_loop cycle (n + m) i obj check
    = cycleError_loop cycle m (i + n) obj' check'.
Proof.
  induction n as [|n IH]; intros i obj check rs Hi Hlt Hrep m.
  - exists obj, check. rewrite Nat.add_0_r, app_nil_r. done.
  - simpl cycleError_loop.
    destruct (length cycle <=? i + 1) eqn:E; [apply Nat.leb_le in E; lia|].
    destruct (lookup_lt_is_Some_2 cycle (i + 1)) as [obj1 Hobj1]; [lia|].
    rewrite Hobj1.
    destruct (IH (i + 1) obj1
                (errorf check obj _InvalidDeclCycle
                   (String "009" (obj_name obj ++ " refers to")))
                (rs ++ [refersTo obj]) Hobj1 ltac:(lia)
                ltac:(by apply reported_errorf) m)
      as (obj' & check' & H1 & H2 & H3).
    exists obj', check'. replace (i + S n) with (i + 1 + n) by lia.
    split; [done|]. split; [|done].
    rewrite (drop_S _ _ _ Hi). simpl. rewrite <- app_assoc in H2. simpl in H2.
    by replace (S i) with (i + 1) by lia.
Qed.

(** [cycleError]: the reports for a cycle that is not empty are the
    headline at the object that comes first in the source, one line for
    each object of the cycle, in the order of the cycle from that object on
    and around, and a last line that names the first object again; the
    checker is otherwise left as it was. *)
Theorem cycleError_trail (check : Checker) (cycle : list Object) :
  cycle ≠ [] →
  ∃ i obj check',
    firstInSrc cycle = Some i ∧ cycle !! i = Some obj ∧
    cycleError check cycle = Ok tt check' ∧
    reported check check' (cycleReports obj (drop i cycle ++ take i cycle)).
Proof.
  intros Hne.
  destruct (firstInSrc_lookup cycle Hne) as (i & obj & Hf & Hi).
  pose proof (lookup_lt_Some _ _ _ Hi) as Hlt.
  unfold cycleError. rewrite Hf, Hi.
  set (check1 := errorf check obj _ _).
  assert (reported check check1
            [{| r_at := obj; r_code := _InvalidDeclCycle;
                r_msg := "illegal cycle in declaration of " ++ obj_name obj |}])
    as Hrep1 by apply (reported_errorf _ _ [] _ _ _ (reported_refl check)).
  (* from [i] to the last index *)
  destruct (cycleError_loop_walk cycle check (length cycle - 1 - i) i obj check1 _
              Hi ltac:(lia) Hrep1 (1 + i))
    as (objL & check2 & HL & Hrep2 & Heq).
  replace (length cycle - 1 - i + (1 + i)) with (length cycle) in Heq by lia.
  rewrite Heq. clear Heq.
  replace (i + (length cycle - 1 - i)) with (length cycle - 1) in * by lia.
  (* the step that wraps around *)
  simpl cycleError_loop.
  destruct (length cycle <=? length cycle - 1 + 1) eqn:E;
    [|apply Nat.leb_gt in E; lia].
  destruct (lookup_lt_is_Some_2 cycle 0) as [obj0 Hobj0]; [lia|].
  rewrite Hobj0.
  (* from 0 to [i] *)
  destruct (cycleError_loop_walk cycle check i 0 obj0
              (errorf check2 objL _InvalidDeclCycle
                 (String "009" (obj_name objL ++ " refers to"))) _
              Hobj0 ltac:(lia) (reported_errorf _ _ _ _ _ _ Hrep2) 0)
    as (obj' & check3 & Hi' & Hrep3 & Heq).
  rewrite Nat.add_0_r in Heq. rewrite Heq. clear Heq.
  simpl in Hi'. rewrite Hi in Hi'. injection Hi' as <-.
  simpl. exists i, obj, (errorf check3 obj _InvalidDeclCycle (String "009" (obj_name obj))).
  split_and!; try done.
  pose proof (reported_errorf _ _ _ obj _InvalidDeclCycle
                (String "009" (obj_name obj)) Hrep3) as Hrep4.
  unfold cycleReports.
  replace (drop i cycle) with
    (take (length cycle - 1 - i) (drop i cycle) ++ [objL]).
  - rewrite drop_0 in Hrep4. rewrite !map_app. simpl.
    rewrite <- !app_assoc in Hrep4. simpl in Hrep4.
    rewrite <- !app_assoc. simpl. exact Hrep4.
  - rewrite <- (take_drop (length cycle - 1 - i) (drop i cycle)) at 2.
    f_equal. rewrite drop_drop.
    replace (i + (length cycle - 1 - i)) with (length cycle - 1) by lia.
    rewrite (drop_S _ _ _ HL). rewrite drop_ge by lia. done.
Qed.

Section ObjDeclMore.

Variable debug : bool.
Variable IsAlias : Checker → Object → bool.
Variable constDecl : Checker → Object → declInfo → result unit.
Variable varDecl : Checker → Object → declInfo → result unit.
Variable typeDecl : Checker → Object → option TypeSpec → option nat → result unit.
Variable collectMethods : Checker → Object → result unit.
Variable funcDecl : Checker → Object → declInfo → result unit.

Local Abbreviation objDecl :=
  (objDecl debug IsAlias constDecl varDecl typeDecl collectMethods funcDecl).
Local Abbreviation objDecl_body :=
  (objDecl_body constDecl varDecl typeDecl collectMethods funcDecl).

Lemma objDecl_grey_reported check obj check' :
  objDecl_grey debug IsAlias check obj = Ok tt check' →
  ctxt check' = ctxt check ∧ objPath check' = objPath check ∧
  color_ check' = color_ check.
Proof.
  unfold objDecl_grey.
  assert (∀ b check1, cycle debug IsAlias check obj = Ok b check1 →
            ctxt check1 = ctxt check ∧ objPath check1 = objPath check ∧
            color_ check1 = color_ check) as Hc.
  { intros b check1 H. apply cycle_reported in H as (rs & H).
    destruct H as (_ & _ & ? & ? & _ & ? & _). done. }
  unfold assertTyped, assert.
  destruct (obj_kind obj); try done;
    (destruct (cycle debug IsAlias check obj) as [b check1|] eqn:E; [|done]);
    destruct (Hc _ _ eq_refl) as (H1 & H2 & H3); simpl.
  - destruct (b || _); simpl; destruct (bool_decide _); try done;
      intros [= <-]; simpl; done.
  - destruct (b || _); simpl; destruct (bool_decide _); try done;
      intros [= <-]; simpl; done.
  - destruct b; simpl; destruct (bool_decide _); try done;
      intros [= <-]; simpl; done.
  - destruct (bool_decide _); try done; intros [= <-]; simpl; done.
Qed.

(** [Checker.objDecl] saves the context of the checker and restores it:
    whatever the declaration bodies do to it, a call that returns leaves the
    context as it found it. *)
Theorem objDecl_restores_context (check : Checker) (obj : Object)
    (def : option nat) (check' : Checker) :
  objDecl check obj def = Ok tt check' → ctxt check' = ctxt check.
Proof.
  unfold Checker.objDecl.
  destruct ((obj_color check obj =? white)%Z && _).
  { by intros [= <-]. }
  destruct (obj_color check obj =? white)%Z.
  { unfold assert. destruct (bool_decide (obj_Type check obj = None)); [|done].
    simpl. unfold Checker.objDecl_body. simpl.
    destruct (objMap check !! obj_id obj) as [d|]; [|done].
    match goal with
    | |- bind (bind ?m _) _ = _ → _ => destruct m as [[] check1|]; [|done]
    end.
    simpl. unfold pop. simpl.
    destruct (last (objPath check1)) as [top|]; [|done]. simpl.
    by intros [= <-]. }
  destruct (obj_color check obj =? black)%Z.
  { unfold assertTyped, assert. destruct (bool_decide _); [|done].
    by intros [= <-]. }
  intros H. by apply objDecl_grey_reported in H as (? & _).
Qed.

(** The declaration bodies leave the object path as they find it. *)
Hypothesis constDecl_path : ∀ check obj d check',
  constDecl check obj d = Ok tt check' → objPath check' = objPath check.
Hypothesis varDecl_path : ∀ check obj d check',
  varDecl check obj d = Ok tt check' → objPath check' = objPath check.
Hypothesis typeDecl_path : ∀ check obj td def check',
  typeDecl check obj td def = Ok tt check' → objPath check' = objPath check.
Hypothesis collectMethods_path : ∀ check obj check',
  collectMethods check obj = Ok tt check' → objPath check' = objPath check.
Hypothesis funcDecl_path : ∀ check obj d check',
  funcDecl check obj d = Ok tt check' → objPath check' = objPath check.

Lemma objDecl_body_path check obj def check' :
  objDecl_body check obj def = Ok tt check' → objPath check' = objPath check.
Proof.
  unfold Checker.objDecl_body.
  destruct (objMap check !! obj_id obj) as [d|]; [|done].
  destruct (obj_kind obj); try done; simpl.
  - match goal with
    | |- bind ?m _ = _ → _ => destruct m as [[] check1|] eqn:E; [|done]
    end.
    apply constDecl_path in E. simpl in *. by intros [= <-].
  - match goal with
    | |- bind ?m _ = _ → _ => destruct m as [[] check1|] eqn:E; [|done]
    end.
    apply varDecl_path in E. simpl in *. by intros [= <-].
  - match goal with
    | |- bind (bind ?m _) _ = _ → _ => destruct m as [[] check1|] eqn:E; [|done]
    end.
    apply typeDecl_path in E. simpl in *.
    destruct (collectMethods check1 obj) as [[] check2|] eqn:E2; [|done].
    apply collectMethods_path in E2. simpl. intros [= <-]. simpl. congruence.
  - match goal with
    | |- bind ?m _ = _ → _ => destruct m as [[] check1|] eqn:E; [|done]
    end.
    apply funcDecl_path in E. simpl in *. by intros [= <-].
Qed.

(** [Checker.objDecl] keeps the discipline of the object path: when the
    declaration bodies leave the path as they find it, so does [objDecl];
    and an object that was white when the call was made is black when it
    returns. *)
Theorem objDecl_path_discipline (check : Checker) (obj : Object)
    (def : option nat) (check' : Checker) :
  objDecl check obj def = Ok tt check' →
  objPath check' = objPath check ∧
  (obj_color check obj = white → obj_color check' obj = black).
Proof.
  unfold Checker.objDecl.
  destruct ((obj_color check obj =? white)%Z && _) eqn:E1.
  { intros [= <-]. split; [done|]. intros _. unfold obj_color, setColor. simpl.
    by rewrite lookup_insert_eq. }
  destruct (obj_color check obj =? white)%Z eqn:E2.
  { unfold assert. destruct (bool_decide (obj_Type check obj = None)); [|done].
    simpl.
    match goal with
    | |- bind ?m _ = _ → _ => destruct m as [[] check1|] eqn:E; [|done]
    end.
    apply objDecl_body_path in E. simpl in E.
    simpl. unfold pop. rewrite E, last_snoc. simpl.
    intros [= <-]. simpl. rewrite removelast_last. split; [done|].
    intros _. unfold obj_color. simpl. by rewrite lookup_insert_eq. }
  apply Z.eqb_neq in E2.
  destruct (obj_color check obj =? black)%Z.
  { unfold assertTyped, assert. destruct (bool_decide _); [|done].
    by intros [= <-]. }
  intros H. apply objDecl_grey_reported in H as (_ & ? & _). done.
Qed.

(** The declaration bodies keep the grey objects on the path. *)
Hypothesis constDecl_grey : ∀ check obj d check',
  constDecl check obj d = Ok tt check' → greyOnPath check → greyOnPath check'.
Hypothesis varDecl_grey : ∀ check obj d check',
  varDecl check obj d = Ok tt check' → greyOnPath check → greyOnPath check'.
Hypothesis typeDecl_grey : ∀ check obj td def check',
  typeDecl check obj td def = Ok tt check' → greyOnPath check → greyOnPath check'.
Hypothesis collectMethods_grey : ∀ check obj check',
  collectMethods check obj = Ok tt check' → greyOnPath check → greyOnPath check'.
Hypothesis funcDecl_grey : ∀ check obj d check',
  funcDecl check obj d = Ok tt check' → greyOnPath check → greyOnPath check'.

Lemma objDecl_body_grey check obj def check' :
  objDecl_body check obj def = Ok tt check' →
  greyOnPath check → greyOnPath check'.
Proof.
  unfold Checker.objDecl_body.
  destruct (objMap check !! obj_id obj) as [d|]; [|done].
  destruct (obj_kind obj); try done; simpl.
  - match goal with
    | |- bind ?m _ = _ → _ => destruct m as [[] check1|] eqn:E; [|done]
    end.
    intros [= <-] HG. by apply constDecl_grey in E.
  - match goal with
    | |- bind ?m _ = _ → _ => destruct m as [[] check1|] eqn:E; [|done]
    end.
    intros [= <-] HG. by apply varDecl_grey in E.
  - match goal with
    | |- bind (bind ?m _) _ = _ → _ => destruct m as [[] check1|] eqn:E; [|done]
    end.
    simpl. destruct (collectMethods check1 obj) as [[] check2|] eqn:E2; [|done].
    intros [= <-] HG. apply typeDecl_grey in E; [|done].
    by apply collectMethods_grey in E2.
  - match goal with
    | |- bind ?m _ = _ → _ => destruct m as [[] check1|] eqn:E; [|done]
    end.
    intros [= <-] HG. by apply funcDecl_grey in E.
Qed.

(** The colour of a grey object is the index of the object on the
    object path.  When the declaration bodies keep this, so does
    [objDecl]: in the checker that a returning call leaves, every grey
    object is on the path at the index its colour encodes.  The cycle
    [objPath[start:]] that the grey branch reads off the colour of the
    object therefore begins with the object itself. *)
Theorem objDecl_grey_indexed (check : Checker) (obj : Object)
    (def : option nat) (check' : Checker) :
  (grey + Z.of_nat (length (objPath check)) < 2 ^ 32)%Z →
  greyOnPath check →
  objDecl check obj def = Ok tt check' →
  greyOnPath check' ∧
  ((grey ≤ obj_color check obj)%Z →
   ∃ o rest,
     drop (Z.to_nat (obj_color check obj - grey)) (objPath check) = o :: rest ∧
     obj_id o = obj_id obj).
Proof.
  intros Hbound HG Hrun. split; cycle 1.
  { unfold obj_color. intros Hgrey.
    destruct (color_ check !! obj_id obj) as [c|] eqn:Hc; [|done].
    simpl in *. destruct (HG _ _ Hc Hgrey) as (o & Ho & Hid).
    exists o, (drop (S (Z.to_nat (c - grey))) (objPath check)).
    split; [by apply drop_S|done]. }
  revert Hrun. unfold Checker.objDecl.
  destruct ((obj_color check obj =? white)%Z && _) eqn:E1.
  { intros [= <-]. intros id c. simpl.
    destruct (decide (id = obj_id obj)) as [->|Hne].
    - rewrite lookup_insert_eq. intros [= <-]. done.
    - rewrite lookup_insert_ne by done. apply HG. }
  destruct (obj_color check obj =? white)%Z eqn:E2.
  { unfold assert. destruct (bool_decide (obj_Type check obj = None)); [|done].
    simpl.
    match goal with
    | |- bind ?m _ = _ → _ => destruct m as [[] check1|] eqn:E; [|done]
    end.
    pose proof (objDecl_body_path _ _ _ _ E) as Hpath. simpl in Hpath.
    apply objDecl_body_grey in E; cycle 1.
    { intros id c. simpl.
      destruct (decide (id = obj_id obj)) as [->|Hne].
      - rewrite lookup_insert_eq. intros [= <-] _.
        rewrite Z.mod_small by (unfold grey in *; lia).
        exists obj. split; [|done].
        replace (Z.to_nat (grey + Z.of_nat (length (objPath check)) - grey))
          with (length (objPath check) + 0) by lia.
        by rewrite lookup_app_r, Nat.add_comm, Nat.add_sub by lia.
      - rewrite lookup_insert_ne by done. intros Hc Hgrey.
        destruct (HG _ _ Hc Hgrey) as (o & Ho & Hid).
        exists o. split; [|done]. by apply lookup_app_l_Some. }
    simpl. unfold pop. rewrite Hpath, last_snoc. simpl.
    intros [= <-]. simpl. rewrite removelast_last.
    intros id c. simpl.
    destruct (decide (id = obj_id obj)) as [->|Hne].
    - rewrite lookup_insert_eq. intros [= <-]. done.
    - rewrite lookup_insert_ne by done. intros Hc Hgrey.
      destruct (E _ _ Hc Hgrey) as (o & Ho & Hid).
      rewrite Hpath in Ho. apply lookup_app_Some in Ho as [Ho|[_ Ho]].
      + by exists o.
      + apply list_lookup_singleton_Some in Ho as [_ <-]. done. }
  destruct (obj_color check obj =? black)%Z.
  { unfold assertTyped, assert. destruct (bool_decide _); [|done].
    by intros [= <-]. }
  intros H. apply objDecl_grey_reported in H as (_ & Hp & Hc).
  unfold greyOnPath. by rewrite Hp, Hc.
Qed.

End ObjDeclMore.

Lemma lastAfter_no_source last pre :
  nearestSource pre = None →
  lastAfter CONST last pre
  = if existsb isValueSpec pre then Some (default emptyValueSpec last) else last.
Proof.
  induction pre as [|sp pre IH] using rev_ind.
  - done.
  - rewrite nearestSource_snoc, existsb_app. unfold lastAfter.
    rewrite foldl_app. simpl. fold (lastAfter CONST last pre).
    destruct sp as [s|s|s|]; simpl; rewrite ?orb_false_r; try apply IH.
    destruct (hasTypeOrValues s); [done|]. intros H. rewrite (IH H).
    rewrite orb_true_r. by destruct (existsb isValueSpec pre).
Qed.

(** [Checker.walkDecl], const blocks: a ValueSpec with neither type nor
    values that no spec with a type or values precedes gets a record with no
    type and no values; the record is marked inherited exactly when some
    ValueSpec precedes it in the block. *)
Theorem walkDecl_const_without_source (Specs pre post : list Spec)
    (s : ValueSpec) :
  Specs = pre ++ ValueSpec_ s :: post →
  hasTypeOrValues s = false →
  nearestSource pre = None →
  emitted (walkDecl (GenDecl CONST Specs))
    !! length (emitted (walkDecl (GenDecl CONST pre)))
  = Some (constDecl_ s (length pre) None [] (existsb isValueSpec pre)).
Proof.
  intros -> Hs Hpre. simpl walkDecl.
  rewrite walkSpecs_app, emitted_app. simpl. rewrite Hs.
  rewrite (lastAfter_no_source None pre Hpre). simpl.
  rewrite lookup_app_r, Nat.sub_diag by done.
  by destruct (existsb isValueSpec pre).
Qed.

(** [Checker.walkDecl] on a general declaration: the callback receives one
    record for every import spec, every type spec and, when the token is
    [const] or [var], every value spec, in the order of the source and
    whatever the token says of import and type specs; every other spec is
    reported as invalid syntax, once, and is not handed on. *)
Theorem walkDecl_accounting (Tok : Token) (Specs : list Spec) :
  let evs := walkDecl (GenDecl Tok Specs) in
  node <$> emitted evs = SpecNode <$> filter (λ sp, accepted Tok sp = true) Specs ∧
  length (filter (λ e, isInvalidAST e = true) evs)
  = length (filter (λ sp, accepted Tok sp = false) Specs).
Proof.
  simpl walkDecl. generalize (@None ValueSpec) 0.
  induction Specs as [|sp Specs IH]; intros last iota; [done|].
  assert (∀ l,
    node <$> emitted (walkSpecs Tok l (S iota) Specs)
    = SpecNode <$> filter (λ sp, accepted Tok sp = true) Specs ∧
    length (filter (λ e, isInvalidAST e = true) (walkSpecs Tok l (S iota) Specs))
    = length (filter (λ sp, accepted Tok sp = false) Specs)) as H
    by (intros; apply IH).
  rewrite !(filter_cons _ sp).
  destruct sp as [s|s|s|]; [|destruct Tok|..]; cbn;
    try (destruct (hasTypeOrValues s); [|destruct last]; cbn);
    match goal with
    | |- context [walkSpecs _ ?l (S iota) Specs] => destruct (H l) as [H1 H2]
    end;
    repeat case_decide; try done;
    (split; [first [exact H1|exact (f_equal _ H1)]
            |first [exact H2|exact (f_equal S H2)]]).
Qed.

Lemma append_nil_r (s : string) : String.append s "" = s.
Proof.
  induction s as [|a s IH]; [done|].
  change (String a (String.append s "") = String a s). by rewrite IH.
Qed.

Lemma append_assoc (s1 s2 s3 : string) :
  String.append s1 (String.append s2 s3) = String.append (String.append s1 s2) s3.
Proof.
  induction s1 as [|a s1 IH]; [done|].
  change (String a (String.append s1 (String.append s2 s3))
          = String a (String.append (String.append s1 s2) s3)).
  by rewrite IH.
Qed.

Lemma pathString_loop_app i path s :
  pathString_loop i path s
  = String.append s
      match path with
      | [] => ""%string
      | p :: rest =>
          String.append (if (0 <? i)%nat then "->" else "")%string
            (String.concat "->" (obj_name <$> (p :: rest)))
      end.
Proof.
  revert i s. induction path as [|p rest IH]; intros i s; simpl pathString_loop.
  - by rewrite append_nil_r.
  - rewrite IH. destruct rest as [|q rest]; simpl.
    + destruct (0 <? i); simpl; by rewrite ?append_nil_r, <- ?append_assoc.
    + destruct (0 <? i); simpl; by rewrite <- ?append_assoc.
Qed.

(** [pathString]: the names of the path joined by arrows, with no arrow
    before the first name or after the last. *)
Theorem pathString_concat (path : list Object) :
  pathString path = String.concat "->" (obj_name <$> path).
Proof.
  unfold pathString. rewrite pathString_loop_app. by destruct path.
Qed.

(** *** [validType] *)

Lemma cycleError_loop_Ok cycle : ∀ n i obj check,
  cycle ≠ [] → ∃ r check', cycleError_loop cycle n i obj check = Ok r check'.
Proof.
  induction n as [|n IH]; intros i obj check Hne; simpl; [by eauto|].
  destruct (lookup_lt_is_Some_2 cycle (if length cycle <=? i + 1 then 0 else i + 1))
    as [obj' Hobj'].
  { destruct (length cycle <=? i + 1) eqn:E.
    - destruct cycle; [done|simpl; lia].
    - apply Nat.leb_gt in E. lia. }
  rewrite Hobj'. by apply IH.
Qed.

Lemma cycleError_Ok check cycle :
  cycle ≠ [] → ∃ check', cycleError check cycle = Ok tt check'.
Proof.
  intros Hne. destruct (firstInSrc_lookup cycle Hne) as (i & obj & Hf & Hi).
  unfold cycleError. rewrite Hf, Hi.
  destruct (cycleError_loop_Ok cycle (length cycle) i obj
              (errorf check obj _InvalidDeclCycle
                 ("illegal cycle in declaration of " ++ obj_name obj)) Hne)
    as ([j o] & check' & ->).
  simpl. eauto.
Qed.

Lemma infoKept_refl st : infoKept st st.
Proof. by intros m. Qed.

Lemma infoKept_trans st1 st2 st3 :
  infoKept st1 st2 → infoKept st2 st3 → infoKept st1 st3.
Proof.
  intros H12 H23 m. destruct (H12 m) as (?&?&?&?), (H23 m) as (?&?&?&?).
  split_and!; [by auto|by auto|congruence..].
Qed.

Lemma infoKept_check st check :
  infoKept st {| v_check := check; v_named := v_named st |}.
Proof. by intros m. Qed.

Lemma infoKept_invalid st t : infoKept st (setInfo st t invalid).
Proof.
  intros m. simpl. destruct (decide (m = t)); simpl; by split_and!.
Qed.

Lemma marksOnPath_kept pkg path st st' :
  infoKept st st' → marksOnPath pkg path st → marksOnPath pkg path st'.
Proof.
  intros HK HM m Hm Hp. destruct (HK m) as (H1 & _ & Ho & Hpk).
  rewrite Ho. apply HM; [by apply H1|by rewrite <- Hpk].
Qed.

Lemma validType_all_kept rec l :
  (∀ f st i st', rec f st = VOk i st' → infoKept st st') →
  ∀ st i st', validType_all rec l st = VOk i st' → infoKept st st'.
Proof.
  intros Hrec. induction l as [|f l IH]; intros st i st'; simpl.
  - intros [= _ <-]. apply infoKept_refl.
  - destruct (rec f st) as [i1 st1| |] eqn:E; [|done..].
    pose proof (Hrec _ _ _ _ E) as H1.
    destruct (decide (i1 = invalid)); [by intros [= _ <-]|].
    intros H. eapply infoKept_trans; [exact H1|by eapply IH].
Qed.

Lemma validType_all_verdict rec l :
  (∀ f st i st', rec f st = VOk i st' →
     (i = valid ∨ i = invalid) ∧ (i = valid → v_check st' = v_check st)) →
  ∀ st i st', validType_all rec l st = VOk i st' →
    (i = valid ∨ i = invalid) ∧ (i = valid → v_check st' = v_check st).
Proof.
  intros Hrec. induction l as [|f l IH]; intros st i st'; simpl.
  - intros [= <- <-]. split; [by left|done].
  - destruct (rec f st) as [i1 st1| |] eqn:E; [|done..].
    destruct (Hrec _ _ _ _ E) as [Hi1 Hc1].
    destruct (decide (i1 = invalid)) as [->|Hne].
    + intros [= <- <-]. split; [by right|done].
    + intros H. destruct (IH _ _ _ H) as [Hi Hc]. split; [done|].
      intros Hv. rewrite (Hc Hv). apply Hc1. by destruct Hi1.
Qed.

Section ValidTypeFacts.

Variable pkg : option nat.
Variable expand : (nat → Named) → nat → (nat → Named).

Lemma validType_cycle_Ok n t path rest i st j st' :
  validType_cycle pkg n t path rest i st = VOk j st' →
  j = invalid ∧
  ∃ check, st' = setInfo {| v_check := check; v_named := v_named st |} t invalid.
Proof.
  revert i. induction rest as [|tn rest IH]; intros i; simpl; [done|].
  destruct (negb _); [done|]. destruct (_ =? _); [|apply IH].
  destruct (cycleError _ _) as [[] check|]; [|done].
  intros [= <- <-]. eauto.
Qed.

Lemma validType_verdict fuel : ∀ typ path st i st',
  validType pkg expand fuel typ path st = VOk i st' →
  (i = valid ∨ i = invalid) ∧ (i = valid → v_check st' = v_check st).
Proof.
  induction fuel as [|fuel IH]; intros typ path st i st'; [done|].
  simpl. destruct typ as [elem|fields|embeddeds|t|].
  - apply IH.
  - apply validType_all_verdict. intros f. apply IH.
  - apply validType_all_verdict. intros f. apply IH.
  - destruct (negb _). { intros [= <- <-]. split; [by left|done]. }
    destruct (n_invalid _). { intros [= <- <-]. split; [by right|done]. }
    destruct (n_info _) eqn:Hinfo.
    + destruct (validType _ _ _ _ _ _) as [i1 st1| |] eqn:E; [|done..].
      intros [= <- <-]. destruct (IH _ _ _ _ _ E) as [Hi Hc]. split; [done|].
      intros Hv. simpl. by rewrite (Hc Hv).
    + intros H. apply validType_cycle_Ok in H as [-> _]. split; [by right|done].
    + intros [= <- <-]. split; [by left|done].
    + intros [= <- <-]. split; [by right|done].
  - intros [= <- <-]. split; [by left|done].
Qed.

Hypothesis Hexpand : expandKeeps expand.

Lemma infoKept_expand st t :
  infoKept st {| v_check := v_check st; v_named := expand (v_named st) t |}.
Proof.
  intros m. simpl. destruct (Hexpand (v_named st) t m) as (-> & -> & ->). done.
Qed.

Lemma validType_kept fuel : ∀ typ path st i st',
  validType pkg expand fuel typ path st = VOk i st' → infoKept st st'.
Proof.
  induction fuel as [|fuel IH]; intros typ path st i st'; [done|].
  simpl. destruct typ as [elem|fields|embeddeds|t|].
  - apply IH.
  - apply validType_all_kept. intros f. apply IH.
  - apply validType_all_kept. intros f. apply IH.
  - pose proof (infoKept_expand st t) as H0.
    destruct (negb _). { by intros [= _ <-]. }
    destruct (n_invalid _).
    { intros [= _ <-]. eapply infoKept_trans; [exact H0|apply infoKept_invalid]. }
    destruct (n_info (expand (v_named st) t t)) eqn:Hinfo.
    + destruct (validType _ _ _ _ _ _) as [i1 st1| |] eqn:E; [|done..].
      intros [= <- <-].
      destruct (validType_verdict _ _ _ _ _ _ E) as [Hi _].
      pose proof (IH _ _ _ _ _ E) as H1.
      eapply infoKept_trans; [exact H0|].
      intros m. destruct (H1 m) as (Hm & Hv & Ho & Hp). revert Hm Hv Ho Hp.
      simpl. destruct (decide (m = t)) as [->|Hne]; simpl.
      * rewrite Hinfo. intros _ _ Ho Hp. split_and!; try done.
        intros ->. by destruct Hi.
      * intros. by split_and!.
    + intros H. apply validType_cycle_Ok in H as [_ [check ->]].
      eapply infoKept_trans; [exact H0|].
      eapply infoKept_trans; [|apply infoKept_invalid].
      by intros m.
    + by intros [= _ <-].
    + by intros [= _ <-].
  - intros [= _ <-]. apply infoKept_refl.
Qed.

Lemma validType_all_no_panic rec l path :
  (∀ f st i st', rec f st = VOk i st' → infoKept st st') →
  (∀ f st msg, marksOnPath pkg path st → rec f st ≠ VPanic msg) →
  ∀ st msg, marksOnPath pkg path st → validType_all rec l st ≠ VPanic msg.
Proof.
  intros Hkept Hrec. induction l as [|f l IH]; intros st msg HM; simpl; [done|].
  destruct (rec f st) as [i1 st1| |] eqn:E; [| |done].
  - destruct (decide (i1 = invalid)); [done|].
    apply IH. eapply marksOnPath_kept; [by eapply Hkept|done].
  - by destruct (Hrec f st msg0 HM).
Qed.

Lemma validType_cycle_no_panic n t path st : ∀ rest i msg,
  n_pkg n = pkg → drop i path = rest →
  (∃ o, o ∈ rest ∧ obj_id o = obj_id (n_obj n)) →
  validType_cycle pkg n t path rest i st ≠ VPanic msg.
Proof.
  intros rest. induction rest as [|tn rest IH]; intros i msg Hp Hdrop (o & Ho & Hid).
  - by apply elem_of_nil in Ho.
  - simpl. rewrite bool_decide_eq_true_2 by done. simpl.
    destruct (obj_id tn =? obj_id (n_obj n)) eqn:E.
    + rewrite Hdrop.
      destruct (cycleError_Ok (v_check st) (tn :: rest) ltac:(done)) as [check' ->].
      done.
    + apply IH; [done| |].
      * replace (S i) with (i + 1) by lia. by rewrite <- drop_drop, Hdrop.
      * exists o. split; [|done].
        apply elem_of_cons in Ho as [->|Ho]; [|done].
        apply Nat.eqb_neq in E. done.
Qed.

(** A call of [validType] that returns answers [valid] or
    [invalid], never [unknown] or [marked]; when it answers [valid] it has
    reported nothing and left the checker as it was. *)
Theorem validType_answer fuel typ path st i st' :
  validType pkg expand fuel typ path st = VOk i st' →
  (i = valid ∨ i = invalid) ∧ (i = valid → v_check st' = v_check st).
Proof.
  intros H. destruct (validType_verdict _ _ _ _ _ _ H) as [Hi Hc].
  split; [exact Hi|exact Hc].
Qed.

(** [validType] leaves no mark behind and withdraws no verdict: a
    named type that is marked when the call returns was marked at the
    call, and a named type that was [invalid] at the call is [invalid]
    when it returns. *)
Theorem validType_marks fuel typ path st i st' :
  validType pkg expand fuel typ path st = VOk i st' →
  ∀ m,
    (n_info (v_named st' m) = marked → n_info (v_named st m) = marked) ∧
    (n_info (v_named st m) = invalid → n_info (v_named st' m) = invalid).
Proof.
  intros H m. destruct (validType_kept _ _ _ _ _ _ H m) as (H1 & H2 & _).
  by split.
Qed.

(** Neither panic of [validType] is reached from a state in which
    every marked type of the package has its object on the path, as in
    the call [validType(named, nil)] with no type marked: the test on the
    package inside the loop never fires, and the start of the cycle is
    found. *)
Theorem validType_never_panics fuel : ∀ typ path st msg,
  marksOnPath pkg path st →
  validType pkg expand fuel typ path st ≠ VPanic msg.
Proof.
  induction fuel as [|fuel IH]; intros typ path st msg HM; [done|].
  simpl. destruct typ as [elem|fields|embeddeds|t|].
  - by apply IH.
  - apply (validType_all_no_panic _ _ path); [| |done].
    + intros f st1 i1 st1'. apply (validType_kept fuel f path).
    + intros f st1 msg1. apply IH.
  - apply (validType_all_no_panic _ _ path); [| |done].
    + intros f st1 i1 st1'. apply (validType_kept fuel f path).
    + intros f st1 msg1. apply IH.
  - pose proof (marksOnPath_kept _ _ _ _ (infoKept_expand st t) HM) as HM0.
    destruct (bool_decide (n_pkg (expand (v_named st) t t) = pkg)) eqn:Hp; [|done].
    apply bool_decide_eq_true in Hp. simpl.
    destruct (n_invalid _); [done|].
    destruct (n_info (expand (v_named st) t t)) eqn:Hinfo; [| |done..].
    + match goal with
      | |- match ?call with _ => _ end ≠ _ =>
          assert (∀ msg1, call ≠ VPanic msg1) as Hcall;
          [|by destruct call as [i1 st1|msg1|]; [| destruct (Hcall msg1)|]]
      end.
      intros msg1. apply IH. intros m. simpl.
      destruct (decide (m = t)) as [->|Hne]; simpl.
      * intros _ _. exists (n_obj (expand (v_named st) t t)). split; [|done].
        apply elem_of_app. right. by left.
      * intros Hm Hpk. destruct (HM0 m Hm Hpk) as (o & Ho & Hid).
        exists o. split; [|done]. apply elem_of_app. by left.
    + apply validType_cycle_no_panic; [done|done|]. by apply HM0.
  - done.
Qed.

End ValidTypeFacts.

(** *** Instances on concrete inputs *)

Lemma firstInSrc_first_minimum_witness :
  ∃ i obj,
    firstInSrc [typeA; typeB] = Some i ∧ [typeA; typeB] !! i = Some obj ∧
    (∀ j x, [typeA; typeB] !! j = Some x → (obj_pos obj ≤ obj_pos x)%Z) ∧
    (∀ j x, [typeA; typeB] !! j = Some x → j < i → (obj_pos obj < obj_pos x)%Z).
Proof. apply (firstInSrc_first_minimum [typeA; typeB]). discriminate. Defined.

Lemma cycleError_trail_witness :
  ∃ i obj check',
    firstInSrc [typeA; typeB] = Some i ∧ [typeA; typeB] !! i = Some obj ∧
    cycleError whiteCheck [typeA; typeB] = Ok tt check' ∧
    reported whiteCheck check'
      (cycleReports obj (drop i [typeA; typeB] ++ take i [typeA; typeB])).
Proof. apply (cycleError_trail whiteCheck [typeA; typeB]). discriminate. Defined.

Lemma objDecl_restores_context_witness :
  let res :=
    objDecl false (λ _ _, false) typedConstDecl
      (λ c _ _, Ok tt c) (λ c _ _ _, Ok tt c) (λ c _, Ok tt c) (λ c _ _, Ok tt c)
      whiteCheck constC None in
  res = Ok tt (checkOf res whiteCheck) ∧
  ctxt (checkOf res whiteCheck) = ctxt whiteCheck.
Proof.
  intros res.
  assert (res = Ok tt (checkOf res whiteCheck)) as H by reflexivity.
  split; [exact H|].
  exact (objDecl_restores_context false (λ _ _, false) typedConstDecl
           (λ c _ _, Ok tt c) (λ c _ _ _, Ok tt c) (λ c _, Ok tt c)
           (λ c _ _, Ok tt c) whiteCheck constC None _ H).
Defined.

Lemma objDecl_path_discipline_witness :
  let res :=
    objDecl false (λ _ _, false) typedConstDecl
      (λ c _ _, Ok tt c) (λ c _ _ _, Ok tt c) (λ c _, Ok tt c) (λ c _ _, Ok tt c)
      whiteCheck constC None in
  res = Ok tt (checkOf res whiteCheck) ∧
  objPath (checkOf res whiteCheck) = objPath whiteCheck ∧
  obj_color (checkOf res whiteCheck) constC = black.
Proof.
  intros res.
  assert (res = Ok tt (checkOf res whiteCheck)) as H by reflexivity.
  split; [exact H|].
  destruct (objDecl_path_discipline false (λ _ _, false) typedConstDecl
              (λ c _ _, Ok tt c) (λ c _ _ _, Ok tt c) (λ c _, Ok tt c)
              (λ c _ _, Ok tt c)
              ltac:(by intros ???? [= <-]) ltac:(by intros ???? [= <-])
              ltac:(by intros ????? [= <-]) ltac:(by intros ??? [= <-])
              ltac:(by intros ???? [= <-])
              whiteCheck constC None _ H) as [Hp Hc].
  split; [exact Hp|]. apply Hc. reflexivity.
Defined.

Lemma walkDecl_const_without_source_witness :
  emitted (walkDecl (GenDecl CONST [ValueSpec_ specB; ValueSpec_ specC])) !! 1
  = Some (constDecl_ specC 1 None [] true).
Proof.
  exact (walkDecl_const_without_source [ValueSpec_ specB; ValueSpec_ specC]
           [ValueSpec_ specB] [] specC eq_refl eq_refl eq_refl).
Defined.

Lemma objDecl_grey_indexed_witness :
  let res :=
    objDecl false (λ _ _, false) typedConstDecl
      (λ c _ _, Ok tt c) (λ c _ _ _, Ok tt c) (λ c _, Ok tt c) (λ c _ _, Ok tt c)
      greyCheck constC None in
  res = Ok tt (checkOf res greyCheck) ∧
  greyOnPath greyCheck ∧
  obj_color (checkOf res greyCheck) typeA = grey ∧
  obj_color (checkOf res greyCheck) constC = black ∧
  greyOnPath (checkOf res greyCheck).
Proof.
  intros res.
  assert (res = Ok tt (checkOf res greyCheck)) as H by reflexivity.
  assert (greyOnPath greyCheck) as HG.
  { intros id c Hc _. simpl in Hc.
    apply lookup_singleton_Some in Hc as [<- <-]. by exists typeA. }
  split; [exact H|]. split; [exact HG|]. split; [reflexivity|].
  split; [reflexivity|].
  apply (objDecl_grey_indexed false (λ _ _, false) typedConstDecl
           (λ c _ _, Ok tt c) (λ c _ _ _, Ok tt c) (λ c _, Ok tt c)
           (λ c _ _, Ok tt c)
           ltac:(by intros ???? [= <-]) ltac:(by intros ???? [= <-])
           ltac:(by intros ????? [= <-]) ltac:(by intros ??? [= <-])
           ltac:(by intros ???? [= <-])
           ltac:(by intros ???? [= <-]) ltac:(by intros ???? [= <-])
           ltac:(by intros ????? [= <-]) ltac:(by intros ??? [= <-])
           ltac:(by intros ???? [= <-])
           greyCheck constC None _ ltac:(by vm_compute) HG H).
Defined.

Lemma validType_answer_witness :
  let res := validType (Some 1) noExpand 10 (StructT [NamedT 1; OtherT]) []
               selfState in
  res = VOk valid (vstateOf res selfState) ∧
  (valid = valid ∨ valid = invalid) ∧
  (valid = valid → v_check (vstateOf res selfState) = v_check selfState).
Proof.
  intros res.
  assert (res = VOk valid (vstateOf res selfState)) as H by by vm_compute.
  split; [exact H|].
  exact (validType_answer (Some 1) noExpand 10 _ [] selfState valid _ H).
Defined.

Lemma validType_marks_witness :
  let res := validType (Some 1) noExpand 10 (NamedT 0) [] selfState in
  res = VOk invalid (vstateOf res selfState) ∧
  n_info (v_named (vstateOf res selfState) 0) = invalid ∧
  ∀ m,
    (n_info (v_named (vstateOf res selfState) m) = marked →
     n_info (v_named selfState m) = marked) ∧
    (n_info (v_named selfState m) = invalid →
     n_info (v_named (vstateOf res selfState) m) = invalid).
Proof.
  intros res.
  assert (res = VOk invalid (vstateOf res selfState)) as H by by vm_compute.
  split; [exact H|]. split; [by vm_compute|].
  apply (validType_marks (Some 1) noExpand ltac:(by intros h t m) 10 _ []
           selfState invalid _ H).
Defined.

Lemma validType_never_panics_witness :
  marksOnPath (Some 1) [] selfState ∧
  validType (Some 1) noExpand 10 (NamedT 0) [] selfState
  = VOk invalid
      (vstateOf (validType (Some 1) noExpand 10 (NamedT 0) [] selfState)
         selfState) ∧
  ∀ msg, validType (Some 1) noExpand 10 (NamedT 0) [] selfState ≠ VPanic msg.
Proof.
  assert (marksOnPath (Some 1) [] selfState) as HM.
  { intros m. unfold selfState, selfNamed. simpl.
    by destruct (decide (m = 0)). }
  split; [exact HM|]. split; [by vm_compute|].
  intros msg.
  apply (validType_never_panics (Some 1) noExpand ltac:(by intros h t m) 10
           (NamedT 0) [] selfState msg HM).
Defined.

End CheckerMore.

(* ===================================================================== *)
(** ** More properties of the indexed importer *)
(* ===================================================================== *)

Module ImporterMore.
Import Importer ImporterSpec ImporterProps ImporterFacts.

Local Open Scope Z_scope.

(** *** Varints *)

Lemma byteZ_B (z : Z) : byteZ (B z) = z mod 256.
Proof.
  unfold byteZ, B.
  assert (0 ≤ z mod 256 < 256) as Hz by (apply Z.mod_pos_bound; lia).
  destruct (Byte.of_N (Z.to_N (z mod 256))) as [b|] eqn:E.
  - simpl. apply Byte.to_of_N in E. rewrite E. lia.
  - apply Byte.of_N_None_iff in E. lia.
Qed.

Lemma lor_add_shift (a b s : Z) :
  0 ≤ s → 0 ≤ a < 2 ^ s → 0 ≤ b → Z.lor a (b * 2 ^ s) = a + b * 2 ^ s.
Proof.
  intros Hs Ha Hb.
  assert (Z.land a (b * 2 ^ s) = 0) as Hl.
  { apply Z.bits_inj'. intros n Hn. rewrite Z.land_spec, Z.bits_0.
    destruct (decide (n < s)).
    - rewrite Z.mul_pow2_bits_low by lia. apply andb_false_r.
    - rewrite <- (Z.mod_small a (2 ^ s)) by lia.
      rewrite Z.mod_pow2_bits_high by lia. done. }
  rewrite <- Z.lxor_lor by done. symmetry. by apply Z.add_nocarry_lxor.
Qed.

Lemma lor_128 (x : Z) :
  0 ≤ x →
  128 ≤ (Z.lor x 128) mod 256 < 256 ∧ Z.land (Z.lor x 128 mod 256) 127 = x mod 128.
Proof.
  intros Hx. set (b := Z.lor x 128 mod 256).
  assert (0 ≤ b < 256) as Hb by (apply Z.mod_pos_bound; lia).
  assert (Z.testbit b 7 = true) as H7.
  { unfold b. change 256 with (2 ^ 8). rewrite Z.mod_pow2_bits_low by lia.
    rewrite Z.lor_spec. change 128 with (2 ^ 7).
    rewrite Z.pow2_bits_true by lia. apply orb_true_r. }
  split.
  - split; [|lia]. apply Z.testbit_true in H7; [|lia].
    change (2 ^ 7) with 128 in H7.
    destruct (decide (128 ≤ b)); [done|].
    rewrite Z.div_small in H7 by lia. done.
  - change 127 with (Z.ones 7). rewrite Z.land_ones by lia.
    change (2 ^ 7) with 128. unfold b.
    apply Z.bits_inj'. intros n Hn.
    change 128 with (2 ^ 7). change 256 with (2 ^ 8).
    destruct (decide (n < 7)).
    + rewrite !Z.mod_pow2_bits_low by lia. rewrite Z.lor_spec.
      rewrite Z.pow2_bits_false by lia. apply orb_false_r.
    + rewrite !Z.mod_pow2_bits_high by lia. done.
Qed.

Lemma ReadUvarint_loop_Put (n : nat) : ∀ i acc x rest,
  0 ≤ i → i + Z.of_nat n = 10 → n ≠ 0%nat →
  0 ≤ acc < 2 ^ (7 * i) → 0 ≤ x → acc + x * 2 ^ (7 * i) < 2 ^ 64 →
  ReadUvarint_loop n i acc (7 * i) (PutUvarint_loop n x ++ rest)
  = (acc + x * 2 ^ (7 * i), None, rest).
Proof.
  induction n as [|n IH]; intros i acc x rest Hi Hin Hn Hacc Hx Hlt; [done|].
  assert (0 < 2 ^ (7 * i)) as Hpow by (apply Z.pow_pos_nonneg; lia).
  simpl PutUvarint_loop. destruct (x <? 128) eqn:Ex.
  - apply Z.ltb_lt in Ex. simpl. rewrite byteZ_B, Z.mod_small by lia.
    apply Z.ltb_lt in Ex as Ex'. rewrite Ex'.
    assert ((i =? MaxVarintLen64 - 1) && (1 <? x) = false) as ->.
    { destruct (i =? MaxVarintLen64 - 1) eqn:Ei; [|done].
      apply Z.eqb_eq in Ei. unfold MaxVarintLen64 in Ei. simpl.
      apply Z.ltb_ge. subst i. change (7 * (10 - 1)) with 63 in *.
      change (2 ^ 64) with (2 * 2 ^ 63) in Hlt. nia. }
    rewrite Z.shiftl_mul_pow2 by lia. unfold uint64.
    rewrite Z.mod_small by nia. by rewrite lor_add_shift by lia.
  - apply Z.ltb_ge in Ex. simpl. rewrite byteZ_B.
    destruct (lor_128 x Hx) as [Hb Hland].
    assert (((Z.lor x 128) mod 256 <? 128) = false) as -> by (apply Z.ltb_ge; lia).
    rewrite Hland, Z.shiftl_mul_pow2 by lia.
    assert (0 ≤ x mod 128 < 128) as Hlo by (apply Z.mod_pos_bound; lia).
    assert (x = 128 * (x / 128) + x mod 128) as Hdiv by (apply Z.div_mod; lia).
    assert (0 ≤ x / 128) as Hhi by (apply Z.div_pos; lia).
    assert (2 ^ (7 * (i + 1)) = 128 * 2 ^ (7 * i)) as Hp1.
    { replace (7 * (i + 1)) with (7 + 7 * i) by lia.
      rewrite Z.pow_add_r by lia. done. }
    unfold uint64. rewrite Z.mod_small by nia.
    rewrite lor_add_shift by lia.
    rewrite Z.shiftr_div_pow2 by lia. change (2 ^ 7) with 128.
    replace (7 * i + 7) with (7 * (i + 1)) by lia.
    assert (i ≤ 8) as Hi8.
    { destruct (decide (i ≤ 8)); [done|]. exfalso.
      assert (2 ^ 63 ≤ 2 ^ (7 * i)) by (apply Z.pow_le_mono_r; lia).
      change (2 ^ 64) with (2 * 2 ^ 63) in Hlt. nia. }
    rewrite IH; try lia; rewrite ?Hp1; try nia.
    f_equal. f_equal. nia.
Qed.

Lemma ReadUvarint_PutUvarint (x : Z) (rest : list byte) :
  0 ≤ x < 2 ^ 64 → ReadUvarint (PutUvarint x ++ rest) = (x, None, rest).
Proof.
  intros Hx. unfold ReadUvarint, PutUvarint.
  pose proof (ReadUvarint_loop_Put (Z.to_nat MaxVarintLen64) 0 0 x rest) as H.
  change (7 * 0) with 0 in H. rewrite H; try done; try lia.
  f_equal. f_equal. lia.
Qed.

(** [importReader.uint64] undoes [binary.PutUvarint]: on data that begins
    with the varint of a 64-bit value it yields the value and stands behind
    the varint. *)
Theorem uint64_PutUvarint (x : Z) (rest : list byte) (r : importReader)
    (st : state) :
  0 ≤ x < 2 ^ 64 →
  declReader r = PutUvarint x ++ rest →
  uint64_ r st = Ok x (set_declReader r rest) st.
Proof.
  intros Hx Hr. unfold uint64_. rewrite Hr.
  by rewrite ReadUvarint_PutUvarint.
Qed.

Lemma zigzag_value (x : Z) :
  - 2 ^ 63 ≤ x < 2 ^ 63 →
  let ux := uint64 (Z.shiftl (uint64 x) 1) in
  (if x <? 0 then uint64 (Z.lnot ux) else ux) = (if x <? 0 then - 2 * x - 1 else 2 * x).
Proof.
  intros Hx. simpl. unfold uint64. rewrite Z.shiftl_mul_pow2 by lia.
  change (2 ^ 1) with 2. destruct (x <? 0) eqn:E.
  - apply Z.ltb_lt in E.
    replace (x mod 2 ^ 64) with (x + 2 ^ 64)
      by (apply Z.mod_unique with (-1); lia).
    replace ((x + 2 ^ 64) * 2 mod 2 ^ 64) with (2 * x + 2 ^ 64)
      by (apply Z.mod_unique with 1; lia).
    unfold Z.lnot. symmetry. apply Z.mod_unique with (-1); lia.
  - apply Z.ltb_ge in E. rewrite (Z.mod_small x) by lia.
    rewrite Z.mod_small by lia. lia.
Qed.

(** [importReader.int64] undoes [binary.PutVarint]: on data that begins
    with the zig-zag varint of a signed 64-bit value it yields the value
    and stands behind the varint. *)
Theorem int64_PutVarint (x : Z) (rest : list byte) (r : importReader)
    (st : state) :
  - 2 ^ 63 ≤ x < 2 ^ 63 →
  declReader r = PutVarint x ++ rest →
  int64_ r st = Ok x (set_declReader r rest) st.
Proof.
  intros Hx Hr. unfold int64_, ReadVarint. rewrite Hr. unfold PutVarint.
  rewrite (zigzag_value x Hx).
  rewrite ReadUvarint_PutUvarint by (destruct (x <? 0) eqn:E; lia).
  destruct (x <? 0) eqn:E.
  - apply Z.ltb_lt in E.
    assert (Z.shiftr (-2 * x - 1) 1 = - x - 1) as ->.
    { rewrite Z.shiftr_div_pow2 by lia. change (2 ^ 1) with 2.
      symmetry. apply Z.div_unique with 1; lia. }
    rewrite land_1_even.
    replace (-2 * x - 1) with (1 + 2 * (- x - 1)) by lia.
    rewrite Z.even_add_mul_2. simpl. rewrite int64_small by lia.
    unfold Z.lnot. do 2 f_equal. lia.
  - apply Z.ltb_ge in E.
    assert (Z.shiftr (2 * x) 1 = x) as ->.
    { rewrite Z.shiftr_div_pow2 by lia. change (2 ^ 1) with 2.
      symmetry. apply Z.div_unique with 0; lia. }
    rewrite land_1_even, Z.even_mul. simpl. by rewrite int64_small by lia.
Qed.

(** *** The string table *)

Lemma Uvarint_loop_Put (n : nat) : ∀ i acc x rest,
  0 ≤ i → i + Z.of_nat n = 10 → n ≠ 0%nat →
  0 ≤ acc < 2 ^ (7 * i) → 0 ≤ x → acc + x * 2 ^ (7 * i) < 2 ^ 64 →
  Uvarint_loop (PutUvarint_loop n x ++ rest) i acc (7 * i)
  = (acc + x * 2 ^ (7 * i), i + Z.of_nat (length (PutUvarint_loop n x))).
Proof.
  induction n as [|n IH]; intros i acc x rest Hi Hin Hn Hacc Hx Hlt; [done|].
  assert (0 < 2 ^ (7 * i)) as Hpow by (apply Z.pow_pos_nonneg; lia).
  assert ((i =? MaxVarintLen64) = false) as Hmax
    by (apply Z.eqb_neq; unfold MaxVarintLen64; lia).
  simpl PutUvarint_loop. destruct (x <? 128) eqn:Ex.
  - apply Z.ltb_lt in Ex. simpl. rewrite byteZ_B, Z.mod_small by lia.
    rewrite Hmax.
    apply Z.ltb_lt in Ex as Ex'. rewrite Ex'.
    assert ((i =? MaxVarintLen64 - 1) && (1 <? x) = false) as ->.
    { destruct (i =? MaxVarintLen64 - 1) eqn:Ei; [|done].
      apply Z.eqb_eq in Ei. unfold MaxVarintLen64 in Ei. simpl.
      apply Z.ltb_ge. subst i. change (7 * (10 - 1)) with 63 in *.
      change (2 ^ 64) with (2 * 2 ^ 63) in Hlt. nia. }
    rewrite Z.shiftl_mul_pow2 by lia. unfold uint64.
    rewrite Z.mod_small by nia. by rewrite lor_add_shift by lia.
  - apply Z.ltb_ge in Ex. simpl. rewrite byteZ_B, Hmax.
    destruct (lor_128 x Hx) as [Hb Hland].
    assert (((Z.lor x 128) mod 256 <? 128) = false) as -> by (apply Z.ltb_ge; lia).
    rewrite Hland, Z.shiftl_mul_pow2 by lia.
    assert (0 ≤ x mod 128 < 128) as Hlo by (apply Z.mod_pos_bound; lia).
    assert (x = 128 * (x / 128) + x mod 128) as Hdiv by (apply Z.div_mod; lia).
    assert (0 ≤ x / 128) as Hhi by (apply Z.div_pos; lia).
    assert (2 ^ (7 * (i + 1)) = 128 * 2 ^ (7 * i)) as Hp1.
    { replace (7 * (i + 1)) with (7 + 7 * i) by lia.
      rewrite Z.pow_add_r by lia. done. }
    unfold uint64. rewrite Z.mod_small by nia.
    rewrite lor_add_shift by lia.
    rewrite Z.shiftr_div_pow2 by lia. change (2 ^ 7) with 128.
    replace (7 * i + 7) with (7 * (i + 1)) by lia.
    assert (i ≤ 8) as Hi8.
    { destruct (decide (i ≤ 8)); [done|]. exfalso.
      assert (2 ^ 63 ≤ 2 ^ (7 * i)) by (apply Z.pow_le_mono_r; lia).
      change (2 ^ 64) with (2 * 2 ^ 63) in Hlt. nia. }
    rewrite IH; try lia; rewrite ?Hp1; try nia.
    f_equal; [nia|lia].
Qed.

Lemma PutUvarint_loop_length (n : nat) (x : Z) :
  n ≠ 0%nat → (0 < length (PutUvarint_loop n x) ≤ n)%nat.
Proof.
  revert x. induction n as [|n IH]; intros x Hn; [done|]. simpl.
  destruct (x <? 128); simpl; [lia|].
  destruct n as [|n]; [simpl; lia|].
  specialize (IH (Z.shiftr x 7) ltac:(done)). lia.
Qed.

(** [iimporter.stringAt] reads the strings an exporter writes: where the
    data holds, at an offset within the string section, the varint of a
    length followed by that many bytes, [stringAt] at the offset yields
    those bytes, also when they reach past the string section into the
    declarations that follow it in the data; it enters the string in the
    cache, and a later call at the offset is served the string and leaves
    the importer as it is. *)
Theorem stringAt_decodes (pre bs post : list byte) (off : Z)
    (r : importReader) (st : state) :
  let enc := PutUvarint (Z.of_nat (length bs)) in
  let s := string_of_list_byte bs in
  let st1 :=
    set_p st (set_stringCache (p st) (<[off := s]> (stringCache (p st)))) in
  stringCache (p st) !! off = None →
  stringData (p st) ++ declData (p st) = pre ++ enc ++ bs ++ post →
  off = Z.of_nat (length pre) →
  (length pre + length enc ≤ length (stringData (p st)))%nat →
  Z.of_nat (length (stringData (p st) ++ declData (p st))) < 2 ^ 63 →
  stringAt off r st = Ok s r st1 ∧
  ∀ r2, stringAt off r2 st1 = Ok s r2 st1.
Proof.
  intros enc s st1 Hc Hdata Hoff Hin Hlen. subst off.
  set (sd := stringData (p st)) in *. set (dd := declData (p st)) in *.
  assert (Z.of_nat (length bs) < 2 ^ 63) as Hbs.
  { apply (f_equal length) in Hdata. rewrite !length_app in Hdata.
    rewrite length_app in Hlen. lia. }
  destruct (PutUvarint_loop_length (Z.to_nat MaxVarintLen64)
              (Z.of_nat (length bs)) ltac:(done)) as [Hn0 Hn10].
  fold (PutUvarint (Z.of_nat (length bs))) in Hn0, Hn10. fold enc in Hn0, Hn10.
  assert (drop (length pre) sd = enc ++ drop (length pre + length enc) sd) as Hdrop.
  { assert (take (length pre + length enc) (sd ++ dd) = pre ++ enc) as Ht.
    { rewrite Hdata, app_assoc, <- length_app. by rewrite take_app_length. }
    rewrite take_app_le in Ht by lia.
    rewrite <- (take_drop (length pre + length enc) sd) at 1.
    rewrite Ht, <- app_assoc, drop_app_length. done. }
  split.
  - unfold stringAt. munfold. rewrite Hc. fold sd dd.
    assert ((Z.of_nat (length sd) <? Z.of_nat (length pre)) = false) as ->
      by (apply Z.ltb_ge; lia).
    rewrite Nat2Z.id, Hdrop. unfold Uvarint, enc, PutUvarint.
    pose proof (Uvarint_loop_Put (Z.to_nat MaxVarintLen64) 0 0
                  (Z.of_nat (length bs))
                  (drop (length pre + length (PutUvarint (Z.of_nat (length bs)))) sd))
      as HU.
    change (7 * 0) with 0 in HU. unfold PutUvarint in HU.
    rewrite HU; try done; try lia. clear HU.
    fold (PutUvarint (Z.of_nat (length bs))). fold enc.
    assert ((0 + Z.of_nat (length enc) <=? 0) = false) as ->
      by (apply Z.leb_gt; lia).
    replace (0 + Z.of_nat (length bs) * 2 ^ 0) with (Z.of_nat (length bs)) by lia.
    assert (Z.of_nat (length (sd ++ dd))
            = Z.of_nat (length pre + length enc + length bs + length post)) as HL.
    { rewrite Hdata, !length_app. lia. }
    unfold uint64.
    rewrite (Z.mod_small (Z.of_nat (length pre) + _)) by lia.
    rewrite Z.mod_small by lia.
    match goal with
    | |- context [if ?c then _ else _] =>
        assert (c = false) as ->
    end.
    { apply orb_false_iff. split; [apply Z.ltb_ge; lia|apply Z.ltb_ge; lia]. }
    assert (take (Z.to_nat (Z.of_nat (length bs)))
              (drop (Z.to_nat (Z.of_nat (length pre) + (0 + Z.of_nat (length enc))))
                 (sd ++ dd)) = bs) as ->.
    { rewrite Hdata.
      replace (Z.to_nat (Z.of_nat (length pre) + (0 + Z.of_nat (length enc))))
        with (length (pre ++ enc)) by (rewrite length_app; lia).
      rewrite (app_assoc pre enc), drop_app_length, Nat2Z.id.
      by rewrite take_app_length. }
    done.
  - intros r2. unfold stringAt. munfold. simpl.
    by rewrite lookup_insert_eq.
Qed.

(** *** Integer and float constants *)

Lemma byte_cases (P : Z → bool) :
  forallb (λ k, P (Z.of_nat k)) (seq 0 256) = true →
  ∀ n, 0 ≤ n < 256 → P n = true.
Proof.
  intros H n Hn. rewrite forallb_forall in H.
  specialize (H (Z.to_nat n)). rewrite Z2Nat.id in H by lia.
  apply H, in_seq. lia.
Qed.

Lemma intSize_cases (typ : Basic) :
  ((intSize typ).2 = 1 ∨ (intSize typ).2 = 2 ∨ (intSize typ).2 = 4 ∨
   (intSize typ).2 = 8) ∨
  ((intSize typ).1 = true ∧
   ((intSize typ).2 = 3 ∨ (intSize typ).2 = 7 ∨ (intSize typ).2 = 64)).
Proof.
  unfold intSize. destruct (negb _); [simpl; tauto|].
  destruct (Kind typ); simpl; tauto.
Qed.

Lemma mpint_length_ok_all (typ : Basic) (n : Z) :
  0 ≤ n < 256 → mpint_length_ok (intSize typ).1 (intSize typ).2 n = true.
Proof.
  revert n.
  destruct (intSize_cases typ) as [[H|[H|[H|H]]]|[Hs [H|[H|H]]]];
    rewrite H; try rewrite Hs; try destruct (intSize typ).1;
    apply byte_cases; by vm_compute.
Qed.

Lemma maxSmall_pos (typ : Basic) :
  128 ≤ maxSmall (intSize typ).1 (intSize typ).2.
Proof.
  destruct (intSize_cases typ) as [[H|[H|[H|H]]]|[Hs [H|[H|H]]]];
    rewrite H; try rewrite Hs; try destruct (intSize typ).1; by vm_compute.
Qed.

(** [importReader.mpint] never fails: for every basic type and on every
    data, also data that ends early, it returns a value and leaves the
    importer as it is.  The length that follows a first byte at or above
    [maxSmall] is always from 1 to [maxBytes], so that the error of a weird
    decoding is never raised; and the reads ignore the end of the data. *)
Theorem mpint_never_fails (typ : Basic) (r : importReader) (st : state) :
  ∃ x r', mpint typ r st = Ok x r' st.
Proof.
  unfold mpint. destruct (intSize typ) as [signed maxBytes] eqn:E. munfold.
  destruct (declReader r) as [|x rest].
  - pose proof (maxSmall_pos typ) as Hpos. rewrite E in Hpos. simpl in Hpos.
    assert ((0 <? maxSmall signed maxBytes) = true) as -> by (apply Z.ltb_lt; lia).
    eauto.
  - pose proof (mpint_length_ok_all typ (byteZ x) (byteZ_range x)) as Hok.
    rewrite E in Hok. unfold mpint_length_ok, fst, snd in Hok.
    destruct (byteZ x <? maxSmall signed maxBytes) eqn:En; [eauto|].
    rewrite orb_false_l in Hok. apply andb_true_iff in Hok as [Hok _].
    apply negb_true_iff in Hok. rewrite Hok. eauto.
Qed.

(** [importReader.mpint] and [importReader.mpfloat] at the end of the
    data: the read of the first byte fails, its error is dropped, and the
    constant is zero; no exponent is read. *)
Theorem mpint_exhausted (typ : Basic) (r : importReader) (st : state) :
  declReader r = [] →
  mpint typ r st = Ok 0 r st ∧
  mpfloat typ r st = Ok (floatVal (inject_Z 0)) r st.
Proof.
  intros Hr.
  assert (mpint typ r st = Ok 0 r st) as Hint.
  { unfold mpint. destruct (intSize typ) as [signed maxBytes] eqn:E. munfold.
    rewrite Hr.
    pose proof (maxSmall_pos typ) as Hpos. rewrite E in Hpos. simpl in Hpos.
    assert ((0 <? maxSmall signed maxBytes) = true) as -> by (apply Z.ltb_lt; lia).
    assert (set_declReader r [] = r) as ->
      by (destruct r; simpl in *; by subst).
    by destruct signed. }
  split; [done|].
  unfold mpfloat. munfold. by rewrite Hint.
Qed.

(** [importReader.mpint], the encodings of more than one byte: a first
    byte [n] at or above [maxSmall] announces [256 − n] bytes for an
    unsigned type and [128 − n/2] bytes for a signed one, a number from 1
    to [maxBytes]; the value is the big-endian number of the bytes that
    follow, the bytes that the data lacks counting as zero, negated for a
    signed type when [n] is odd; and the reader stands behind them. *)
Theorem mpint_large_path (typ : Basic) (b0 : byte) (rest : list byte)
    (r : importReader) (st : state) :
  let signed := (intSize typ).1 in
  let maxBytes := (intSize typ).2 in
  let n := byteZ b0 in
  let v := mpint_length signed n in
  let got := take (Z.to_nat v) rest in
  let x := SetBytes (got ++ replicate (Z.to_nat v - length got) x00) in
  declReader r = b0 :: rest →
  maxSmall signed maxBytes ≤ n →
  1 ≤ v ≤ maxBytes ∧
  mpint typ r st
  = Ok (if signed && Z.odd n then - x else x)
      (set_declReader r (drop (Z.to_nat v) rest)) st.
Proof.
  intros signed maxBytes n v got x Hr Hn.
  pose proof (mpint_length_ok_all typ n (byteZ_range b0)) as Hok.
  fold signed maxBytes n in Hok. unfold mpint_length_ok in Hok.
  apply Z.ltb_ge in Hn. rewrite Hn, orb_false_l in Hok.
  apply andb_true_iff in Hok as [Hok Hv]. apply negb_true_iff in Hok.
  apply Z.eqb_eq in Hv. fold v in Hv.
  split.
  { rewrite Hv in Hok. apply orb_false_iff in Hok as [H1 H2].
    apply Z.ltb_ge in H1, H2. lia. }
  unfold mpint. fold signed maxBytes.
  assert (intSize typ = (signed, maxBytes)) as -> by (by destruct (intSize typ)).
  munfold. rewrite Hr. fold n. rewrite Hn, Hok, Hv.
  rewrite land_1_even, Z.negb_even. done.
Qed.

(** *** [parseSubscript] *)

Lemma DecodeRune_ascii (b : byte) (rest : list byte) :
  byteZ b < 0x80 → DecodeRune (b :: rest) = (byteZ b, 1).
Proof.
  intros Hb. unfold DecodeRune. cbn [map].
  apply Z.ltb_lt in Hb. by rewrite Hb.
Qed.

Lemma DecodeRune_subscript (d : Z) (rest : list byte) :
  0 ≤ d ≤ 9 → DecodeRune (subscriptDigit d ++ rest) = (sub0 + d, 3).
Proof.
  intros Hd.
  assert (d = 0 ∨ d = 1 ∨ d = 2 ∨ d = 3 ∨ d = 4 ∨ d = 5 ∨ d = 6 ∨ d = 7 ∨
          d = 8 ∨ d = 9) as Hc by lia.
  unfold DecodeRune, subscriptDigit. cbn [app map length].
  assert ((Z.of_nat (S (S (S (length rest)))) <? 3) = false) as Hlen
    by (apply Z.ltb_ge; lia).
  destruct Hc as [->|[->|[->|[->|[->|[->|[->|[->|[->| ->]]]]]]]]];
    vm_compute (byteZ _); cbn -[Z.of_nat length]; by rewrite Hlen.
Qed.

Lemma runes_ascii (base : list byte) : ∀ n i tl acc,
  Forall (λ b, byteZ b < 0x80) base →
  (length base ≤ n)%nat →
  fold_left parseSubscript_step (runes_from n i (base ++ tl)) acc
  = fold_left parseSubscript_step
      (runes_from (n - length base) (i + Z.of_nat (length base)) tl) acc.
Proof.
  induction base as [|b base IH]; intros n i tl acc Hb Hn.
  - simpl. by rewrite Nat.sub_0_r, Z.add_0_r.
  - apply Forall_cons in Hb as [Hb Hbase].
    destruct n as [|n]; [simpl in Hn; lia|].
    cbn [app runes_from]. rewrite (DecodeRune_ascii b _ Hb).
    change (Z.to_nat 1) with 1%nat. cbn [drop fold_left].
    assert (parseSubscript_step acc (i, byteZ b) = acc) as ->.
    { destruct acc as [sub ss]. unfold parseSubscript_step, isSubscriptDigit, sub0.
      assert ((8320 <=? byteZ b) = false) as -> by (apply Z.leb_gt; lia). done. }
    rewrite drop_0, IH by (simpl in Hn; done || lia).
    simpl length. do 2 f_equal; lia.
Qed.

Lemma runes_subscript (ds : list Z) : ∀ n i sub ss,
  Forall (λ d, 0 ≤ d ≤ 9) ds → (length ds ≤ n)%nat → 0 ≤ i →
  fold_left parseSubscript_step (runes_from n i (flat_map subscriptDigit ds))
    (sub, ss)
  = (fold_left (λ acc d, uint64 (acc * 10 + d)) ds sub,
     match ds with [] => ss | _ => if ss =? -1 then i else ss end).
Proof.
  induction ds as [|d ds IH]; intros n i sub ss Hds Hn Hi.
  - simpl. by destruct n.
  - apply Forall_cons in Hds as [Hd Hds].
    destruct n as [|n]; [simpl in Hn; lia|].
    cbn [flat_map]. change (runes_from (S n) i (subscriptDigit d ++ ?t))
      with (let '(r, w) := DecodeRune (subscriptDigit d ++ t) in
            (i, r) :: runes_from n (i + w) (drop (Z.to_nat w) (subscriptDigit d ++ t))).
    rewrite (DecodeRune_subscript d _ Hd).
    change (Z.to_nat 3) with 3%nat. cbn [drop app subscriptDigit fold_left].
    assert (parseSubscript_step (sub, ss) (i, sub0 + d)
            = (uint64 (sub * 10 + d), if ss =? -1 then i else ss)) as ->.
    { unfold parseSubscript_step, isSubscriptDigit.
      assert ((sub0 <=? sub0 + d) && (sub0 + d <? sub0 + 10) = true) as ->.
      { apply andb_true_iff. split; [apply Z.leb_le|apply Z.ltb_lt]; lia. }
      replace (sub0 + d - sub0) with d by lia.
      unfold uint64 at 2. by rewrite (Z.mod_small d) by lia. }
    rewrite IH by (done || simpl in Hn; lia).
    f_equal. destruct ds; [done|].
    destruct (ss =? -1) eqn:E; [|by rewrite E].
    assert ((i =? -1) = false) as -> by (apply Z.eqb_neq; lia). done.
Qed.

Lemma decimal_uint64 (ds : list Z) : ∀ a,
  fold_left (λ acc d, uint64 (acc * 10 + d)) ds (uint64 a)
  = uint64 (fold_left (λ acc d, acc * 10 + d) ds a).
Proof.
  induction ds as [|d ds IH]; intros a; [done|]. simpl.
  rewrite <- IH. f_equal. unfold uint64.
  rewrite <- Zplus_mod_idemp_l, Zmult_mod_idemp_l, Zplus_mod_idemp_l. done.
Qed.

(** [parseSubscript] undoes the naming of type parameters: for a name of
    ASCII bytes followed by subscript digits it returns the name without the
    digits and the number the digits write, reduced modulo [2^64]; for a
    name with no digit it returns the name and 0. *)
Theorem parseSubscript_subscripted (base : list byte) (ds : list Z) :
  Forall (λ b, byteZ b < 0x80) base →
  Forall (λ d, 0 ≤ d ≤ 9) ds →
  parseSubscript (string_of_list_byte (base ++ flat_map subscriptDigit ds))
  = (string_of_list_byte base, decimal ds mod 2 ^ 64).
Proof.
  intros Hbase Hds. unfold parseSubscript, runes.
  rewrite list_byte_of_string_of_list_byte.
  rewrite runes_ascii by (done || rewrite length_app; lia).
  rewrite runes_subscript; [|done| |lia].
  - pose proof (decimal_uint64 ds 0) as HD. change (uint64 0) with 0 in HD.
    rewrite HD. fold (decimal ds). unfold uint64. f_equal.
    destruct ds as [|d ds].
    + simpl. by rewrite app_nil_r.
    + change (-1 =? -1) with true. cbn match.
      assert ((0 <=? 0 + Z.of_nat (length base)) = true) as ->
        by (apply Z.leb_le; lia).
      replace (Z.to_nat (0 + Z.of_nat (length base))) with (length base) by lia.
      by rewrite take_app_length.
  - rewrite length_app.
    assert (length (flat_map subscriptDigit ds) = (3 * length ds)%nat) as ->.
    { clear. induction ds as [|d ds IH]; simpl; lia. }
    lia.
Qed.

(** *** The footprint of the readers *)

Lemma interface_Named_SetTParams tps n :
  isInterfaceNode (Named_SetTParams tps n) = isInterfaceNode n.
Proof. by destruct n. Qed.
Lemma interface_Named_SetUnderlying u n :
  isInterfaceNode (Named_SetUnderlying u n) = isInterfaceNode n.
Proof. by destruct n. Qed.
Lemma interface_Named_AddMethod m n :
  isInterfaceNode (Named_AddMethod m n) = isInterfaceNode n.
Proof. by destruct n. Qed.
Lemma interface_Signature_SetTParams tps n :
  isInterfaceNode (Signature_SetTParams tps n) = isInterfaceNode n.
Proof. by destruct n. Qed.
Lemma interface_Signature_SetRParams tps n :
  isInterfaceNode (Signature_SetRParams tps n) = isInterfaceNode n.
Proof. by destruct n. Qed.
Lemma interface_TypeParam_SetConstraint c n :
  isInterfaceNode (TypeParam_SetConstraint c n) = isInterfaceNode n.
Proof. by destruct n. Qed.
Lemma interface_Interface_Complete n :
  isInterfaceNode (Interface_Complete n) = isInterfaceNode n.
Proof. by destruct n. Qed.

Create HintDb footprint.

#[local] Hint Resolve interface_Named_SetTParams interface_Named_SetUnderlying
  interface_Named_AddMethod interface_Signature_SetTParams
  interface_Signature_SetRParams interface_TypeParam_SetConstraint
  interface_Interface_Complete : footprint.

Section Footprints.

Variable env : Env.
Variable R : state → state → Prop.
Hypothesis HF : Footprint env R.
Hypothesis HU : UpdateStep R.

Lemma fp_ret {A} (a : A) : keeps R (mret a).
Proof. intros r st a' r' st'. munfold. intros [= _ _ <-]. apply (F_refl _ _ HF). Qed.

Lemma fp_bind {A B} (m : M A) (k : A → M B) :
  keeps R m → (∀ a, keeps R (k a)) → keeps R (m ≫= k).
Proof.
  intros Hm Hk r st b r' st'. munfold.
  destruct (m r st) as [a r1 st1| |] eqn:Hrun; [|done..].
  intros Hrun'. eapply (F_trans _ _ HF); [by eapply Hm|by eapply Hk].
Qed.

Lemma fp_errorf {A} e : keeps R (@errorf A e).
Proof. by intros r st a r' st'. Qed.

Lemma fp_outOfFuel {A} : keeps R (@outOfFuel A).
Proof. by intros r st a r' st'. Qed.

Lemma fp_frame {A} (m : M A) :
  (∀ r st a r' st', m r st = Ok a r' st' → st' = st) → keeps R m.
Proof.
  intros Hm r st a r' st' Hrun. rewrite (Hm _ _ _ _ _ Hrun).
  apply (F_refl _ _ HF).
Qed.

Lemma fp_getState : keeps R getState.
Proof. apply fp_frame. munfold. by intros ????? [= _ _ <-]. Qed.

Lemma fp_getReader : keeps R getReader.
Proof. apply fp_frame. munfold. by intros ????? [= _ _ <-]. Qed.

Lemma fp_putReader r0 : keeps R (putReader r0).
Proof. apply fp_frame. munfold. by intros ????? [= _ _ <-]. Qed.

Lemma fp_modifyState f : (∀ st, R st (f st)) → keeps R (modifyState f).
Proof. intros Hf r st a r' st'. munfold. intros [= _ _ <-]. apply Hf. Qed.

Lemma fp_int64 : keeps R int64_.
Proof.
  apply fp_frame. unfold int64_. intros r st a r' st' H. minv H. by simplify_eq.
Qed.

Lemma fp_uint64 : keeps R uint64_.
Proof.
  apply fp_frame. unfold uint64_. intros r st a r' st' H. minv H. by simplify_eq.
Qed.

Lemma fp_byte : keeps R byte_.
Proof.
  apply fp_frame. unfold byte_. intros r st a r' st' H. minv H. by simplify_eq.
Qed.

Lemma fp_intReader_uint64 path : keeps R (intReader_uint64 path).
Proof.
  apply fp_frame. unfold intReader_uint64. intros r st a r' st' H. minv H.
  by simplify_eq.
Qed.

Lemma fp_makeSlice n : keeps R (makeSlice n).
Proof. unfold makeSlice. destruct (_ <=? _); [apply fp_errorf|apply fp_ret]. Qed.

Lemma fp_alloc nd : isInterfaceNode nd = false → keeps R (alloc nd).
Proof.
  intros Hnd r st a r' st'. unfold alloc. intros [= _ _ <-].
  by apply (F_alloc _ _ HF).
Qed.

Lemma fp_update t f :
  (∀ n, isInterfaceNode (f n) = isInterfaceNode n) → keeps R (update t f).
Proof.
  intros Hf r st a r' st'. unfold update. munfold. intros [= _ _ <-].
  by apply HU.
Qed.

Lemma fp_withReader {A} r0 (m : M A) : keeps R m → keeps R (withReader r0 m).
Proof.
  intros Hm r st a r' st'. unfold withReader.
  destruct (m r0 st) as [a1 r1 st1| |] eqn:Hrun; [|done..].
  intros [= _ _ <-]. by eapply Hm.
Qed.

Lemma fp_repeatM {A} fuel n (body : M A) :
  keeps R body → keeps R (repeatM fuel n body).
Proof.
  intros Hbody. revert n. induction fuel as [|fuel IH]; intros n; simpl.
  - destruct (n <=? 0); [apply fp_ret|apply fp_outOfFuel].
  - destruct (n <=? 0); [apply fp_ret|].
    apply fp_bind; [done|]. intros x.
    apply fp_bind; [apply IH|]. intros xs. apply fp_ret.
Qed.

Lemma fp_sequenceM_ {A} (f : A → M unit) l :
  (∀ a, keeps R (f a)) → keeps R (sequenceM_ f l).
Proof.
  intros Hf. induction l as [|a l IH]; simpl.
  - apply fp_ret.
  - apply fp_bind; [apply Hf|]. by intros _.
Qed.

Lemma fp_Instantiate b targs : keeps R (Instantiate_ env b targs).
Proof.
  intros r st a r' st'. unfold Instantiate_.
  destruct (Instantiate env (types st) b targs) as [[h t]|] eqn:E; [|done].
  intros [= _ _ <-]. by eapply (F_Instantiate _ _ HF).
Qed.

Lemma fp_declare o : keeps R (declare o).
Proof.
  unfold declare. destruct (Object_pkg o) as [pkg|]; [|apply fp_errorf].
  apply fp_modifyState. intros st. apply (F_declare _ _ HF).
Qed.

Lemma fp_stringAt off : keeps R (stringAt off).
Proof.
  intros r st s r' st'. unfold stringAt. munfold.
  destruct (stringCache (p st) !! off) as [s0|] eqn:Hc.
  - intros [= _ _ <-]. apply (F_refl _ _ HF).
  - intros H. minv H. simplify_eq. by apply (F_string _ _ HF).
Qed.

Lemma fp_typCache off t :
  keeps R (modifyP (λ q, set_typCache q (<[off := t]> (typCache q)))).
Proof. apply fp_modifyState. intros st. apply (F_typCache _ _ HF). Qed.

Lemma fp_tparamIndex id t :
  keeps R (modifyP (λ q, set_tparamIndex q (<[id := t]> (tparamIndex q)))).
Proof. apply fp_modifyState. intros st. apply (F_tparamIndex _ _ HF). Qed.

(** [types.NewInterfaceType] and the entry of the new interface in
    [interfaceList]. *)
Lemma fp_interface {A} ms es (k : tref → M A) :
  (∀ t, keeps R (k t)) →
  keeps R (t ← alloc (Interface ms es false);
           modifyP (λ q, set_interfaceList q (interfaceList q ++ [t]));;
           k t).
Proof.
  intros Hk r st a r' st'. unfold alloc. munfold.
  intros Hrun.
  eapply (F_trans _ _ HF); [apply (F_interface _ _ HF st ms es)|].
  eapply Hk. exact Hrun.
Qed.

#[local] Hint Resolve fp_ret fp_errorf fp_outOfFuel fp_getState
  fp_getReader fp_putReader fp_int64 fp_uint64 fp_byte fp_intReader_uint64
  fp_makeSlice fp_Instantiate fp_declare fp_stringAt fp_typCache
  fp_tparamIndex : footprint.

#[local] Hint Extern 1 (keeps _ (alloc _)) =>
  apply fp_alloc; reflexivity : footprint.
#[local] Hint Extern 1 (keeps _ (update _ _)) =>
  apply fp_update; intros; auto with footprint : footprint.

(** Follows the structure of a reader. *)
Ltac fp_step :=
  match goal with
  | |- keeps _ (mbind (λ t, mbind _ (modifyP _)) (alloc (Interface _ _ _))) =>
      apply fp_interface; intros ?
  | |- keeps _ (mbind _ _) => apply fp_bind; [|intros ?]
  | |- keeps _ (repeatM _ _ _) => apply fp_repeatM
  | |- keeps _ (withReader _ _) => apply fp_withReader
  | |- keeps _ (sequenceM_ _ _) => apply fp_sequenceM_; intros ?
  | |- keeps _ (if ?b then _ else _) => destruct b
  | |- keeps _ (match ?x with _ => _ end) => destruct x
  | |- keeps _ _ => solve [eauto with footprint]
  end.

Ltac fp_tac := repeat fp_step.

Lemma fp_bool : keeps R bool_.
Proof. unfold bool_. fp_tac. Qed.

#[local] Hint Resolve fp_bool : footprint.

Lemma fp_pkgAt off : keeps R (pkgAt off).
Proof. unfold pkgAt. fp_tac. Qed.

#[local] Hint Resolve fp_pkgAt : footprint.

Lemma fp_pkg : keeps R pkg_.
Proof. unfold pkg_. fp_tac. Qed.

Lemma fp_string : keeps R string_.
Proof. unfold string_. fp_tac. Qed.

#[local] Hint Resolve fp_pkg fp_string : footprint.

Lemma fp_ident : keeps R ident_.
Proof. apply fp_string. Qed.

Lemma fp_qualifiedIdent : keeps R qualifiedIdent.
Proof. unfold qualifiedIdent. fp_tac. Qed.

Lemma fp_Package_Name pkg : keeps R (Package_Name pkg).
Proof. unfold Package_Name. fp_tac. Qed.

#[local] Hint Resolve fp_ident fp_qualifiedIdent fp_Package_Name : footprint.

Lemma fp_pos : keeps R (pos env).
Proof. unfold pos, posv0, posv1. fp_tac. Qed.

Lemma fp_mpint typ : keeps R (mpint typ).
Proof. unfold mpint. fp_tac. Qed.

#[local] Hint Resolve fp_pos fp_mpint : footprint.

Lemma fp_mpfloat typ : keeps R (mpfloat typ).
Proof. unfold mpfloat. fp_tac. Qed.

Lemma fp_Underlying_ t : keeps R (Underlying_ env t).
Proof. unfold Underlying_. fp_tac. Qed.

Lemma fp_NewNamedStub pos pkg name : keeps R (NewNamedStub pos pkg name).
Proof. unfold NewNamedStub. fp_tac. Qed.

Lemma fp_NewTypeParamStub pos pkg name : keeps R (NewTypeParamStub pos pkg name).
Proof. unfold NewTypeParamStub. fp_tac. Qed.

Lemma fp_allocT nd : isInterfaceNode nd = false → keeps R (allocT nd).
Proof.
  intros Hnd. unfold allocT. apply fp_bind; [by apply fp_alloc|].
  eauto with footprint.
Qed.

#[local] Hint Resolve fp_mpfloat fp_Underlying_ fp_NewNamedStub
  fp_NewTypeParamStub : footprint.
#[local] Hint Extern 1 (keeps _ (allocT _)) =>
  apply fp_allocT; reflexivity : footprint.

Section FootprintReaders.

Variable fuel : nat.
Variable rec : Rec.
Hypothesis Hrec_doDecl : ∀ pkg name, keeps R (rec_doDecl rec pkg name).
Hypothesis Hrec_typAt : ∀ off base, keeps R (rec_typAt rec off base).

Lemma fp_typ : keeps R (typ rec).
Proof. unfold typ. fp_tac. Qed.

#[local] Hint Resolve fp_typ : footprint.

Lemma fp_param : keeps R (param env rec).
Proof. unfold param. fp_tac. Qed.

#[local] Hint Resolve fp_param : footprint.

Lemma fp_paramList : keeps R (paramList env fuel rec).
Proof. unfold paramList. fp_tac. Qed.

#[local] Hint Resolve fp_paramList : footprint.

Lemma fp_signature recv : keeps R (signature env fuel rec recv).
Proof. unfold signature. fp_tac. Qed.

Lemma fp_tparamList : keeps R (tparamList fuel rec).
Proof. unfold tparamList. fp_tac. Qed.

#[local] Hint Resolve fp_signature fp_tparamList : footprint.

Lemma fp_value : keeps R (value env rec).
Proof. unfold value. fp_tac. Qed.

Lemma fp_field : keeps R (field env rec).
Proof. unfold field. fp_tac. Qed.

Lemma fp_interfaceMethod base : keeps R (interfaceMethod env fuel rec base).
Proof. unfold interfaceMethod. fp_tac. Qed.

#[local] Hint Resolve fp_value fp_field fp_interfaceMethod : footprint.

Lemma fp_doType base : keeps R (doType env fuel rec base).
Proof. unfold doType. fp_tac. Qed.

#[local] Hint Resolve fp_doType : footprint.

Lemma fp_typAt_body off base : keeps R (typAt_body env fuel rec off base).
Proof. unfold typAt_body, typAt_miss, typAt_decode. fp_tac. Qed.

Lemma fp_namedMethod named : keeps R (namedMethod env fuel rec named).
Proof. unfold namedMethod. fp_tac. Qed.

#[local] Hint Resolve fp_namedMethod : footprint.

Lemma fp_obj_typeStub tag pos name : keeps R (obj_typeStub fuel rec tag pos name).
Proof. unfold obj_typeStub, declareStub. fp_tac. Qed.

Lemma fp_obj_typeBody named : keeps R (obj_typeBody env fuel rec named).
Proof. unfold obj_typeBody. fp_tac. Qed.

Lemma fp_obj_typeParam pos name : keeps R (obj_typeParam rec pos name).
Proof. unfold obj_typeParam. fp_tac. Qed.

#[local] Hint Resolve fp_obj_typeStub fp_obj_typeBody fp_obj_typeParam
  : footprint.

Lemma fp_obj name : keeps R (obj env fuel rec name).
Proof. unfold obj. fp_tac. Qed.

#[local] Hint Resolve fp_obj : footprint.

Lemma fp_doDecl_body pkg name : keeps R (doDecl_body env fuel rec pkg name).
Proof. unfold doDecl_body. fp_tac. Qed.

End FootprintReaders.

(** Every call of [doDecl] and of [typAt] is in [R]. *)
Lemma fp_run fuel :
  (∀ pkg name, keeps R (rec_doDecl (run env fuel) pkg name)) ∧
  (∀ off base, keeps R (rec_typAt (run env fuel) off base)).
Proof.
  induction fuel as [|fuel [IH1 IH2]]; simpl.
  - split; intros; apply fp_outOfFuel.
  - split; intros.
    + by apply fp_doDecl_body.
    + by apply fp_typAt_body.
Qed.

Lemma fp_doDecl fuel pkg name : keeps R (doDecl env fuel pkg name).
Proof. apply fp_run. Qed.

Lemma fp_typAt fuel off base : keeps R (typAt env fuel off base).
Proof. apply fp_run. Qed.

#[local] Hint Resolve fp_doDecl : footprint.

Lemma fp_decls fuel pkg names :
  keeps R (sequenceM_ (doDecl env fuel pkg) names).
Proof. apply fp_sequenceM_. intros name. apply fp_doDecl. Qed.

(** The reading of the index. *)
Hypothesis HI : FootprintIndex env R.

Lemma fp_pkgCache off pkg :
  keeps R (modifyP (λ q, set_pkgCache q (<[off := pkg]> (pkgCache q)))).
Proof. apply fp_modifyState. intros st. apply (FI_pkgCache _ _ HI). Qed.

Lemma fp_pkgIndex pkg idx :
  keeps R (modifyP (λ q, set_pkgIndex q (<[pkg := idx]> (pkgIndex q)))).
Proof. apply fp_modifyState. intros st. apply (FI_pkgIndex _ _ HI). Qed.

#[local] Hint Resolve fp_pkgCache fp_pkgIndex : footprint.

(** A new package under a path that the [imports] map does not hold. *)
Lemma fp_NewPackage_import path name r st a r' st' :
  imports st !! path = None →
  (pkg ← NewPackage path name;
   modifyState (λ st, set_imports st (<[path := pkg]> (imports st)));;
   mret pkg) r st = Ok a r' st' →
  R st st'.
Proof.
  intros Hnone. unfold NewPackage. munfold. intros [= _ _ <-].
  eapply (F_trans _ _ HF); [apply (FI_NewPackage _ _ HI st path name)|].
  exact (FI_import _ _ HI (set_packages st _) path (length (packages st)) Hnone).
Qed.

(** A reader that starts from a known state. *)
Lemma fp_bind_at {A B} (m : M A) (k : A → M B) r st b r' st' :
  (∀ a r1 st1, m r st = Ok a r1 st1 → R st st1) →
  (∀ a, keeps R (k a)) →
  (m ≫= k) r st = Ok b r' st' → R st st'.
Proof.
  intros Hm Hk. munfold.
  destruct (m r st) as [a r1 st1| |] eqn:Hrun; [|done..].
  intros Hrun'. eapply (F_trans _ _ HF); [by eapply Hm|by eapply Hk].
Qed.

Lemma fp_getState_bind {A} (k : state → M A) :
  (∀ r st a r' st', k st r st = Ok a r' st' → R st st') →
  keeps R (getState ≫= k).
Proof. intros Hk r st a r' st'. apply Hk. Qed.

Lemma fp_pkgEntry fuel path : keeps R (pkgEntry fuel path).
Proof.
  unfold pkgEntry.
  do 5 (apply fp_bind; [eauto with footprint|intros ?]).
  apply fp_getState_bind. intros r st pkg r' st'.
  apply fp_bind_at; [|intros ?; fp_tac].
  destruct (imports st !! _) as [pkg0|] eqn:Himp.
  - intros pkg1 r1 st1.
    apply (fp_bind (Package_Name (Some pkg0))); [apply fp_Package_Name|].
    intros nm. destruct (negb _); [apply fp_errorf|apply fp_ret].
  - intros pkg1 r1 st1. by apply fp_NewPackage_import.
Qed.

Lemma fp_pkgList fuel fuel' n path :
  keeps R (repeatM fuel n (pkgEntry fuel' path)).
Proof. apply fp_repeatM, fp_pkgEntry. Qed.

End Footprints.

(** **** The packages and the [imports] map *)

Lemma R_names_refl st : R_names st st.
Proof. split; [done|]. intros i pk Hi. eauto 10. Qed.

Lemma R_names_trans st1 st2 st3 :
  R_names st1 st2 → R_names st2 st3 → R_names st1 st3.
Proof.
  intros [Hi1 Hp1] [Hi2 Hp2]. split; [by etrans|].
  intros i pk Hpk.
  destruct (Hp1 i pk Hpk) as (pk2 & H2 & Hpath2 & Hname2 & Hs2).
  destruct (Hp2 i pk2 H2) as (pk3 & H3 & Hpath3 & Hname3 & Hs3).
  exists pk3. split_and!; [done|congruence|congruence|by etrans].
Qed.

(** A change of the importer or of the types. *)
Lemma R_names_same st st' :
  packages st' = packages st → imports st' = imports st → R_names st st'.
Proof. intros Hp Hi. unfold R_names. rewrite Hp, Hi. apply R_names_refl. Qed.

Lemma Scope_Insert_grows o pk :
  pkg_path (Scope_Insert o pk) = pkg_path pk ∧
  pkg_name (Scope_Insert o pk) = pkg_name pk ∧
  pkg_scope pk ⊆ pkg_scope (Scope_Insert o pk).
Proof.
  unfold Scope_Insert.
  destruct (pkg_scope pk !! Object_name o) eqn:E; [done|]. simpl.
  split_and!; [done..|]. by apply insert_subseteq.
Qed.

Lemma R_names_Footprint env : FootprintIndex env R_names.
Proof.
  split; [split|..]; try (intros; by apply R_names_same).
  - apply R_names_trans.
  - intros st o pkg. split; [done|]. simpl. intros i pk Hi.
    rewrite list_lookup_alter. destruct (decide (pkg = i)) as [->|]; [|by eauto 10].
    rewrite Hi. exists (Scope_Insert o pk). split; [done|].
    apply Scope_Insert_grows.
  - intros st path name. split; [done|]. simpl. intros i pk Hi.
    exists pk. split; [|done]. by apply lookup_app_l_Some.
  - intros st path pkg Hnone. split; [|by eauto 10].
    simpl. by apply insert_subseteq.
Qed.

Lemma R_names_UpdateStep : UpdateStep R_names.
Proof. intros st t f Hf. by apply R_names_same. Qed.

(** **** The data, the index and the string cache *)

Lemma R_tables_Footprint env : Footprint env R_tables.
Proof.
  split; unfold R_tables; simpl; try (intros; by split_and!).
  - intros st1 st2 st3 (?&?&?&?&?&?&?&?) (?&?&?&?&?&?&?&?).
    split_and!; try congruence. by etrans.
  - intros st off s Hnone. split_and!; try done. by apply insert_subseteq.
Qed.

Lemma R_tables_UpdateStep : UpdateStep R_tables.
Proof. intros st t f Hf. unfold R_tables. simpl. by split_and!. Qed.

(** **** The interfaces *)

Lemma R_interfaces_refl st : R_interfaces st st.
Proof.
  split_and!; [by intros r n; eauto|done|].
  intros t n Hle Ht. apply lookup_lt_Some in Ht. lia.
Qed.

Lemma nodesKept_length st st' :
  nodesKept st st' → (length (types st) ≤ length (types st'))%nat.
Proof.
  intros HK. destruct (types st) as [|n0 h] eqn:E using rev_ind; [simpl; lia|].
  clear IHh. rewrite length_app. simpl.
  destruct (HK (length h) n0) as (n' & Hn' & _).
  { rewrite E. by apply list_lookup_middle. }
  apply lookup_lt_Some in Hn'. lia.
Qed.

Lemma R_interfaces_trans st1 st2 st3 :
  R_interfaces st1 st2 → R_interfaces st2 st3 → R_interfaces st1 st3.
Proof.
  intros (HK1 & HL1 & HN1) (HK2 & HL2 & HN2). split_and!.
  - intros r n Hr. destruct (HK1 r n Hr) as (n2 & H2 & E2).
    destruct (HK2 r n2 H2) as (n3 & H3 & E3). exists n3. split; congruence.
  - eauto.
  - intros t n Hle Ht Hn.
    destruct (decide (length (types st2) ≤ t)%nat) as [Hge|Hlt]; [by eauto|].
    destruct (lookup_lt_is_Some_2 (types st2) t) as [n2 H2]; [lia|].
    destruct (HK2 t n2 H2) as (n3 & H3 & E3).
    assert (n3 = n) as -> by congruence.
    apply HL2. eapply HN1; [done..|congruence].
Qed.

(** A change of the packages, of the [imports] map or of the importer
    that leaves the list of interfaces alone. *)
Lemma R_interfaces_same st st' :
  types st' = types st → interfaceList (p st') = interfaceList (p st) →
  R_interfaces st st'.
Proof.
  intros Ht Hl. unfold R_interfaces, nodesKept. rewrite Ht, Hl.
  apply R_interfaces_refl.
Qed.

Lemma R_interfaces_Footprint env :
  InstantiateExtends env → InstantiateNoInterface env →
  FootprintIndex env R_interfaces.
Proof.
  intros HE HN.
  split; [split|..]; try (intros; by apply R_interfaces_same).
  - apply R_interfaces_trans.
  - intros st nd Hnd. split_and!; simpl; [|done|].
    + intros r n Hr. exists n. split; [|done]. by apply lookup_app_l_Some.
    + intros t n Hle Ht Hn. exfalso.
      apply lookup_app_Some in Ht as [Ht|[_ Ht]].
      * apply lookup_lt_Some in Ht. lia.
      * apply list_lookup_singleton_Some in Ht as [_ <-]. congruence.
  - intros st ms es. split_and!; simpl.
    + intros r n Hr. exists n. split; [|done]. by apply lookup_app_l_Some.
    + intros t Ht. apply elem_of_app. by left.
    + intros t n Hle Ht Hn.
      apply lookup_app_Some in Ht as [Ht|[_ Ht]].
      * apply lookup_lt_Some in Ht. lia.
      * apply list_lookup_singleton_Some in Ht as [Ht _].
        apply elem_of_app. right. apply list_elem_of_singleton. lia.
  - intros st b targs h t Hinst. split_and!; simpl; [|done|].
    + intros r n Hr. by eapply HE.
    + intros t0 n Hle Ht Hn. exfalso.
      rewrite (HN _ _ _ _ _ Hinst t0 n Hle Ht) in Hn. done.
Qed.

Lemma R_interfaces_UpdateStep : UpdateStep R_interfaces.
Proof.
  intros st t f Hf. split_and!; simpl; [by apply nodesKept_alter|done|].
  intros t0 n Hle Ht. apply lookup_lt_Some in Ht.
  rewrite length_alter in Ht. lia.
Qed.

(** *** Declarations stay *)

Lemma Lookup_R_names st st' pkg name o :
  R_names st st' → Lookup st pkg name = Some o → Lookup st' pkg name = Some o.
Proof.
  intros [_ HR]. unfold Lookup, pkgref in *.
  destruct (packages st !! pkg) as [pk|] eqn:Hpk; [|done]. simpl.
  destruct (HR pkg pk Hpk) as (pk' & Hpk' & _ & _ & Hs). rewrite Hpk'. simpl.
  intros Ho. by eapply lookup_weaken.
Qed.

(** No call of [typAt] or of [doDecl] takes a declaration out of a scope
    or puts another object in its place, and none takes an entry out of the
    [imports] map or a package out of the list: what [Lookup] found before
    the call it finds after it. *)
Theorem declarations_stay (env : Env) (fuel : nat) (st st' : state) :
  (∃ off base r t r', typAt env fuel off base r st = Ok t r' st') ∨
  (∃ pkg name r r', doDecl env fuel pkg name r st = Ok tt r' st') →
  imports st ⊆ imports st' ∧
  (∀ i pk, packages st !! i = Some pk →
           ∃ pk', packages st' !! i = Some pk' ∧
                  pkg_path pk' = pkg_path pk ∧ pkg_name pk' = pkg_name pk) ∧
  ∀ pkg name o, Lookup st pkg name = Some o → Lookup st' pkg name = Some o.
Proof.
  intros Hcall.
  assert (R_names st st') as HR.
  { pose proof (FI_readers _ _ (R_names_Footprint env)) as HF.
    destruct Hcall as [(off & base & r & t & r' & H)|(pkg & name & r & r' & H)].
    - by eapply (fp_typAt env R_names HF R_names_UpdateStep).
    - by eapply (fp_doDecl env R_names HF R_names_UpdateStep). }
  split_and!.
  - apply HR.
  - intros i pk Hi. destruct HR as [_ HR].
    destruct (HR i pk Hi) as (pk' & ? & ? & ? & _). eauto.
  - intros pkg name o. by apply Lookup_R_names.
Qed.

(** *** The tables of the importer *)

(** What [stringAt] and [pkgAt] answered they answer again after any call
    of [typAt] or of [doDecl]: the calls leave the data and the package
    cache as they are and take no entry out of the string cache, so that
    the later request is served from the cache and changes nothing. *)
Theorem stringAt_stable (env : Env) (fuel : nat) (st st' : state) :
  (∃ off base r t r', typAt env fuel off base r st = Ok t r' st') ∨
  (∃ pkg name r r', doDecl env fuel pkg name r st = Ok tt r' st') →
  (∀ off s r0 st0 r1,
     stringAt off r0 st0 = Ok s r1 st → ∀ r, stringAt off r st' = Ok s r st') ∧
  (∀ off pkg r0 r1,
     pkgAt off r0 st = Ok pkg r1 st → ∀ r, pkgAt off r st' = Ok pkg r st').
Proof.
  intros Hcall.
  assert (R_tables st st') as HR.
  { pose proof (R_tables_Footprint env) as HF.
    destruct Hcall as [(off & base & r & t & r' & H)|(pkg & name & r & r' & H)].
    - by eapply (fp_typAt env R_tables HF R_tables_UpdateStep).
    - by eapply (fp_doDecl env R_tables HF R_tables_UpdateStep). }
  destruct HR as (_ & _ & _ & _ & _ & Hpc & _ & Hsc).
  split.
  - intros off s r0 st0 r1 H r.
    assert (stringCache (p st) !! off = Some s) as Hc.
    { revert H. unfold stringAt. munfold.
      destruct (stringCache (p st0) !! off) as [s0|] eqn:E.
      - intros [= <- _ <-]. done.
      - intros H. minv H. simplify_eq. simpl. apply lookup_insert_eq. }
    unfold stringAt. munfold. by rewrite (lookup_weaken _ _ _ _ Hc Hsc).
  - intros off pkg r0 r1 H r. revert H. unfold pkgAt. munfold. rewrite Hpc.
    destruct (pkgCache (p st) !! off) as [pkg0|] eqn:E.
    + by intros [= <- _].
    + destruct (stringAt off r0 st); done.
Qed.

(** *** [doDecl] declares *)

Lemma kp_ret {A} (a : A) : keepsPkg (mret a).
Proof. intros r st a' r' st'. munfold. by intros [= _ <- _]. Qed.

Lemma kp_bind {A B} (m : M A) (k : A → M B) :
  keepsPkg m → (∀ a, keepsPkg (k a)) → keepsPkg (m ≫= k).
Proof.
  intros Hm Hk r st b r' st'. munfold.
  destruct (m r st) as [a r1 st1| |] eqn:Hrun; [|done..].
  intros Hrun'. rewrite (Hk _ _ _ _ _ _ Hrun'). by eapply Hm.
Qed.

Lemma kp_errorf {A} e : keepsPkg (@errorf A e).
Proof. by intros r st a r' st'. Qed.

Lemma kp_outOfFuel {A} : keepsPkg (@outOfFuel A).
Proof. by intros r st a r' st'. Qed.

Lemma kp_getState : keepsPkg getState.
Proof. intros r st a r' st'. munfold. by intros [= _ <- _]. Qed.

Lemma kp_getReader : keepsPkg getReader.
Proof. intros r st a r' st'. munfold. by intros [= _ <- _]. Qed.

Lemma kp_modifyState f : keepsPkg (modifyState f).
Proof. intros r st a r' st'. munfold. by intros [= _ <- _]. Qed.

Lemma kp_modifyP f : keepsPkg (modifyP f).
Proof. apply kp_modifyState. Qed.

Lemma kp_withReader {A} r0 (m : M A) : keepsPkg (withReader r0 m).
Proof.
  intros r st a r' st'. unfold withReader.
  destruct (m r0 st); [|done..]. by intros [= _ <- _].
Qed.

Lemma kp_repeatM {A} fuel n (body : M A) :
  keepsPkg body → keepsPkg (repeatM fuel n body).
Proof.
  intros Hbody. revert n. induction fuel as [|fuel IH]; intros n; simpl.
  - destruct (n <=? 0); [apply kp_ret|apply kp_outOfFuel].
  - destruct (n <=? 0); [apply kp_ret|].
    apply kp_bind; [done|]. intros x.
    apply kp_bind; [apply IH|]. intros xs. apply kp_ret.
Qed.

Lemma kp_int64 : keepsPkg int64_.
Proof. unfold int64_. intros r st a r' st' H. minv H. by simplify_eq. Qed.

Lemma kp_uint64 : keepsPkg uint64_.
Proof. unfold uint64_. intros r st a r' st' H. minv H. by simplify_eq. Qed.

Lemma kp_byte : keepsPkg byte_.
Proof. unfold byte_. intros r st a r' st' H. minv H. by simplify_eq. Qed.

Lemma kp_makeSlice n : keepsPkg (makeSlice n).
Proof. unfold makeSlice. destruct (_ <=? _); [apply kp_errorf|apply kp_ret]. Qed.

Lemma kp_alloc nd : keepsPkg (alloc nd).
Proof. intros r st a r' st'. unfold alloc. by intros [= _ <- _]. Qed.

Lemma kp_update t f : keepsPkg (update t f).
Proof. apply kp_modifyState. Qed.

Lemma kp_stringAt off : keepsPkg (stringAt off).
Proof.
  intros r st s r' st'. unfold stringAt. munfold. intros H. minv H; by simplify_eq.
Qed.

Lemma kp_declare o : keepsPkg (declare o).
Proof.
  unfold declare. destruct (Object_pkg o); [apply kp_modifyState|apply kp_errorf].
Qed.

Lemma kp_mpint typ : keepsPkg (mpint typ).
Proof.
  intros r st a r' st'. unfold mpint. munfold. intros H. minv H; by simplify_eq.
Qed.

Create HintDb readerpkg.

#[local] Hint Resolve kp_ret kp_errorf kp_outOfFuel kp_getState kp_getReader
  kp_modifyState kp_modifyP kp_withReader kp_int64 kp_uint64 kp_byte
  kp_makeSlice kp_alloc kp_update kp_stringAt kp_declare kp_mpint : readerpkg.

Ltac kp_step :=
  match goal with
  | |- keepsPkg (mbind _ _) => apply kp_bind; [|intros ?]
  | |- keepsPkg (repeatM _ _ _) => apply kp_repeatM
  | |- keepsPkg (if ?b then _ else _) => destruct b
  | |- keepsPkg (match ?x with _ => _ end) => destruct x
  | |- keepsPkg _ => solve [eauto with readerpkg]
  end.

Ltac kp_tac := repeat kp_step.

Lemma kp_bool : keepsPkg bool_.
Proof. unfold bool_. kp_tac. Qed.

Lemma kp_string : keepsPkg string_.
Proof. unfold string_. kp_tac. Qed.

#[local] Hint Resolve kp_bool kp_string : readerpkg.

Lemma kp_ident : keepsPkg ident_.
Proof. apply kp_string. Qed.

Lemma kp_pos env : keepsPkg (pos env).
Proof.
  intros r st a r' st'. unfold pos, posv0, posv1, int64_. munfold. intros H.
  minv H; simplify_eq; try done;
    match goal with
    | Hs : string_ _ _ = Ok _ _ _ |- _ => by apply kp_string in Hs
    end.
Qed.

Lemma kp_mpfloat typ : keepsPkg (mpfloat typ).
Proof. unfold mpfloat. kp_tac. Qed.

Lemma kp_Underlying_ env t : keepsPkg (Underlying_ env t).
Proof. unfold Underlying_. kp_tac. Qed.

Lemma kp_allocT nd : keepsPkg (allocT nd).
Proof. unfold allocT. kp_tac. Qed.

Lemma kp_NewNamedStub pos pkg name : keepsPkg (NewNamedStub pos pkg name).
Proof. unfold NewNamedStub. kp_tac. Qed.

#[local] Hint Resolve kp_ident kp_pos kp_mpfloat kp_Underlying_ kp_allocT
  kp_NewNamedStub : readerpkg.

Section PkgReaders.

Variable env : Env.
Variable fuel : nat.
Variable rec : Rec.
Hypothesis Hrec_typAt : ∀ off base, keepsPkg (rec_typAt rec off base).
Hypothesis Hrec_doDecl : ∀ pkg name, keepsPkg (rec_doDecl rec pkg name).

Lemma kp_typ : keepsPkg (typ rec).
Proof. unfold typ. kp_tac. Qed.

#[local] Hint Resolve kp_typ : readerpkg.

Lemma kp_param : keepsPkg (param env rec).
Proof. unfold param. kp_tac. Qed.

#[local] Hint Resolve kp_param : readerpkg.

Lemma kp_paramList : keepsPkg (paramList env fuel rec).
Proof. unfold paramList. kp_tac. Qed.

#[local] Hint Resolve kp_paramList : readerpkg.

Lemma kp_signature recv : keepsPkg (signature env fuel rec recv).
Proof. unfold signature. kp_tac. Qed.

Lemma kp_tparamList : keepsPkg (tparamList fuel rec).
Proof. unfold tparamList. kp_tac. Qed.

Lemma kp_value : keepsPkg (value env rec).
Proof. unfold value. kp_tac. Qed.

#[local] Hint Resolve kp_signature kp_tparamList : readerpkg.

Lemma kp_obj_typeStub tag pos name : keepsPkg (obj_typeStub fuel rec tag pos name).
Proof. unfold obj_typeStub, declareStub. kp_tac. Qed.

End PkgReaders.

Lemma kp_rec_typAt env fuel off base : keepsPkg (rec_typAt (run env fuel) off base).
Proof.
  destruct fuel as [|fuel]; [apply kp_outOfFuel|]. simpl.
  unfold typAt_body, typAt_miss, typAt_decode. kp_tac.
Qed.

Lemma declare_Lookup o r st r' st' pkg :
  declare o r st = Ok tt r' st' →
  Object_pkg o = Some pkg → is_Some (packages st !! pkg) →
  is_Some (Lookup st' pkg (Object_name o)).
Proof.
  unfold declare. intros H Hpkg [pk Hpk]. rewrite Hpkg in H. revert H.
  munfold. intros [= _ <-]. unfold Lookup, pkgref in *. simpl.
  rewrite list_lookup_alter. destruct (decide (pkg = pkg)); [|done].
  rewrite Hpk. simpl. unfold Scope_Insert.
  destruct (pkg_scope pk !! Object_name o) eqn:E; simpl; [by rewrite E|].
  rewrite lookup_insert_eq. done.
Qed.

Lemma R_names_valid st st' pkg :
  R_names st st' → is_Some (packages st !! pkg) → is_Some (packages st' !! pkg).
Proof.
  intros [_ HR] [pk Hpk]. destruct (HR _ _ Hpk) as (pk' & ? & _). eauto.
Qed.

Section Declares.

Variable env : Env.
Variable fuel : nat.

Let rec := run env fuel.

Lemma obj_declares name pkg tag data r st r' st' :
  obj env fuel rec name r st = Ok tt r' st' →
  declReader r = tag :: data → currPkg r = Some pkg →
  is_Some (packages st !! pkg) →
  tag = "P"%byte ∨ is_Some (Lookup st' pkg name).
Proof.
  intros H Hr Hpkg Hvalid.
  pose proof (FI_readers _ _ (R_names_Footprint env)) as HF.
  pose proof R_names_UpdateStep as HU.
  pose proof (proj1 (fp_run env R_names HF R_names_UpdateStep fuel)) as HD.
  pose proof (proj2 (fp_run env R_names HF R_names_UpdateStep fuel)) as HT.
  pose proof (kp_rec_typAt env fuel) as KT.
  fold rec in HD, HT, KT.
  assert (∀ {A} (m : M A) r1 st1 a r2 st2,
            keepsPkg m → keeps R_names m → m r1 st1 = Ok a r2 st2 →
            currPkg r1 = Some pkg → is_Some (packages st1 !! pkg) →
            currPkg r2 = Some pkg ∧ is_Some (packages st2 !! pkg)) as Halong.
  { intros A m r1 st1 a r2 st2 K N E Hp Hv. split.
    - by rewrite (K _ _ _ _ _ E).
    - eapply R_names_valid; [by eapply N|done]. }
  assert (∀ o r1 st1 r2 st2,
            declare o r1 st1 = Ok tt r2 st2 →
            Object_pkg o = Some pkg → Object_name o = name →
            is_Some (packages st1 !! pkg) →
            is_Some (Lookup st2 pkg name)) as Hdecl.
  { intros o r1 st1 r2 st2 E Ho <- Hv. by eapply declare_Lookup. }
  revert H. unfold obj. munfold.
  destruct (byte_ r st) as [tg r1 st1| |] eqn:E1; [|done..].
  assert (tg = byteZ tag) as ->.
  { revert E1. unfold byte_. rewrite Hr. by intros [= <- _ _]. }
  destruct (Halong _ _ _ _ _ _ _ ltac:(eapply kp_byte; eauto)
                ltac:(eapply fp_byte; eauto with footprint) E1 Hpkg Hvalid)
    as [Hp1 Hv1].
  destruct (pos env r1 st1) as [ps r2 st2| |] eqn:E2; [|done..].
  destruct (Halong _ _ _ _ _ _ _ ltac:(eapply kp_pos; eauto)
                ltac:(eapply fp_pos; eauto with footprint) E2 Hp1 Hv1)
    as [Hp2 Hv2].
  destruct (byteZ tag =? 65).
  { (* 'A' *)
    destruct (typ rec r2 st2) as [t r3 st3| |] eqn:E3; [|done..].
    destruct (Halong _ _ _ _ _ _ _ ltac:(eapply kp_typ; eauto)
                ltac:(eapply fp_typ; eauto with footprint)
                E3 Hp2 Hv2) as [Hp3 Hv3].
    intros E4. right. by eapply Hdecl. }
  destruct (byteZ tag =? 67).
  { (* 'C' *)
    destruct (value env rec r2 st2) as [[t v] r3 st3| |] eqn:E3; [|done..].
    destruct (Halong _ _ _ _ _ _ _ ltac:(eapply kp_value; eauto)
                ltac:(eapply fp_value; eauto with footprint) E3 Hp2 Hv2) as [Hp3 Hv3].
    intros E4. right. by eapply Hdecl. }
  destruct ((byteZ tag =? 70) || (byteZ tag =? 71)).
  { (* 'F', 'G' *)
    match goal with
    | |- match ?m r2 st2 with _ => _ end = _ → _ =>
        destruct (m r2 st2) as [tps r3 st3| |] eqn:E3; [|done..];
        assert (currPkg r3 = Some pkg ∧ is_Some (packages st3 !! pkg))
          as [Hp3 Hv3]
    end.
    { destruct (byteZ tag =? 71).
      - by eapply (Halong _ _ _ _ _ _ _ ltac:(eapply kp_tparamList; eauto)
                ltac:(eapply fp_tparamList; eauto with footprint) E3).
      - revert E3. munfold. by intros [= _ <- <-]. }
    destruct (signature env fuel rec None r3 st3) as [sig r4 st4| |] eqn:E4;
      [|done..].
    destruct (Halong _ _ _ _ _ _ _ ltac:(eapply kp_signature; eauto)
                ltac:(eapply fp_signature; eauto with footprint) E4 Hp3 Hv3)
      as [Hp4 Hv4].
    destruct (update sig (Signature_SetTParams tps) r4 st4)
      as [[] r5 st5| |] eqn:E5; [|done..].
    destruct (Halong _ (update sig (Signature_SetTParams tps)) _ _ _ _ _
                ltac:(eapply kp_update; eauto)
                ltac:(eapply fp_update; eauto with footprint)
                E5 Hp4 Hv4) as [Hp5 Hv5].
    intros E6. right. by eapply Hdecl. }
  destruct ((byteZ tag =? 84) || (byteZ tag =? 85)).
  { (* 'T', 'U' *)
    destruct (obj_typeStub fuel rec (byteZ tag) ps name r2 st2)
      as [named r3 st3| |] eqn:E3; [|done..].
    intros E4. right.
    assert (is_Some (Lookup st3 pkg name)) as [o Ho].
    { revert E3. unfold obj_typeStub. munfold.
      match goal with
      | |- match ?m r2 st2 with _ => _ end = _ → _ =>
          destruct (m r2 st2) as [tps r2' st2'| |] eqn:E3; [|done..];
          assert (currPkg r2' = Some pkg ∧ is_Some (packages st2' !! pkg))
            as [Hp3 Hv3]
      end.
      { destruct (byteZ tag =? 85).
        - by eapply (Halong _ _ _ _ _ _ _ ltac:(eapply kp_tparamList; eauto)
                ltac:(eapply fp_tparamList; eauto with footprint) E3).
        - revert E3. munfold. by intros [= _ <- <-]. }
      unfold declareStub. munfold.
      destruct (NewNamedStub ps (currPkg r2') name r2' st2')
        as [[ob nm] r4 st4| |] eqn:E4'; [|done..].
      destruct (Halong _ _ _ _ _ _ _ ltac:(eapply kp_NewNamedStub; eauto)
                ltac:(eapply fp_NewNamedStub; eauto with footprint) E4' Hp3 Hv3)
        as [Hp4 Hv4].
      assert (tn_pkg ob = Some pkg ∧ tn_name ob = name) as [Hob1 Hob2].
      { revert E4'. unfold NewNamedStub, alloc. munfold.
        intros [= <- _ _ _]. by rewrite Hp3. }
      destruct (update nm (Named_SetTParams tps) r4 st4)
        as [[] r5 st5| |] eqn:E5; [|done..].
      destruct (Halong _ (update nm (Named_SetTParams tps)) _ _ _ _ _
                  ltac:(eapply kp_update; eauto)
                  ltac:(eapply fp_update; eauto with footprint)
                  E5 Hp4 Hv4) as [Hp5 Hv5].
      destruct (declare (TypeNameObj ob) r5 st5) as [[] r6 st6| |] eqn:E6;
        [|done..].
      intros [= _ _ <-]. by eapply Hdecl. }
    exists o. eapply Lookup_R_names; [|done].
    eapply fp_obj_typeBody; [exact HF|exact HU|try exact HD; try exact HT..|exact E4]. }
  destruct (byteZ tag =? 80) eqn:EP.
  { (* 'P' *)
    intros _. left. apply Z.eqb_eq in EP.
    clear -EP. revert EP. unfold byteZ.
    destruct tag; vm_compute; intros; by simplify_eq. }
  destruct (byteZ tag =? 86); [|done].
  (* 'V' *)
  destruct (typ rec r2 st2) as [t r3 st3| |] eqn:E3; [|done..].
  destruct (Halong _ _ _ _ _ _ _ ltac:(eapply kp_typ; eauto)
                ltac:(eapply fp_typ; eauto with footprint)
              E3 Hp2 Hv2) as [Hp3 Hv3].
  intros E4. right. by eapply Hdecl.
Qed.

End Declares.

(** [iimporter.doDecl] declares: a call that returns for a name of a
    package leaves the name in the scope of the package, unless the
    declaration read is that of a type parameter (tag ['P']); so that a
    later call for the name returns at once and changes nothing. *)
Theorem doDecl_declares (env : Env) (fuel : nat) (pkg : pkgref) (name : string)
    (r r' : importReader) (st st' : state) :
  is_Some (packages st !! pkg) →
  doDecl env fuel pkg name r st = Ok tt r' st' →
  (∃ off, pkgIndex (p st) !! pkg ≫= (λ idx, idx !! name) = Some off ∧
          declData (p st) !! Z.to_nat off = Some "P"%byte) ∨
  (is_Some (Lookup st' pkg name) ∧
   ∀ fuel' r2, doDecl env (S fuel') pkg name r2 st' = Ok tt r2 st').
Proof.
  intros Hvalid H.
  assert (is_Some (Lookup st' pkg name) →
          is_Some (Lookup st' pkg name) ∧
          ∀ fuel' r2, doDecl env (S fuel') pkg name r2 st' = Ok tt r2 st')
    as Hnoop.
  { intros [o Ho]. split; [by eauto|]. intros fuel' r2.
    unfold doDecl. simpl. unfold doDecl_body. munfold. by rewrite Ho. }
  destruct fuel as [|fuel]; [done|].
  revert H. unfold doDecl. simpl. unfold doDecl_body. munfold.
  destruct (Lookup st pkg name) as [o|] eqn:Ho.
  { intros [= _ <-]. right. apply Hnoop. by rewrite Ho. }
  match goal with
  | |- match ?x with Some _ => _ | None => _ end _ _ = _ → _ =>
      destruct x as [off|] eqn:Hoff; [|done]
  end.
  destruct (Z.of_nat (length (declData (p st))) <? off) eqn:Hlen; [done|].
  unfold withReader.
  destruct (obj env fuel (run env fuel) name
              (newReader (Some pkg) (drop (Z.to_nat off) (declData (p st)))) st)
    as [[] r1 st1| |] eqn:Hobj; [|done..].
  intros [= _ <-].
  destruct (drop (Z.to_nat off) (declData (p st))) as [|tag data] eqn:Hdrop.
  { revert Hobj. unfold obj, byte_. by munfold. }
  destruct (obj_declares env fuel name pkg tag data _ _ _ _ Hobj)
    as [-> | Hl]; try done.
  - left. exists off. split; [done|].
    rewrite <- (Nat.add_0_r (Z.to_nat off)), <- lookup_drop, Hdrop. done.
  - right. by apply Hnoop.
Qed.

(** *** [iImportData] *)

Lemma mbind_Ok {A B} (m : M A) (k : A → M B) r st b r' st' :
  (m ≫= k) r st = Ok b r' st' →
  ∃ a r1 st1, m r st = Ok a r1 st1 ∧ k a r1 st1 = Ok b r' st'.
Proof.
  munfold. destruct (m r st) as [a r1 st1| |]; [|done..]. eauto.
Qed.

(** *** The types that were there stay *)

Section OldTypes.

Variable env : Env.
Variable n0 : nat.
Hypothesis HA : InstantiateAppends env.

Lemma R_old_refl st : R_old n0 st st.
Proof. by intros H. Qed.

Lemma R_old_trans st1 st2 st3 :
  R_old n0 st1 st2 → R_old n0 st2 st3 → R_old n0 st1 st3.
Proof.
  intros H12 H23 H1. destruct (H12 H1) as [H2 E2].
  destruct (H23 H2) as [H3 E3]. split; [done|congruence].
Qed.

Lemma R_old_same st st' : types st' = types st → R_old n0 st st'.
Proof. intros E. unfold R_old. by rewrite E. Qed.

Lemma R_old_app st new : R_old n0 st (set_types st (types st ++ new)).
Proof.
  intros H. simpl. rewrite length_app. split; [lia|].
  by rewrite take_app_le.
Qed.

Lemma R_old_Footprint : FootprintIndex env (R_old n0).
Proof.
  split; [split|..]; try (intros; by apply R_old_same).
  - apply R_old_trans.
  - intros st nd _. apply R_old_app.
  - intros st ms es H. simpl. rewrite length_app. split; [lia|].
    by rewrite take_app_le.
  - intros st b targs h t [new ->]%HA. apply R_old_app.
Qed.

Lemma R_fresh_same st st' :
  types st' = types st → interfaceList (p st') = interfaceList (p st) →
  R_fresh n0 st st'.
Proof. intros E1 E2. unfold R_fresh. by rewrite E1, E2. Qed.

Lemma R_fresh_Footprint : FootprintIndex env (R_fresh n0).
Proof.
  split; [split|..]; try (intros; by apply R_fresh_same).
  - intros st1 st2 st3 H12 H23 H1 L1. destruct (H12 H1 L1) as [H2 L2].
    by apply H23.
  - intros st nd _ H L. simpl. rewrite length_app. split; [lia|done].
  - intros st ms es H L. simpl. rewrite length_app. split; [lia|].
    apply Forall_app. split; [done|]. by repeat constructor.
  - intros st b targs h t [new ->]%HA H L. simpl. rewrite length_app.
    split; [lia|done].
Qed.

Lemma R_fresh_UpdateStep : UpdateStep (R_fresh n0).
Proof. intros st t f _ H L. simpl. by rewrite length_alter. Qed.

(** The readers that set a field of a type set it on a type they have
    made. *)
Lemma ko_keeps {A} (m : M A) :
  keeps (R_old n0) m → keepsOld n0 m (λ _, True).
Proof. intros Hm r st a r' st' H Hrun. split; [|done]. by eapply Hm. Qed.

Lemma ko_done {A} (m : M A) Q : keepsOld n0 m Q → keeps (R_old n0) m.
Proof. intros Hm r st a r' st' Hrun H. by eapply Hm. Qed.

Lemma ko_weaken {A} (m : M A) (Q Q' : A → Prop) :
  keepsOld n0 m Q → (∀ a, Q a → Q' a) → keepsOld n0 m Q'.
Proof.
  intros Hm HQ r st a r' st' H Hrun.
  destruct (Hm _ _ _ _ _ H Hrun) as [? ?]. split; [done|by apply HQ].
Qed.

Lemma ko_bind {A B} (m : M A) (k : A → M B) (Q1 : A → Prop) (Q2 : B → Prop) :
  keepsOld n0 m Q1 → (∀ a, Q1 a → keepsOld n0 (k a) Q2) →
  keepsOld n0 (m ≫= k) Q2.
Proof.
  intros Hm Hk r st b r' st' H Hrun.
  apply mbind_Ok in Hrun as (a & r1 & st1 & H1 & H2).
  destruct (Hm _ _ _ _ _ H H1) as [[L1 E1] Ha].
  destruct (Hk a Ha _ _ _ _ _ L1 H2) as [[L2 E2] Hb].
  split; [|done]. split; [done|congruence].
Qed.

Lemma ko_ret {A} (a : A) (Q : A → Prop) : Q a → keepsOld n0 (mret a) Q.
Proof. intros Ha r st a' r' st' H. munfold. by intros [= <- _ <-]. Qed.

Lemma ko_errorf {A} e (Q : A → Prop) : keepsOld n0 (@errorf A e) Q.
Proof. by intros r st a r' st' H. Qed.

Lemma ko_alloc nd : keepsOld n0 (alloc nd) (λ t, (n0 ≤ t)%nat).
Proof.
  intros r st a r' st' H. unfold alloc. intros [= <- _ <-]. simpl.
  rewrite length_app. split; [|done]. split; [lia|by rewrite take_app_le].
Qed.

Lemma ko_update t f : (n0 ≤ t)%nat → keepsOld n0 (update t f) (λ _, True).
Proof.
  intros Ht r st a r' st' H. unfold update. munfold. intros [= _ _ <-]. simpl.
  rewrite length_alter. split; [|done]. split; [done|].
  by rewrite take_alter_ge.
Qed.

Lemma ko_withReader {A} r0 (m : M A) Q :
  keepsOld n0 m Q → keepsOld n0 (withReader r0 m) Q.
Proof.
  intros Hm r st a r' st' H. unfold withReader.
  destruct (m r0 st) as [a1 r1 st1| |] eqn:Hrun; [|done..].
  intros [= <- _ <-]. by eapply Hm.
Qed.

Lemma ko_repeatM {A} fuel n (body : M A) :
  keepsOld n0 body (λ _, True) → keepsOld n0 (repeatM fuel n body) (λ _, True).
Proof.
  intros Hbody. apply ko_keeps.
  eapply fp_repeatM; [apply (FI_readers _ _ R_old_Footprint)|].
  by eapply ko_done.
Qed.

Lemma ko_NewNamedStub pos pkg name :
  keepsOld n0 (NewNamedStub pos pkg name) (λ on, (n0 ≤ on.2)%nat).
Proof.
  intros r st a r' st' H. unfold NewNamedStub, alloc. munfold.
  intros [= <- _ <-]. simpl. rewrite length_app.
  split; [|done]. split; [lia|by rewrite take_app_le].
Qed.

Lemma ko_NewTypeParamStub pos pkg name :
  keepsOld n0 (NewTypeParamStub pos pkg name) (λ t, (n0 ≤ t)%nat).
Proof.
  intros r st a r' st' H. unfold NewTypeParamStub, alloc. munfold.
  intros [= <- _ <-]. simpl. rewrite length_app.
  split; [|done]. split; [lia|by rewrite take_app_le].
Qed.

Section OldReaders.

Variable fuel : nat.
Variable rec : Rec.
Hypothesis Hrec_doDecl : ∀ pkg name, keeps (R_old n0) (rec_doDecl rec pkg name).
Hypothesis Hrec_typAt : ∀ off base, keeps (R_old n0) (rec_typAt rec off base).

Let HF : Footprint env (R_old n0) := FI_readers _ _ R_old_Footprint.

(** A reader without setters. *)
Ltac ko_fp lem := apply ko_keeps; eapply lem; eauto.

Lemma ko_signature recv :
  keepsOld n0 (signature env fuel rec recv) (λ sig, (n0 ≤ sig)%nat).
Proof.
  unfold signature.
  eapply ko_bind; [ko_fp fp_paramList|intros params _].
  eapply ko_bind; [ko_fp fp_paramList|intros results _].
  eapply ko_bind; [|intros variadic _; apply ko_alloc].
  destruct (0 <? _); [ko_fp fp_bool|by apply ko_ret].
Qed.

Lemma ko_tparams (b : bool) :
  keepsOld n0 (if b then tparamList fuel rec else mret []) (λ _, True).
Proof. destruct b; [ko_fp fp_tparamList|by apply ko_ret]. Qed.

Lemma ko_namedMethod named :
  (n0 ≤ named)%nat →
  keepsOld n0 (namedMethod env fuel rec named) (λ _, True).
Proof.
  intros Hnamed. unfold namedMethod.
  eapply ko_bind; [ko_fp fp_pos|intros mpos _].
  eapply ko_bind; [ko_fp fp_ident|intros mname _].
  eapply ko_bind; [ko_fp fp_param|intros recv _].
  eapply ko_bind; [apply ko_signature|intros msig Hsig].
  eapply ko_bind; [ko_fp fp_getState|intros st _].
  destruct (_ ≫= _) as [[]|]; try apply ko_errorf.
  eapply ko_bind; [|intros _ _].
  { destruct (0 <? _); [by apply ko_update|by apply ko_ret]. }
  eapply ko_bind; [ko_fp fp_getReader|intros r _].
  by apply ko_update.
Qed.

Lemma ko_obj_typeStub tag pos name :
  keepsOld n0 (obj_typeStub fuel rec tag pos name) (λ named, (n0 ≤ named)%nat).
Proof.
  unfold obj_typeStub, declareStub.
  eapply ko_bind; [apply ko_tparams|intros tparams _].
  eapply ko_bind; [ko_fp fp_getReader|intros r _].
  eapply ko_bind; [apply ko_NewNamedStub|intros [ob named] Hnamed].
  simpl in Hnamed.
  eapply ko_bind; [by apply ko_update|intros _ _].
  eapply ko_bind; [ko_fp fp_declare|intros _ _].
  by apply ko_ret.
Qed.

Lemma ko_obj_typeBody named :
  (n0 ≤ named)%nat →
  keepsOld n0 (obj_typeBody env fuel rec named) (λ _, True).
Proof.
  intros Hnamed. unfold obj_typeBody.
  eapply ko_bind; [ko_fp fp_uint64|intros off _].
  eapply ko_bind; [apply ko_keeps, Hrec_typAt|intros t _].
  eapply ko_bind; [ko_fp fp_Underlying_|intros underlying _].
  eapply ko_bind; [by apply ko_update|intros _ _].
  eapply ko_bind; [ko_fp fp_getState|intros st _].
  destruct (negb _); [|by apply ko_ret].
  eapply ko_bind; [ko_fp fp_uint64|intros n _].
  eapply ko_bind; [|intros _ _; by apply ko_ret].
  by apply ko_repeatM, ko_namedMethod.
Qed.

Lemma ko_obj_typeParam pos name :
  keepsOld n0 (obj_typeParam rec pos name) (λ _, True).
Proof.
  unfold obj_typeParam.
  eapply ko_bind; [ko_fp fp_getState|intros st _].
  destruct (_ <? _); [apply ko_errorf|].
  destruct (parseSubscript name) as [name0 sub].
  eapply ko_bind; [ko_fp fp_getReader|intros r _].
  eapply ko_bind; [apply ko_NewTypeParamStub|intros t Ht].
  destruct (sub =? 0); [apply ko_errorf|].
  eapply ko_bind; [ko_fp fp_Package_Name|intros pkgName _].
  eapply ko_bind; [ko_fp fp_tparamIndex|intros _ _].
  eapply ko_bind; [ko_fp fp_typ|intros c _].
  by apply ko_update.
Qed.

Lemma ko_obj name : keepsOld n0 (obj env fuel rec name) (λ _, True).
Proof.
  unfold obj.
  eapply ko_bind; [ko_fp fp_byte|intros tag _].
  eapply ko_bind; [ko_fp fp_pos|intros pos _].
  destruct (tag =? 65).
  { eapply ko_bind; [ko_fp fp_typ|intros t _].
    eapply ko_bind; [ko_fp fp_getReader|intros r _]. ko_fp fp_declare. }
  destruct (tag =? 67).
  { eapply ko_bind; [ko_fp fp_value|intros [t v] _].
    eapply ko_bind; [ko_fp fp_getReader|intros r _]. ko_fp fp_declare. }
  destruct (_ || _).
  { eapply ko_bind; [apply ko_tparams|intros tparams _].
    eapply ko_bind; [apply ko_signature|intros sig Hsig].
    eapply ko_bind; [by apply ko_update|intros _ _].
    eapply ko_bind; [ko_fp fp_getReader|intros r _]. ko_fp fp_declare. }
  destruct (_ || _).
  { eapply ko_bind; [apply ko_obj_typeStub|intros named Hnamed].
    by apply ko_obj_typeBody. }
  destruct (tag =? 80); [apply ko_obj_typeParam|].
  destruct (tag =? 86); [|apply ko_errorf].
  eapply ko_bind; [ko_fp fp_typ|intros t _].
  eapply ko_bind; [ko_fp fp_getReader|intros r _]. ko_fp fp_declare.
Qed.

Lemma old_doDecl_body pkg name :
  keeps (R_old n0) (doDecl_body env fuel rec pkg name).
Proof.
  apply (ko_done _ (λ _, True)). unfold doDecl_body.
  eapply ko_bind; [ko_fp fp_getState|intros st _].
  destruct (Lookup st pkg name); [by apply ko_ret|].
  destruct (_ ≫= _) as [off|]; [|apply ko_errorf].
  destruct (_ <? _); [apply ko_errorf|].
  apply ko_withReader, ko_obj.
Qed.

End OldReaders.

Lemma old_run fuel :
  (∀ pkg name, keeps (R_old n0) (rec_doDecl (run env fuel) pkg name)) ∧
  (∀ off base, keeps (R_old n0) (rec_typAt (run env fuel) off base)).
Proof.
  pose proof (FI_readers _ _ R_old_Footprint) as HF.
  induction fuel as [|fuel [IH1 IH2]]; simpl.
  - split; intros; by eapply fp_outOfFuel.
  - split; intros.
    + by apply old_doDecl_body.
    + eapply fp_typAt_body; eauto.
Qed.

End OldTypes.

(** The readers add types and change none that they did not make: a
    call of [typAt] or of [doDecl] that returns leaves every type that
    existed at the call as it was. *)
Theorem typAt_doDecl_add_types (env : Env) (fuel : nat) (st st' : state) :
  InstantiateAppends env →
  (∃ off base r t r', typAt env fuel off base r st = Ok t r' st') ∨
  (∃ pkg name r r', doDecl env fuel pkg name r st = Ok tt r' st') →
  types st `prefix_of` types st'.
Proof.
  intros HA Hcall.
  assert (R_old (length (types st)) st st') as HR.
  { destruct (old_run env (length (types st)) HA fuel) as [HD HT].
    destruct Hcall as [(off & base & r & t & r' & H)|(pkg & name & r & r' & H)].
    - by eapply HT.
    - by eapply HD. }
  destruct (HR (le_n _)) as [Hlen Htake]. rewrite firstn_all in Htake.
  exists (drop (length (types st)) (types st')).
  rewrite <- (take_drop (length (types st)) (types st')) at 1.
  by rewrite Htake.
Qed.


Lemma intReader_uint64_state path r st a r' st' :
  intReader_uint64 path r st = Ok a r' st' → st' = st.
Proof. unfold intReader_uint64. intros H. minv H. by simplify_eq. Qed.

Lemma sequenceM_update f l r st :
  sequenceM_ (λ t, update t f) l r st
  = Ok tt r (foldl (λ s t, set_types s (alter f t (types s))) st l).
Proof.
  revert st. induction l as [|t l IH]; intros st; [done|].
  simpl. unfold update at 1. munfold. apply IH.
Qed.

(** The parts of [importBody]: the importer is made with an empty list of
    interfaces, the index is read, the declarations of the local package
    are read, the interfaces are completed and the package is finished. *)
Lemma importBody_inv env fuel version path r st pkg r' st' :
  importBody env fuel version path r st = Ok pkg r' st' →
  ∃ q0 n r1 r2 st1 others names stA,
    interfaceList q0 = [] ∧
    repeatM fuel n (pkgEntry fuel path) r1 (set_p st q0)
    = Ok (pkg :: others) r2 st1 ∧
    names = sortStrings (map_to_list (default ∅ (pkgIndex (p st1) !! pkg))).*1 ∧
    sequenceM_ (doDecl env fuel pkg) names r2 st1 = Ok tt r' stA ∧
    st' = set_packages (completeAll stA)
            (alter (Package_finish (sortByPath (completeAll stA) others)) pkg
               (packages (completeAll stA))).
Proof.
  unfold importBody. intros H.
  apply mbind_Ok in H as (sLen & r1 & st1 & H1 & H).
  apply intReader_uint64_state in H1 as ->.
  apply mbind_Ok in H as (dLen & r2 & st2 & H2 & H).
  apply intReader_uint64_state in H2 as ->.
  cbv zeta in H.
  destruct (_ <? 0) in H; [done|].
  apply mbind_Ok in H as (r3 & r4 & st4 & H3 & H).
  unfold getReader in H3. injection H3 as <- <- <-.
  destruct (_ <? _) in H; [done|].
  apply mbind_Ok in H as ([] & r5 & st5 & H5 & H).
  unfold putReader in H5. injection H5 as <- <-.
  destruct (_ || _) in H; [done|].
  apply mbind_Ok in H as ([] & r6 & st6 & H6 & H).
  unfold modifyState in H6. injection H6 as <- <-.
  apply mbind_Ok in H as (nPkgs & r7 & st7 & H7 & H).
  apply intReader_uint64_state in H7 as ->.
  apply mbind_Ok in H as ([] & r8 & st8 & H8 & H).
  assert (st8 = set_p st
            {| exportVersion := version; ipath := path;
               Importer.version := version;
               stringData := take (Z.to_nat (int64 sLen))
                               (take (Z.to_nat (int64 (int64 sLen + int64 dLen)))
                                  (declReader r2));
               stringCache := ∅; pkgCache := ∅;
               declData := drop (Z.to_nat (int64 sLen))
                             (take (Z.to_nat (int64 (int64 sLen + int64 dLen)))
                                (declReader r2));
               pkgIndex := ∅;
               typCache := foldl (λ m '(i, pt), <[Z.of_nat i := pt]> m) ∅
                             (imap pair (predeclared env));
               tparamIndex := ∅; interfaceList := [] |}) as ->.
  { revert H8. unfold makeSlice. destruct (_ <=? _); [done|]. by intros [= _ <-]. }
  apply mbind_Ok in H as (pkgList & r9 & st9 & H9 & H).
  destruct pkgList as [|localpkg others]; [done|].
  apply mbind_Ok in H as (stg & r10 & st10 & H10 & H).
  unfold getState in H10. injection H10 as <- <- <-.
  apply mbind_Ok in H as ([] & r11 & st11 & H11 & H).
  apply mbind_Ok in H as (stg & r12 & st12 & H12 & H).
  unfold getState in H12. injection H12 as <- <- <-.
  apply mbind_Ok in H as ([] & r13 & st13 & H13 & H).
  rewrite sequenceM_update in H13. injection H13 as <- <-.
  apply mbind_Ok in H as ([] & r14 & st14 & H14 & H).
  unfold modifyState in H14. injection H14 as <- <-.
  injection H as <- <- <-.
  eexists _, nPkgs, _, r9, st9, others, _, st11.
  split; [|split; [exact H9|split; [reflexivity|split; [exact H11|done]]]].
  done.
Qed.

(** [iImportData] that returns a package has run [importBody] on the
    state made of its arguments. *)
Lemma iImportData_inv env fuel types0 packages0 imports0 data path pkg st :
  iImportData env fuel types0 packages0 imports0 data path = Imported pkg st →
  ∃ version r q r',
    importBody env fuel version path r
      {| p := q; types := types0; packages := packages0; imports := imports0 |}
    = Ok pkg r' st.
Proof.
  unfold iImportData.
  destruct (ReadUvarint data) as [[v err] rest].
  destruct err as [e|]; [done|].
  destruct (_ || _); [|by destruct (_ <? _)].
  match goal with
  | |- context [importBody ?e ?f ?v ?p ?r ?s] =>
      destruct (importBody e f v p r s) as [pkg' r' st'| |] eqn:Hbody
  end; [|done..].
  intros [= <- <-]. eauto.
Qed.

(** The state that the completion loop leaves. *)
Lemma foldl_update_frame f l st st' :
  st' = foldl (λ s t, set_types s (alter f t (types s))) st l →
  p st' = p st ∧ packages st' = packages st ∧ imports st' = imports st ∧
  types st' = foldl (λ h t, alter f t h) (types st) l.
Proof.
  intros ->. revert st. induction l as [|t l IH]; intros st; [done|].
  simpl. destruct (IH (set_types st (alter f t (types st)))) as (?&?&?&?).
  by split_and!.
Qed.

Lemma Interface_Complete_idemp n :
  Interface_Complete (Interface_Complete n) = Interface_Complete n.
Proof. by destruct n. Qed.

Lemma foldl_Complete_lookup l (h : list tnode) i :
  foldl (λ h t, alter Interface_Complete t h) h l !! i
  = (if bool_decide (i ∈ l) then Interface_Complete else id) <$> h !! i.
Proof.
  revert h. induction l as [|t l IH]; intros h; simpl.
  - by destruct (h !! i).
  - rewrite IH, list_lookup_alter.
    destruct (decide (t = i)) as [->|Hne].
    + rewrite (bool_decide_eq_true_2 (i ∈ i :: l)) by left.
      destruct (h !! i) as [n|]; simpl; [|by case_bool_decide].
      case_bool_decide; simpl; [by rewrite Interface_Complete_idemp|done].
    + destruct (bool_decide (i ∈ l)) eqn:Hin.
      * apply bool_decide_eq_true in Hin.
        by rewrite (bool_decide_eq_true_2 (i ∈ t :: l)) by by right.
      * apply bool_decide_eq_false in Hin.
        rewrite (bool_decide_eq_false_2 (i ∈ t :: l)); [done|].
        intros [->|?]%elem_of_cons; done.
Qed.

Lemma completeAll_frame st :
  p (completeAll st) = p st ∧ packages (completeAll st) = packages st ∧
  imports (completeAll st) = imports st.
Proof.
  destruct (foldl_update_frame Interface_Complete (interfaceList (p st)) st
              (completeAll st) eq_refl) as (?&?&?&?).
  done.
Qed.

Lemma completeAll_lookup st i :
  types (completeAll st) !! i
  = (if bool_decide (i ∈ interfaceList (p st)) then Interface_Complete else id)
      <$> types st !! i.
Proof.
  destruct (foldl_update_frame Interface_Complete (interfaceList (p st)) st
              (completeAll st) eq_refl) as (_&_&_&->).
  apply foldl_Complete_lookup.
Qed.

(** The interfaces that an import makes are complete when it
    returns: in the state of a returning [iImportData], every interface
    among the types that were added is complete. *)
Theorem iImportData_interfaces_complete env fuel types0 packages0 imports0
    data path pkg st :
  InstantiateExtends env → InstantiateNoInterface env →
  iImportData env fuel types0 packages0 imports0 data path = Imported pkg st →
  ∀ t ms es c,
    (length types0 ≤ t)%nat →
    types st !! t = Some (Interface ms es c) → c = true.
Proof.
  intros HE HN Hrun t ms es c Ht Hnode.
  apply iImportData_inv in Hrun as (version & r & q & r' & Hbody).
  apply importBody_inv in Hbody
    as (q0 & n & r1 & r2 & st1 & others & names & stA & Hq0 & Hlist & Hnames & Hdecls & ->).
  pose proof (R_interfaces_Footprint env HE HN) as HI.
  pose proof (FI_readers _ _ HI) as HF.
  pose proof R_interfaces_UpdateStep as HU.
  assert (R_interfaces
            (set_p {| p := q; types := types0; packages := packages0;
                      imports := imports0 |} q0) stA) as (_ & _ & Hnew).
  { eapply (F_trans _ _ HF).
    - eapply fp_pkgList; eauto.
    - eapply fp_decls; eauto. }
  simpl in Hnew, Hnode. rewrite completeAll_lookup in Hnode.
  destruct (types stA !! t) as [nd|] eqn:Hnd; [|done].
  simpl in Hnode. injection Hnode as Hnode.
  assert (t ∈ interfaceList (p stA)) as Hin.
  { apply (Hnew t nd Ht Hnd).
    destruct (bool_decide _) in Hnode; by destruct nd. }
  rewrite bool_decide_eq_true_2 in Hnode by done.
  destruct nd; try done. simpl in Hnode. by injection Hnode as _ _ <-.
Qed.

(** The packages of a returning [pkgEntry]. *)
Lemma registered_R_names st st' pkg :
  R_names st st' → registered st pkg → registered st' pkg.
Proof.
  intros [Himp Hpk] [[pk Hpkg] [pa Hpa]]. split.
  - destruct (Hpk _ _ Hpkg) as (pk' & Hpk' & _). by exists pk'.
  - exists pa. by eapply lookup_weaken.
Qed.

Lemma pkgEntry_registered fuel path r st pkg r' st' :
  pkgEntry fuel path r st = Ok pkg r' st' → registered st' pkg.
Proof.
  unfold pkgEntry. intros H.
  do 5 (apply mbind_Ok in H as (? & ? & ? & _ & H)).
  apply mbind_Ok in H as (stg & rg & stg' & Hg & H).
  unfold getState in Hg. injection Hg as <- <- <-.
  apply mbind_Ok in H as (pkg1 & r1 & st1 & Hpkg & H).
  assert (registered st1 pkg1) as Hreg.
  { match type of Hpkg with
    | context [imports ?s !! ?k] => destruct (imports s !! k) as [pkg0|] eqn:Himp
    end.
    - apply mbind_Ok in Hpkg as (nm & r2 & st2 & Hnm & Hpkg).
      revert Hnm. unfold Package_Name. munfold. simpl.
      destruct (packages _ !! pkg0) as [pk|] eqn:Hpk; [|done].
      intros [= _ <- <-].
      destruct (negb _); [done|]. revert Hpkg. munfold. intros [= <- _ <-].
      split; [by eexists | by eexists].
    - revert Hpkg. unfold NewPackage. munfold. intros [= <- _ <-]. split; simpl.
      + rewrite lookup_app_r, Nat.sub_diag by done. by eexists.
      + eexists. apply lookup_insert_eq. }
  assert (pkg = pkg1 ∧ R_names st1 st') as [-> HR].
  { pose proof (R_names_Footprint exampleEnv) as HI.
    pose proof (FI_readers _ _ HI) as HF.
    pose proof R_names_UpdateStep as HU.
    apply mbind_Ok in H as ([] & r2 & st2 & H2 & H).
    apply mbind_Ok in H as (nSyms & r3 & st3 & H3 & H).
    apply mbind_Ok in H as (syms & r4 & st4 & H4 & H).
    apply mbind_Ok in H as ([] & r5 & st5 & H5 & H).
    injection H as <- <- <-. split; [done|].
    eapply (F_trans _ _ HF); [eapply fp_pkgCache; eauto|].
    eapply (F_trans _ _ HF); [eapply fp_intReader_uint64; eauto|].
    eapply (F_trans _ _ HF); [|eapply fp_pkgIndex; eauto].
    revert H4. eapply fp_repeatM; eauto.
    eapply fp_bind; eauto; [eapply fp_intReader_uint64; eauto|intros ?].
    eapply fp_bind; eauto; [eapply fp_stringAt; eauto|intros ?].
    eapply fp_bind; eauto; [eapply fp_intReader_uint64; eauto|intros ?].
    eapply fp_ret; eauto. }
  by eapply registered_R_names.
Qed.

Lemma repeatM_post {A} (P : state → A → Prop) (R : state → state → Prop)
    (body : M A) :
  (∀ st1 st2 st3, R st1 st2 → R st2 st3 → R st1 st3) →
  (∀ st, R st st) →
  (∀ st st' a, R st st' → P st a → P st' a) →
  keeps R body →
  (∀ r st a r' st', body r st = Ok a r' st' → P st' a) →
  ∀ fuel n r st l r' st',
    repeatM fuel n body r st = Ok l r' st' → R st st' ∧ Forall (P st') l.
Proof.
  intros Htrans Hrefl Hmono Hkeeps Hpost.
  induction fuel as [|fuel IH]; intros n r st l r' st'; simpl.
  - destruct (n <=? 0); [|done]. by intros [= <- _ <-].
  - destruct (n <=? 0); [by intros [= <- _ <-]|].
    intros H.
    apply mbind_Ok in H as (x & r1 & st1 & Hx & H).
    apply mbind_Ok in H as (xs & r2 & st2 & Hxs & H).
    injection H as <- <- <-.
    destruct (IH _ _ _ _ _ _ Hxs) as [HR Hall].
    split; [by eapply Htrans; [eapply Hkeeps|]|].
    constructor; [|done]. eapply Hmono; [exact HR|]. by eapply Hpost.
Qed.

Lemma string_le_total : Total string_le.
Proof. intros a b. unfold string_le. apply String.leb_total. Qed.

(** [Package_finish] changes neither a path nor the [imports] map. *)
Lemma finish_pathOf st list pkg i :
  pathOf (set_packages st (alter (Package_finish list) pkg (packages st))) i
  = pathOf st i.
Proof.
  unfold pathOf, pkgref in *. simpl. rewrite list_lookup_alter.
  destruct (decide (pkg = i)) as [->|]; [|done].
  by destruct (packages st !! i).
Qed.

Lemma finish_registered st list pkg i :
  registered st i →
  registered (set_packages st (alter (Package_finish list) pkg (packages st))) i.
Proof.
  intros [[pk Hpk] Himp]. split; [|done]. unfold pkgref in *. simpl.
  rewrite list_lookup_alter.
  destruct (decide (pkg = i)) as [->|]; rewrite Hpk; by eexists.
Qed.

Lemma finish_R_names st list pkg :
  R_names st (set_packages st (alter (Package_finish list) pkg (packages st))).
Proof.
  split; [done|]. unfold pkgref in *. simpl. intros i pk Hpk.
  rewrite list_lookup_alter. destruct (decide (pkg = i)) as [->|]; rewrite Hpk;
    by eexists.
Qed.

Lemma completeAll_R_names st : R_names st (completeAll st).
Proof.
  destruct (completeAll_frame st) as (_ & Hpk & Himp).
  split; [by rewrite Himp|]. intros i pk Hi. rewrite Hpk. by eexists.
Qed.

(** The index and the declarations, for the names. *)
Lemma importBody_names env fuel n path r1 st0 pkg others r2 st1 names r' stA :
  repeatM fuel n (pkgEntry fuel path) r1 st0 = Ok (pkg :: others) r2 st1 →
  sequenceM_ (doDecl env fuel pkg) names r2 st1 = Ok tt r' stA →
  R_names st0 stA ∧ Forall (registered stA) (pkg :: others).
Proof.
  intros Hlist Hdecls.
  pose proof (R_names_Footprint env) as HI.
  pose proof (FI_readers _ _ HI) as HF.
  pose proof R_names_UpdateStep as HU.
  assert (R_names st1 stA) as H2.
  { eapply fp_decls; eauto. }
  destruct (repeatM_post registered R_names (pkgEntry fuel path)
              R_names_trans R_names_refl registered_R_names
              ltac:(eapply fp_pkgEntry; eauto)
              (pkgEntry_registered fuel path) _ _ _ _ _ _ _ Hlist)
    as [H1 Hall].
  split; [by eapply R_names_trans|].
  eapply Forall_impl; [exact Hall|]. intros i. by apply registered_R_names.
Qed.

(** The package that an import returns is complete, and its imports
    are sorted by path; the package and each of its imports exists and is
    in the [imports] map. *)
Theorem iImportData_result env fuel types0 packages0 imports0 data path pkg st :
  iImportData env fuel types0 packages0 imports0 data path = Imported pkg st →
  registered st pkg ∧
  ∃ pk,
    packages st !! pkg = Some pk ∧ pkg_complete pk = true ∧
    Sorted (byPath st) (pkg_imports pk) ∧
    Forall (registered st) (pkg_imports pk).
Proof.
  intros Hrun.
  apply iImportData_inv in Hrun as (version & r & q & r' & Hbody).
  apply importBody_inv in Hbody
    as (q0 & n & r1 & r2 & st1 & others & names & stA & Hq0 & Hlist & Hnames & Hdecls & ->).
  destruct (importBody_names _ _ _ _ _ _ _ _ _ _ _ _ _ Hlist Hdecls)
    as [_ Hall].
  assert (Forall (registered (completeAll stA)) (pkg :: others)) as Hall'.
  { eapply Forall_impl; [exact Hall|]. intros i.
    apply registered_R_names, completeAll_R_names. }
  clear Hall. set (stB := completeAll stA) in *.
  apply Forall_cons in Hall' as [Hpkg Hothers].
  split; [by apply finish_registered|].
  destruct Hpkg as [[pk Hpk] _].
  exists (Package_finish (sortByPath stB others) pk). simpl.
  split.
  { unfold pkgref in *. rewrite list_lookup_alter, decide_True by done.
    by rewrite Hpk. }
  split; [done|]. split.
  - unfold sortByPath.
    assert (∀ l, Sorted (λ a b, string_le (pathOf stB a) (pathOf stB b)) l →
                 Sorted (byPath (set_packages stB
                           (alter (Package_finish
                                     (merge_sort
                                        (λ a b, string_le (pathOf stB a) (pathOf stB b))
                                        others)) pkg (packages stB)))) l) as Himpl.
    { intros l.
      induction 1 as [|a l Hl IH Hhd]; constructor; [done|].
      destruct Hhd; constructor. unfold byPath. by rewrite !finish_pathOf. }
    apply Himpl. apply Sorted_merge_sort.
    intros a b. apply string_le_total.
  - apply Forall_forall. intros i Hi. apply finish_registered.
    unfold sortByPath in Hi. rewrite merge_sort_Permutation in Hi.
    by eapply Forall_forall in Hothers.
Qed.

(** An import keeps what was imported before: in the state of a
    returning [iImportData] the [imports] map holds every entry that it
    was given, and every package that was given is there under its index,
    with its path, its name and every declaration of its scope. *)
Theorem iImportData_keeps_packages env fuel types0 packages0 imports0 data path
    pkg st :
  iImportData env fuel types0 packages0 imports0 data path = Imported pkg st →
  imports0 ⊆ imports st ∧
  ∀ i pk,
    packages0 !! i = Some pk →
    ∃ pk', packages st !! i = Some pk' ∧
           pkg_path pk' = pkg_path pk ∧ pkg_name pk' = pkg_name pk ∧
           pkg_scope pk ⊆ pkg_scope pk'.
Proof.
  intros Hrun.
  apply iImportData_inv in Hrun as (version & r & q & r' & Hbody).
  apply importBody_inv in Hbody
    as (q0 & n & r1 & r2 & st1 & others & names & stA & Hq0 & Hlist & Hnames & Hdecls & ->).
  destruct (importBody_names _ _ _ _ _ _ _ _ _ _ _ _ _ Hlist Hdecls)
    as [HR _].
  assert (R_names
            {| p := q0; types := types0; packages := packages0;
               imports := imports0 |}
            (set_packages (completeAll stA)
               (alter (Package_finish (sortByPath (completeAll stA) others)) pkg
                  (packages (completeAll stA))))) as [H1 H2].
  { eapply R_names_trans; [exact HR|].
    eapply R_names_trans; [apply completeAll_R_names|apply finish_R_names]. }
  split; [exact H1|exact H2].
Qed.

(** An import changes no type that existed before it: in the state
    of a returning [iImportData] the types it was given are the first
    types, as they were. *)
Theorem iImportData_keeps_types env fuel types0 packages0 imports0 data path
    pkg st :
  InstantiateAppends env →
  iImportData env fuel types0 packages0 imports0 data path = Imported pkg st →
  types0 `prefix_of` types st.
Proof.
  intros HA Hrun.
  apply iImportData_inv in Hrun as (version & r & q & r' & Hbody).
  apply importBody_inv in Hbody
    as (q0 & n & r1 & r2 & st1 & others & names & stA & Hq0 & Hlist & Hnames & Hdecls & ->).
  set (st0 := set_p {| p := q; types := types0; packages := packages0;
                       imports := imports0 |} q0) in *.
  assert (R_old (length types0) st0 stA) as Hold.
  { pose proof (R_old_Footprint env (length types0) HA) as HI.
    pose proof (FI_readers _ _ HI) as HF.
    eapply (F_trans _ _ HF).
    - eapply fp_pkgList; eauto.
    - revert Hdecls. eapply fp_sequenceM_; eauto.
      intros name. apply (old_run env (length types0) HA fuel). }
  assert (R_fresh (length types0) st0 stA) as Hfresh.
  { pose proof (R_fresh_Footprint env (length types0) HA) as HI.
    pose proof (FI_readers _ _ HI) as HF.
    pose proof (R_fresh_UpdateStep (length types0)) as HU.
    eapply (F_trans _ _ HF).
    - eapply fp_pkgList; eauto.
    - eapply fp_decls; eauto. }
  destruct (Hold (le_n _)) as [Hlen Htake].
  destruct (Hfresh (le_n _)) as [_ Hlist']. { simpl. by rewrite Hq0. }
  simpl in Htake. rewrite firstn_all in Htake.
  assert (take (length types0) (types (completeAll stA)) = types0) as Hall.
  { transitivity (take (length types0) (types stA)); [|exact Htake].
    apply list_eq. intros i.
    destruct (decide (i < length types0)%nat) as [Hi|Hi].
    - rewrite !lookup_take_lt by done. rewrite completeAll_lookup.
      rewrite bool_decide_eq_false_2; [apply option_fmap_id|].
      intros Hin. eapply Forall_forall in Hlist'; [|exact Hin]. lia.
    - by rewrite !lookup_take_ge by lia. }
  simpl. exists (drop (length types0) (types (completeAll stA))).
  rewrite <- (take_drop (length types0) (types (completeAll stA))) at 1.
  by rewrite Hall.
Qed.

(** The declarations of the index *)
Lemma doDecl_declared env fuel pkg name r st r' st' :
  is_Some (packages st !! pkg) →
  doDecl env fuel pkg name r st = Ok tt r' st' →
  (∃ off, pkgIndex (p st) !! pkg ≫= (λ idx, idx !! name) = Some off ∧
          declData (p st) !! Z.to_nat off = Some "P"%byte) ∨
  is_Some (Lookup st' pkg name).
Proof.
  intros Hvalid H.
  destruct fuel as [|fuel]; [done|].
  revert H. unfold doDecl. simpl. unfold doDecl_body. munfold.
  destruct (Lookup st pkg name) as [o|] eqn:Ho.
  { intros [= _ <-]. right. by rewrite Ho. }
  match goal with
  | |- match ?x with Some _ => _ | None => _ end _ _ = _ → _ =>
      destruct x as [off|] eqn:Hoff; [|done]
  end.
  destruct (Z.of_nat (length (declData (p st))) <? off) eqn:Hlen; [done|].
  unfold withReader.
  destruct (obj env fuel (run env fuel) name
              (newReader (Some pkg) (drop (Z.to_nat off) (declData (p st)))) st)
    as [[] r1 st1| |] eqn:Hobj; [|done..].
  intros [= _ <-].
  destruct (drop (Z.to_nat off) (declData (p st))) as [|tag data] eqn:Hdrop.
  { revert Hobj. unfold obj, byte_. by munfold. }
  destruct (obj_declares env fuel name pkg tag data _ _ _ _ Hobj)
    as [-> | Hl]; try done.
  - left. exists off. split; [done|].
    rewrite <- (Nat.add_0_r (Z.to_nat off)), <- lookup_drop, Hdrop. done.
  - by right.
Qed.

Lemma decls_declared env fuel pkg : ∀ names r st r' st',
  is_Some (packages st !! pkg) →
  sequenceM_ (doDecl env fuel pkg) names r st = Ok tt r' st' →
  ∀ name, name ∈ names →
    (∃ off, pkgIndex (p st) !! pkg ≫= (λ idx, idx !! name) = Some off ∧
            declData (p st) !! Z.to_nat off = Some "P"%byte) ∨
    is_Some (Lookup st' pkg name).
Proof.
  pose proof (FI_readers _ _ (R_names_Footprint env)) as HF.
  pose proof R_names_UpdateStep as HU.
  induction names as [|n ns IH]; intros r st r' st' Hvalid Hrun name Hin.
  { by apply elem_of_nil in Hin. }
  simpl in Hrun. apply mbind_Ok in Hrun as ([] & r1 & st1 & H1 & H2).
  assert (R_names st st1) as HR1 by (eapply fp_doDecl; eauto).
  assert (R_names st1 st') as HR2 by (eapply fp_decls; eauto).
  assert (R_tables st st1) as HT.
  { eapply fp_doDecl;
      [apply R_tables_Footprint|apply R_tables_UpdateStep|exact H1]. }
  destruct (decide (name = n)) as [->|Hne].
  - destruct (doDecl_declared _ _ _ _ _ _ _ _ Hvalid H1) as [Hl|[o Ho]]; [by left|].
    right. exists o. by eapply Lookup_R_names.
  - apply elem_of_cons in Hin as [?|Hin]; [done|].
    assert (is_Some (packages st1 !! pkg)) as Hv1 by by eapply R_names_valid.
    destruct (IH _ _ _ _ Hv1 H2 name Hin) as [(off & Hoff & HP)|Hl]; [|by right].
    left. exists off. destruct HT as (_ & Hd & _ & _ & _ & _ & Hi & _).
    by rewrite <- Hi, <- Hd.
Qed.

Lemma finish_Lookup st list pkg i name :
  Lookup (set_packages st (alter (Package_finish list) pkg (packages st))) i name
  = Lookup st i name.
Proof.
  unfold Lookup, pkgref in *. simpl. rewrite list_lookup_alter.
  destruct (decide (pkg = i)) as [->|]; [|done].
  by destruct (packages st !! i).
Qed.

(** Every name of the index of the package is declared in the package
    that an import returns, the type parameters apart: [iImportData] asks
    [doDecl] for every name of the index, and what is declared stays. *)
Theorem iImportData_declares_index env fuel types0 packages0 imports0 data path
    pkg st :
  iImportData env fuel types0 packages0 imports0 data path = Imported pkg st →
  ∀ name off,
    pkgIndex (p st) !! pkg ≫= (λ idx, idx !! name) = Some off →
    declData (p st) !! Z.to_nat off = Some "P"%byte ∨
    is_Some (Lookup st pkg name).
Proof.
  intros Hrun name off Hoff.
  apply iImportData_inv in Hrun as (version & r & q & r' & Hbody).
  apply importBody_inv in Hbody
    as (q0 & n & r1 & r2 & st1 & others & names & stA & Hq0 & Hlist & Hnames & Hdecls & ->).
  destruct (importBody_names _ _ _ _ _ _ _ _ _ _ _ _ _ Hlist Hdecls)
    as [_ Hall].
  assert (R_names st1 stA ∧ R_tables st1 stA) as [HN HT].
  { pose proof (FI_readers _ _ (R_names_Footprint env)) as HF.
    split.
    - eapply fp_decls; eauto using R_names_UpdateStep.
    - eapply fp_decls;
        [apply R_tables_Footprint|apply R_tables_UpdateStep|exact Hdecls]. }
  destruct HT as (_ & Hd & _ & _ & _ & _ & Hi & _).
  destruct (completeAll_frame stA) as (Hp & Hpk & _).
  revert Hoff. simpl. rewrite Hp, Hd, Hi. intros Hoff.
  rewrite finish_Lookup. unfold Lookup. rewrite Hpk. fold (Lookup stA pkg name).
  assert (is_Some (packages st1 !! pkg)) as Hvalid.
  { pose proof (R_names_Footprint env) as HI.
    pose proof (FI_readers _ _ HI) as HF.
    destruct (repeatM_post registered R_names (pkgEntry fuel path)
                R_names_trans R_names_refl registered_R_names
                ltac:(eapply fp_pkgEntry; eauto)
                (pkgEntry_registered fuel path) _ _ _ _ _ _ _ Hlist)
      as [_ Hreg].
    apply Forall_cons in Hreg as [[Hv _] _]. exact Hv. }
  assert (name ∈ names) as Hin.
  { subst names. unfold sortStrings. rewrite merge_sort_Permutation.
    apply list_elem_of_fmap. exists (name, off). split; [done|].
    apply elem_of_map_to_list.
    destruct (pkgIndex (p st1) !! pkg) as [idx|]; [|done]. done. }
  destruct (decls_declared env fuel pkg names _ _ _ _ Hvalid Hdecls name Hin)
    as [(off' & Hoff' & HP)|Hl]; [|by right].
  left. rewrite Hoff in Hoff'. by injection Hoff' as <-.
Qed.

(** *** Instances on concrete inputs *)

Lemma uint64_PutUvarint_witness :
  PutUvarint 300 = [xac; x02] ∧
  uint64_ (newReader None [xac; x02; x07]) (emptyState 1)
  = Ok 300 (newReader None [x07]) (emptyState 1).
Proof.
  split; [reflexivity|].
  apply (uint64_PutUvarint 300 [x07] (newReader None [xac; x02; x07])
           (emptyState 1)); [lia|reflexivity].
Defined.

Lemma int64_PutVarint_witness :
  PutVarint (-3) = [x05] ∧
  int64_ (newReader None [x05; x07]) (emptyState 1)
  = Ok (-3) (newReader None [x07]) (emptyState 1).
Proof.
  split; [reflexivity|].
  apply (int64_PutVarint (-3) [x07] (newReader None [x05; x07])
           (emptyState 1)); [lia|reflexivity].
Defined.

Lemma stringAt_decodes_witness :
  stringAt 1 (newReader None []) crossState
  = Ok "AB"%string (newReader None [])
      (set_p crossState
         (set_stringCache (p crossState) {[ 1 := "AB"%string ]})).
Proof.
  apply (stringAt_decodes [x00] [x41; x42] [x07] 1 (newReader None [])
           crossState).
  - reflexivity.
  - reflexivity.
  - reflexivity.
  - simpl. lia.
  - by vm_compute.
Defined.

Lemma mpint_exhausted_witness :
  mpint int64T (newReader None []) (emptyState 1)
  = Ok 0 (newReader None []) (emptyState 1).
Proof.
  apply (mpint_exhausted int64T (newReader None []) (emptyState 1)).
  reflexivity.
Defined.

Lemma mpint_large_path_witness :
  mpint int64T (newReader None [xfd; x01; x00; x09]) (emptyState 1)
  = Ok (-256) (newReader None [x09]) (emptyState 1).
Proof.
  apply (mpint_large_path int64T xfd [x01; x00; x09]
           (newReader None [xfd; x01; x00; x09]) (emptyState 1)).
  - reflexivity.
  - by vm_compute.
Defined.

Lemma parseSubscript_subscripted_witness :
  parseSubscript (string_of_list_byte ["T"%byte; xe2; x82; x81; xe2; x82; x82])
  = ("T"%string, 12).
Proof.
  apply (parseSubscript_subscripted ["T"%byte] [1; 2]).
  - repeat constructor.
  - repeat constructor; lia.
Defined.

Lemma doDecl_declares_witness :
  let r := newReader None [] in
  let res := doDecl exampleEnv 10 0%nat "F" r genericState in
  res = Ok tt r (stateOf res genericState) ∧
  is_Some (Lookup (stateOf res genericState) 0%nat "F") ∧
  doDecl exampleEnv 1 0%nat "F" r (stateOf res genericState)
  = Ok tt r (stateOf res genericState).
Proof.
  intros r res.
  assert (res = Ok tt r (stateOf res genericState)) as H by by vm_compute.
  split; [exact H|].
  destruct (doDecl_declares exampleEnv 10 0%nat "F" r r genericState
              (stateOf res genericState) ltac:(by vm_compute; eauto) H)
    as [(off & Hoff & HP)|[HL Hn]].
  - exfalso. vm_compute in Hoff. injection Hoff as <-. vm_compute in HP.
    discriminate HP.
  - split; [exact HL|apply Hn].
Defined.

Lemma declarations_stay_witness :
  let r := newReader None [] in
  let res := doDecl exampleEnv 10 0%nat "F" r genericState in
  res = Ok tt r (stateOf res genericState) ∧
  imports genericState ⊆ imports (stateOf res genericState).
Proof.
  intros r res.
  assert (res = Ok tt r (stateOf res genericState)) as H by by vm_compute.
  split; [exact H|].
  apply (declarations_stay exampleEnv 10 genericState (stateOf res genericState)).
  right. exists 0%nat, "F"%string, r, r. exact H.
Defined.

Lemma stringAt_stable_witness :
  let r := newReader None [] in
  let st := stateOf (stringAt 3 r genericState) genericState in
  let res := doDecl exampleEnv 10 0%nat "F" r st in
  stringAt 3 r genericState = Ok "F"%string r st ∧
  res = Ok tt r (stateOf res st) ∧
  stringAt 3 r (stateOf res st) = Ok "F"%string r (stateOf res st).
Proof.
  intros r st res.
  assert (stringAt 3 r genericState = Ok "F"%string r st) as Hs by by vm_compute.
  assert (res = Ok tt r (stateOf res st)) as H by by vm_compute.
  split; [exact Hs|]. split; [exact H|].
  apply (proj1 (stringAt_stable exampleEnv 10 st (stateOf res st)
                  (or_intror (ex_intro _ 0%nat (ex_intro _ "F"%string
                     (ex_intro _ r (ex_intro _ r H))))))
           3 "F"%string r genericState r Hs r).
Defined.

Lemma iImportData_interfaces_complete_witness :
  let out := iImportData exampleEnv 10 [] [] ∅ interfaceData "p" in
  let st := importedState out crossState in
  out = Imported 0%nat st ∧
  types st !! 1%nat = Some (Interface [] [] true) ∧
  ∀ t ms es c,
    (length (@nil tnode) ≤ t)%nat →
    types st !! t = Some (Interface ms es c) → c = true.
Proof.
  intros out st.
  assert (out = Imported 0%nat st) as H by by vm_compute.
  split; [exact H|]. split; [by vm_compute|].
  apply (iImportData_interfaces_complete exampleEnv 10 [] [] ∅ interfaceData
           "p" 0%nat st).
  - intros h b targs h' t Hi. discriminate Hi.
  - intros h b targs h' t Hi. discriminate Hi.
  - exact H.
Defined.

Lemma iImportData_result_witness :
  let out :=
    iImportData exampleEnv 10 [] packagesBefore importsBefore importsData "p" in
  let st := importedState out crossState in
  out = Imported 1%nat st ∧
  pkg_imports <$> packages st !! 1%nat = Some [0%nat; 2%nat] ∧
  registered st 1%nat ∧
  ∃ pk,
    packages st !! 1%nat = Some pk ∧ pkg_complete pk = true ∧
    Sorted (byPath st) (pkg_imports pk) ∧
    Forall (registered st) (pkg_imports pk).
Proof.
  intros out st.
  assert (out = Imported 1%nat st) as H by by vm_compute.
  split; [exact H|]. split; [by vm_compute|].
  exact (iImportData_result exampleEnv 10 [] packagesBefore importsBefore
           importsData "p" 1%nat st H).
Defined.

Lemma iImportData_keeps_packages_witness :
  let out :=
    iImportData exampleEnv 10 [] packagesBefore importsBefore importsData "p" in
  let st := importedState out crossState in
  out = Imported 1%nat st ∧
  importsBefore ⊆ imports st ∧
  ∀ i pk,
    packagesBefore !! i = Some pk →
    ∃ pk', packages st !! i = Some pk' ∧
           pkg_path pk' = pkg_path pk ∧ pkg_name pk' = pkg_name pk ∧
           pkg_scope pk ⊆ pkg_scope pk'.
Proof.
  intros out st.
  assert (out = Imported 1%nat st) as H by by vm_compute.
  split; [exact H|].
  exact (iImportData_keeps_packages exampleEnv 10 [] packagesBefore
           importsBefore importsData "p" 1%nat st H).
Defined.

Lemma typAt_doDecl_add_types_witness :
  let r := newReader None [] in
  let res := doDecl exampleEnv 10 0%nat "F" r genericBefore in
  res = Ok tt r (stateOf res genericBefore) ∧
  length (types (stateOf res genericBefore)) = 4%nat ∧
  types genericBefore `prefix_of` types (stateOf res genericBefore).
Proof.
  intros r res.
  assert (res = Ok tt r (stateOf res genericBefore)) as H by by vm_compute.
  split; [exact H|]. split; [by vm_compute|].
  apply (typAt_doDecl_add_types exampleEnv 10 genericBefore
           (stateOf res genericBefore)).
  - intros h b targs h' t Hi. discriminate Hi.
  - right. exists 0%nat, "F"%string, r, r. exact H.
Defined.

Lemma iImportData_keeps_types_witness :
  let out := iImportData exampleEnv 10 typesBefore [] ∅ interfaceData "p" in
  let st := importedState out crossState in
  out = Imported 0%nat st ∧
  length (types st) = 3%nat ∧
  typesBefore `prefix_of` types st.
Proof.
  intros out st.
  assert (out = Imported 0%nat st) as H by by vm_compute.
  split; [exact H|]. split; [by vm_compute|].
  apply (iImportData_keeps_types exampleEnv 10 typesBefore [] ∅ interfaceData
           "p" 0%nat st).
  - intros h b targs h' t Hi. discriminate Hi.
  - exact H.
Defined.

Lemma iImportData_declares_index_witness :
  let out := iImportData exampleEnv 10 [] [] ∅ structData "p" in
  let st := importedState out crossState in
  out = Imported 0%nat st ∧
  pkgIndex (p st) !! 0%nat ≫= (λ idx, idx !! "A"%string) = Some 0 ∧
  (declData (p st) !! Z.to_nat 0 = Some "P"%byte ∨
   is_Some (Lookup st 0%nat "A")).
Proof.
  intros out st.
  assert (out = Imported 0%nat st) as H by by vm_compute.
  assert (pkgIndex (p st) !! 0%nat ≫= (λ idx, idx !! "A"%string) = Some 0)
    as Hidx by by vm_compute.
  split; [exact H|]. split; [exact Hidx|].
  exact (iImportData_declares_index exampleEnv 10 [] [] ∅ structData "p"
           0%nat st H "A"%string 0 Hidx).
Defined.

End ImporterMore.
